(** * SCPCE: the persistent context engine, embedded and verified

    The development follows the Python package [pce] file by file:
    [schema.py], [compression.py], [storage.py], [retrieval.py] and [api.py]
    each become a module of the same name, preceded by a module [Py] with the
    few Python built-ins the package calls ([str.strip], [str.split],
    [str.splitlines], [str.rfind], slices, [sorted], [re.split] for the two
    patterns in use, ...), and followed by a module [app] with the two
    functions of [app.py] that lead to a write.

    Conventions.
    - A Python [str] is a list of characters; a character is a code point
      below 256 (Rocq's [ascii]).  The character classes ([str.isspace],
      line boundaries, [\w], [str.lower]) are Python's on that range.
    - A Python [int] is a [Z]; negative slice bounds count from the end, as
      in Python.
    - A Python [float] is a binary64 [float].
    - Exceptions are values of [Py.outcome]; the store file is threaded
      explicitly. *)

From Stdlib Require Import ZArith Ascii String Floats Uint63.
From stdpp Require Import base list sorting gmap strings.

Abbreviation str := (list ascii).

(** ** Python built-ins *)

Module Py.

(** [lit "abc"] is the Python literal ["abc"]. *)
Definition lit (s : string) : str := list_ascii_of_string s.

Definition code (c : ascii) : N := N_of_ascii c.

Definition between (lo hi n : N) : bool := (lo <=? n)%N && (n <=? hi)%N.

(** [c.isspace()] *)
Definition isspace (c : ascii) : bool :=
  let n := code c in
  between 9 13 n || between 28 32 n || (n =? 133)%N || (n =? 160)%N.

(** the line boundaries of [str.splitlines] *)
Definition is_linebreak (c : ascii) : bool :=
  let n := code c in
  between 10 13 n || between 28 30 n || (n =? 133)%N.

(** [c.lower()] *)
Definition lower_char (c : ascii) : ascii :=
  let n := code c in
  if between 65 90 n || (between 192 222 n && negb (n =? 215)%N)
  then ascii_of_N (n + 32) else c.

(** a character matched by [\w] in a [str] pattern *)
Definition is_word (c : ascii) : bool :=
  let n := code c in
  between 48 57 n || between 65 90 n || (n =? 95)%N || between 97 122 n
  || (n =? 170)%N || between 178 179 n || (n =? 181)%N || between 185 186 n
  || between 188 190 n || between 192 214 n || between 216 246 n
  || between 248 255 n.

(** [s.lower()] *)
Definition lower (s : str) : str := map lower_char s.

Fixpoint lstrip_by (p : ascii → bool) (s : str) : str :=
  match s with
  | [] => []
  | c :: s' => if p c then lstrip_by p s' else s
  end.

Definition rstrip_by (p : ascii → bool) (s : str) : str :=
  reverse (lstrip_by p (reverse s)).

Definition strip_by (p : ascii → bool) (s : str) : str :=
  rstrip_by p (lstrip_by p s).

(** [s.strip()], [s.rstrip()] and [s.strip(chars)] *)
Definition strip : str → str := strip_by isspace.
Definition rstrip : str → str := rstrip_by isspace.
Definition strip_chars (s chars : str) : str :=
  strip_by (λ c, bool_decide (c ∈ chars)) s.

Definition flush (cur : str) : list str :=
  match cur with [] => [] | _ => [cur] end.

Fixpoint split_go (cur s : str) : list str :=
  match s with
  | [] => flush cur
  | c :: s' =>
      if isspace c then flush cur ++ split_go [] s'
      else split_go (cur ++ [c]) s'
  end.

(** [s.split()] *)
Definition split (s : str) : list str := split_go [] s.

(** [sep.join(parts)] *)
Fixpoint join (sep : str) (parts : list str) : str :=
  match parts with
  | [] => []
  | p :: ps => match ps with [] => p | _ => p ++ sep ++ join sep ps end
  end.

(** [s.startswith(prefix)] *)
Fixpoint startswith (s prefix : str) : bool :=
  match prefix, s with
  | [], _ => true
  | _ :: _, [] => false
  | a :: prefix', b :: s' => bool_decide (a = b) && startswith s' prefix'
  end.

(** [s.find(sub)], with [None] for [-1] *)
Fixpoint find (s sub : str) : option nat :=
  if startswith s sub then Some 0
  else match s with
       | [] => None
       | _ :: s' => S <$> find s' sub
       end.

(** [sub in s] *)
Definition str_in (sub s : str) : bool := bool_decide (is_Some (find s sub)).

(** [s.split(sep, 1)] for a non-empty [sep] *)
Definition split1 (s sep : str) : list str :=
  match find s sep with
  | None => [s]
  | Some i => [take i s; drop (i + length sep) s]
  end.

Fixpoint splitlines_go (cur : str) (after_cr : bool) (s : str) : list str :=
  match s with
  | [] => flush cur
  | c :: s' =>
      if after_cr && bool_decide (code c = 10%N) then splitlines_go cur false s'
      else if is_linebreak c
           then cur :: splitlines_go [] (bool_decide (code c = 13%N)) s'
           else splitlines_go (cur ++ [c]) false s'
  end.

(** [s.splitlines()] *)
Definition splitlines (s : str) : list str := splitlines_go [] false s.

(** A slice bound [i] of a sequence of length [len], as Python clamps it. *)
Definition clamp (len : nat) (i : Z) : nat :=
  if (i <? 0)%Z then Z.to_nat (Z.of_nat len + i) else Z.to_nat i `min` len.

(** [l[:stop]] and [l[-n:]] (the latter for [n > 0]) *)
Definition slice_to {A} (l : list A) (stop : Z) : list A :=
  take (clamp (length l) stop) l.
Definition slice_from {A} (l : list A) (start : Z) : list A :=
  drop (clamp (length l) start) l.

Fixpoint last_index (c : ascii) (s : str) : option nat :=
  match s with
  | [] => None
  | x :: s' =>
      match last_index c s' with
      | Some i => Some (S i)
      | None => if bool_decide (x = c) then Some 0 else None
      end
  end.

(** [s.rfind(c, 0, stop)] for a one-character needle *)
Definition rfind (s : str) (c : ascii) (stop : Z) : Z :=
  match last_index c (slice_to s stop) with
  | Some i => Z.of_nat i
  | None => (-1)%Z
  end.

(** [a < b] on strings: lexicographic on code points *)
Fixpoint str_ltb (a b : str) : bool :=
  match a, b with
  | _, [] => false
  | [], _ :: _ => true
  | x :: a', y :: b' =>
      (code x <? code y)%N || ((code x =? code y)%N && str_ltb a' b')
  end.

(** [sorted(l, key=...)], given [ltb] deciding [key(x) < key(y)]: the
    stable sort, written as insertion from the right. *)
Fixpoint insert_sorted {A} (ltb : A → A → bool) (x : A) (l : list A) : list A :=
  match l with
  | [] => [x]
  | y :: l' => if ltb y x then y :: insert_sorted ltb x l' else x :: l
  end.

Definition sorted {A} (ltb : A → A → bool) (l : list A) : list A :=
  foldr (insert_sorted ltb) [] l.

(** Exceptions, and the outcome of a call that may raise.  [Unmodelled]
    marks the calls on which Python goes on with a value outside the
    declared field types ([str()] of a non-string, [list()] of a list
    holding non-strings, ...): the model says nothing there. *)
Inductive exn :=
| AttributeError | TypeError | IndexError
| ValueError | RecursionError | UnicodeDecodeError.

Inductive outcome (A : Type) :=
| Ret (a : A)
| Raise (e : exn)
| Unmodelled.
Arguments Ret {A} a.
Arguments Raise {A} e.
Arguments Unmodelled {A}.

Definition bind {A B} (m : outcome A) (k : A → outcome B) : outcome B :=
  match m with
  | Ret a => k a
  | Raise e => Raise e
  | Unmodelled => Unmodelled
  end.

(** [l[i]] *)
Definition item {A} (l : list A) (i : nat) : outcome A :=
  match l !! i with Some x => Ret x | None => Raise IndexError end.

(** JSON values as [json.loads] builds them. *)
#[warnings="-register-all"]
Inductive json :=
| JNull
| JBool (b : bool)
| JInt (z : Z)
| JFloat (x : float)
| JStr (s : str)
| JList (l : list json)
| JDict (items : list (str * json)).

(** truth value of a JSON value ([not data]) *)
Definition truthy (v : json) : bool :=
  match v with
  | JNull => false
  | JBool b => b
  | JInt z => negb (z =? 0)%Z
  | JFloat x => negb (PrimFloat.eqb x 0)
  | JStr s => negb (bool_decide (s = []))
  | JList l => match l with [] => false | _ => true end
  | JDict items => match items with [] => false | _ => true end
  end.

Fixpoint assoc (key : str) (items : list (str * json)) : option json :=
  match items with
  | [] => None
  | (k, v) :: items' => if bool_decide (k = key) then Some v else assoc key items'
  end.

(** [data.get(key, dflt)] *)
Definition get (data : json) (key : str) (dflt : json) : outcome json :=
  match data with
  | JDict items => Ret (default dflt (assoc key items))
  | _ => Raise AttributeError
  end.

(** [str(v)], [list(v)] and [dict(v)], landing in the declared field types *)
Definition py_str (v : json) : outcome str :=
  match v with
  | JStr s => Ret s
  | _ => Unmodelled
  end.

Fixpoint all_str (l : list json) : outcome (list str) :=
  match l with
  | [] => Ret []
  | JStr s :: l' => bind (all_str l') (λ r, Ret (s :: r))
  | _ :: _ => Unmodelled
  end.

Definition py_list (v : json) : outcome (list str) :=
  match v with
  | JList l => all_str l
  | JStr s => Ret ((λ c, [c]) <$> s)
  | JDict items => Ret (items.*1)
  | JNull | JBool _ | JInt _ | JFloat _ => Raise TypeError
  end.

Fixpoint all_str_items (items : list (str * json)) : outcome (list (str * str)) :=
  match items with
  | [] => Ret []
  | (k, JStr s) :: items' => bind (all_str_items items') (λ r, Ret ((k, s) :: r))
  | _ :: _ => Unmodelled
  end.

Definition py_dict (v : json) : outcome (gmap str str) :=
  match v with
  | JDict items => bind (all_str_items items) (λ kvs, Ret (list_to_map kvs))
  | JList [] | JStr [] => Ret ∅
  | JList (_ :: _) | JStr (_ :: _) => Unmodelled
  | JNull | JBool _ | JInt _ | JFloat _ => Raise TypeError
  end.

(** [float(n)] for an [int] in the range of this program (counts, indices) *)
Definition float_of_int (n : Z) : float := PrimFloat.of_uint63 (Uint63.of_Z n).

End Py.

#[global] Instance outcome_ret : MRet Py.outcome := @Py.Ret.
#[global] Instance outcome_bind : MBind Py.outcome := λ A B k m, Py.bind m k.
#[global] Instance outcome_fmap : FMap Py.outcome :=
  λ A B f m, Py.bind m (λ a, Py.Ret (f a)).

(** ** schema.py *)

Module schema.
Import Py.

Module SemanticMemory.
Record t := mk { concepts : list str; notes : str }.

(** [SemanticMemory()] *)
Definition default : t := mk [] [].

Definition to_dict (self : t) : json :=
  JDict [ (lit "concepts", JList (JStr <$> concepts self));
          (lit "notes", JStr (notes self)) ].

Definition from_dict (data : json) : outcome t :=
  if negb (truthy data) then Ret default
  else
    concepts ← get data (lit "concepts") (JList []) ≫= py_list;
    notes ← get data (lit "notes") (JStr []) ≫= py_str;
    Ret (mk concepts notes).
End SemanticMemory.

Module ProceduralMemory.
Record t := mk { workflows : list str; checklists : list str }.

Definition default : t := mk [] [].

Definition to_dict (self : t) : json :=
  JDict [ (lit "workflows", JList (JStr <$> workflows self));
          (lit "checklists", JList (JStr <$> checklists self)) ].

Definition from_dict (data : json) : outcome t :=
  if negb (truthy data) then Ret default
  else
    workflows ← get data (lit "workflows") (JList []) ≫= py_list;
    checklists ← get data (lit "checklists") (JList []) ≫= py_list;
    Ret (mk workflows checklists).
End ProceduralMemory.

Module ProjectState.
Record t := mk {
  project_name : str;
  summary : str;
  active_workstream : str;
  pending_tasks : list str;
  constraints : list str
}.

Definition default : t := mk [] [] [] [] [].

Definition to_dict (self : t) : json :=
  JDict [ (lit "project_name", JStr (project_name self));
          (lit "summary", JStr (summary self));
          (lit "active_workstream", JStr (active_workstream self));
          (lit "pending_tasks", JList (JStr <$> pending_tasks self));
          (lit "constraints", JList (JStr <$> constraints self)) ].

Definition from_dict (data : json) : outcome t :=
  if negb (truthy data) then Ret default
  else
    project_name ← get data (lit "project_name") (JStr []) ≫= py_str;
    summary ← get data (lit "summary") (JStr []) ≫= py_str;
    active_workstream ← get data (lit "active_workstream") (JStr []) ≫= py_str;
    pending_tasks ← get data (lit "pending_tasks") (JList []) ≫= py_list;
    constraints ← get data (lit "constraints") (JList []) ≫= py_list;
    Ret (mk project_name summary active_workstream pending_tasks constraints).
End ProjectState.

Module Preferences.
Record t := mk {
  style : str;
  tone : str;
  constraints : list str;
  other : gmap str str
}.

Definition default : t := mk [] [] [] ∅.

Definition to_dict (self : t) : json :=
  JDict [ (lit "style", JStr (style self));
          (lit "tone", JStr (tone self));
          (lit "constraints", JList (JStr <$> constraints self));
          (lit "other", JDict (prod_map id JStr <$> map_to_list (other self))) ].

Definition from_dict (data : json) : outcome t :=
  if negb (truthy data) then Ret default
  else
    style ← get data (lit "style") (JStr []) ≫= py_str;
    tone ← get data (lit "tone") (JStr []) ≫= py_str;
    constraints ← get data (lit "constraints") (JList []) ≫= py_list;
    other ← get data (lit "other") (JDict []) ≫= py_dict;
    Ret (mk style tone constraints other).
End Preferences.

Module RecapFrame.
Record t := mk {
  timestamp : str;
  key_topics : list str;
  distilled_user_intent : str;
  distilled_system_output : str;
  tags : list str;
  semantic : SemanticMemory.t;
  procedural : ProceduralMemory.t;
  project_state : ProjectState.t;
  preferences : Preferences.t;
  raw_user_message : str;
  raw_assistant_message : str
}.

Definition to_dict (self : t) : json :=
  JDict [ (lit "timestamp", JStr (timestamp self));
          (lit "key_topics", JList (JStr <$> key_topics self));
          (lit "distilled_user_intent", JStr (distilled_user_intent self));
          (lit "distilled_system_output", JStr (distilled_system_output self));
          (lit "tags", JList (JStr <$> tags self));
          (lit "semantic", SemanticMemory.to_dict (semantic self));
          (lit "procedural", ProceduralMemory.to_dict (procedural self));
          (lit "project_state", ProjectState.to_dict (project_state self));
          (lit "preferences", Preferences.to_dict (preferences self));
          (lit "raw_user_message", JStr (raw_user_message self));
          (lit "raw_assistant_message", JStr (raw_assistant_message self)) ].

Definition from_dict (data : json) : outcome t :=
  timestamp ← get data (lit "timestamp") (JStr []) ≫= py_str;
  key_topics ← get data (lit "key_topics") (JList []) ≫= py_list;
  distilled_user_intent ← get data (lit "distilled_user_intent") (JStr []) ≫= py_str;
  distilled_system_output ← get data (lit "distilled_system_output") (JStr []) ≫= py_str;
  tags ← get data (lit "tags") (JList []) ≫= py_list;
  semantic ← get data (lit "semantic") JNull ≫= SemanticMemory.from_dict;
  procedural ← get data (lit "procedural") JNull ≫= ProceduralMemory.from_dict;
  project_state ← get data (lit "project_state") JNull ≫= ProjectState.from_dict;
  preferences ← get data (lit "preferences") JNull ≫= Preferences.from_dict;
  raw_user_message ← get data (lit "raw_user_message") (JStr []) ≫= py_str;
  raw_assistant_message ← get data (lit "raw_assistant_message") (JStr []) ≫= py_str;
  Ret (mk timestamp key_topics distilled_user_intent distilled_system_output tags
          semantic procedural project_state preferences
          raw_user_message raw_assistant_message).
End RecapFrame.

Module ContextBundle.
Record t := mk {
  project_summary : str;
  active_workstream : str;
  user_prefs : Preferences.t;
  known_constraints : list str;
  recommended_next_steps : list str;
  supporting_frames : list RecapFrame.t
}.
End ContextBundle.

End schema.

(** ** compression.py *)

Module compression.
Import Py schema.

Definition _STOPWORDS : gset str :=
  list_to_set (lit <$>
    [ "the"; "and"; "a"; "an"; "of"; "to"; "in"; "for"; "on"; "at";
      "is"; "are"; "was"; "were"; "be"; "been"; "with"; "as"; "by";
      "or"; "if"; "then"; "so"; "we"; "i"; "you"; "it"; "that"; "this";
      "but"; "from"; "our"; "their"; "they"; "them"; "my"; "your" ]%string).

(** a character of the class [[a-z0-9_]] *)
Definition is_token_char (c : ascii) : bool :=
  let n := code c in
  between 97 122 n || between 48 57 n || (n =? 95)%N.

Fixpoint re_split_nontoken_go (cur : str) (in_sep : bool) (s : str) : list str :=
  match s with
  | [] => [cur]
  | c :: s' =>
      if is_token_char c then re_split_nontoken_go (cur ++ [c]) false s'
      else if in_sep then re_split_nontoken_go cur true s'
           else cur :: re_split_nontoken_go [] true s'
  end.

(** [re.split(r"[^a-z0-9_]+", s)] *)
Definition re_split_nontoken (s : str) : list str :=
  re_split_nontoken_go [] false s.

Definition _tokenize (text : str) : list str :=
  let text := lower text in
  let tokens := re_split_nontoken text in
  filter (λ t, t ≠ []) tokens.

(** [counter[tok] += 1] on a [Counter], whose items keep insertion order *)
Fixpoint counter_incr (tok : str) (counter : list (str * Z)) : list (str * Z) :=
  match counter with
  | [] => [(tok, 1%Z)]
  | (k, n) :: counter' =>
      if bool_decide (k = tok) then (k, (n + 1)%Z) :: counter'
      else (k, n) :: counter_incr tok counter'
  end.

Definition count_text (counter : list (str * Z)) (text : str) : list (str * Z) :=
  foldl (λ counter tok,
           if bool_decide (tok ∈ _STOPWORDS) then counter
           else counter_incr tok counter)
        counter (_tokenize text).

(** [key(a) < key(b)] for [key = lambda kv: (-kv[1], kv[0])] *)
Definition item_ltb (a b : str * Z) : bool :=
  (- a.2 <? - b.2)%Z || ((- a.2 =? - b.2)%Z && str_ltb a.1 b.1).

Definition extract_keywords (texts : list str) (max_keywords : Z) : list str :=
  let counter := foldl count_text [] texts in
  if bool_decide (counter = []) then []
  else
    let items := sorted item_ltb counter in
    (slice_to items max_keywords).*1.

(** a part that is one of the delimiters [.], [!], [?] *)
Definition is_delim (c : ascii) : bool :=
  bool_decide (c = "."%char) || bool_decide (c = "!"%char) || bool_decide (c = "?"%char).

Fixpoint re_split_delims_go (cur : str) (s : str) : list str :=
  match s with
  | [] => [cur]
  | c :: s' =>
      if is_delim c then cur :: [c] :: re_split_delims_go [] s'
      else re_split_delims_go (cur ++ [c]) s'
  end.

(** [re.split(r"([.!?])", s)] *)
Definition re_split_delims (s : str) : list str := re_split_delims_go [] s.

(** one round of the loop over [parts]; the state is [(sentences, current)] *)
Definition sentence_step (st : list str * str) (part : str) : list str * str :=
  let '(sentences, current) := st in
  if bool_decide (part = []) then st
  else
    let current := current ++ part in
    if str_in part (lit ".!?") then
      let sentence := strip current in
      (if bool_decide (sentence = []) then sentences else sentences ++ [sentence], [])
    else (sentences, current).

Definition split_sentences (cleaned : str) : list str :=
  let '(sentences, current) :=
    foldl sentence_step ([], []) (re_split_delims cleaned) in
  if bool_decide (current = []) then sentences
  else sentences ++ [strip current].

(** one round of the de-duplication loop; the state is [(seen, unique_sentences)] *)
Definition unique_step (st : gset str * list str) (s : str) : gset str * list str :=
  let '(seen, unique_sentences) := st in
  if bool_decide (s ∈ seen) then st
  else ({[ s ]} ∪ seen, unique_sentences ++ [s]).

Definition compress_text (text : str) (max_chars : Z) : str :=
  let cleaned := join (lit " ") (split (strip text)) in
  if bool_decide (cleaned = []) then []
  else
    let sentences := split_sentences cleaned in
    let unique_sentences := (foldl unique_step (∅, []) sentences).2 in
    let result := join (lit " ") unique_sentences in
    if (Z.of_nat (length result) <=? max_chars)%Z then result
    else
      let cut := rfind result " "%char max_chars in
      if (cut =? -1)%Z then slice_to result max_chars
      else rstrip (slice_to result cut).

(** the loop over [frame.tags]; the state is [(seen, deduped_tags)] *)
Definition tag_step (st : gset str * list str) (tag : str) : gset str * list str :=
  let '(seen, deduped_tags) := st in
  let t := lower (strip tag) in
  if bool_decide (t = []) || bool_decide (t ∈ seen) then st
  else ({[ t ]} ∪ seen, deduped_tags ++ [t]).

(** the local function [dedup_list] of [compress_frame] *)
Definition dedup_step (st : gset str * list str) (v : str) : gset str * list str :=
  let '(seen_local, result) := st in
  let vv := strip v in
  if bool_decide (vv = []) || bool_decide (vv ∈ seen_local) then st
  else ({[ vv ]} ∪ seen_local, result ++ [vv]).

Definition dedup_list (values : list str) : list str :=
  (foldl dedup_step (∅, []) values).2.

Definition compress_frame (frame : RecapFrame.t) (max_text_chars : Z) : RecapFrame.t :=
  let distilled_user_intent :=
    compress_text (RecapFrame.distilled_user_intent frame) max_text_chars in
  let distilled_system_output :=
    compress_text (RecapFrame.distilled_system_output frame) max_text_chars in
  let raw_user_message :=
    compress_text (RecapFrame.raw_user_message frame) max_text_chars in
  let raw_assistant_message :=
    compress_text (RecapFrame.raw_assistant_message frame) max_text_chars in
  let semantic := RecapFrame.semantic frame in
  let procedural := RecapFrame.procedural frame in
  let project_state := RecapFrame.project_state frame in
  let preferences := RecapFrame.preferences frame in
  let all_text :=
    [ distilled_user_intent; distilled_system_output;
      SemanticMemory.notes semantic; ProjectState.summary project_state;
      raw_user_message; raw_assistant_message ] in
  let key_topics := extract_keywords all_text 12 in
  let deduped_tags := (foldl tag_step (∅, []) (RecapFrame.tags frame)).2 in
  let tags := sorted str_ltb deduped_tags in
  RecapFrame.mk
    (RecapFrame.timestamp frame)
    key_topics
    distilled_user_intent
    distilled_system_output
    tags
    (SemanticMemory.mk
       (dedup_list (SemanticMemory.concepts semantic))
       (SemanticMemory.notes semantic))
    (ProceduralMemory.mk
       (dedup_list (ProceduralMemory.workflows procedural))
       (dedup_list (ProceduralMemory.checklists procedural)))
    (ProjectState.mk
       (ProjectState.project_name project_state)
       (ProjectState.summary project_state)
       (ProjectState.active_workstream project_state)
       (dedup_list (ProjectState.pending_tasks project_state))
       (dedup_list (ProjectState.constraints project_state)))
    (Preferences.mk
       (Preferences.style preferences)
       (Preferences.tone preferences)
       (dedup_list (Preferences.constraints preferences))
       (Preferences.other preferences))
    raw_user_message
    raw_assistant_message.

End compression.

(** ** storage.py

    The log file is read as text, line by line.  [json.dumps] and
    [json.loads] are the standard library's: a file is modelled by what
    reading it gives, line after line.  A line gives, once stripped,
    nothing, a JSON value, a [JSONDecodeError], or another exception, which
    ends the read: [RecursionError] or [ValueError] from [json.loads]
    (brackets nested too deep, an integer of too many digits), or
    [UnicodeDecodeError] from the file (bytes that are not UTF-8; the file
    is decoded block by block, and the exception stands in the list where
    the iteration raises it, which can be before the line that holds the
    bytes).

    For reading, a last line without its newline is a line like any other.
    The writes are modelled on files that do not exist, are empty or end in
    a newline, as every write of this module leaves them: what
    [write_frame] appends is then one more line.  On a file whose last line
    lacks its newline the text appended would continue that line; such a
    file is outside what [write_frame] below describes. *)

Module storage.
Import Py schema.

Inductive line :=
| Blank                (* nothing but white space *)
| Corrupt              (* [json.loads] raises [JSONDecodeError] *)
| Parsed (v : json)    (* [json.loads] returns [v] *)
| Aborts (e : exn).    (* reading the line raises [e], no [JSONDecodeError] *)

(** the content of [MEMORY_FILE]; [None] when the file does not exist *)
Definition file := option (list line).

Definition MAX_FRAMES : Z := 300.

(** the value denoted by [json.dumps(v, sort_keys=True)] *)
Fixpoint sort_keys (v : json) : json :=
  match v with
  | JList l => JList (sort_keys <$> l)
  | JDict items =>
      JDict (sorted (λ a b, str_ltb a.1 b.1)
                    ((λ kv, (kv.1, sort_keys kv.2)) <$> items))
  | _ => v
  end.

Definition json_dumps (v : json) : line := Parsed (sort_keys v).

(** the loop of [load_all] over the lines of the file *)
Fixpoint load_lines (frames : list RecapFrame.t) (lines : list line)
  : outcome (list RecapFrame.t) :=
  match lines with
  | [] => Ret frames
  | Blank :: lines' => load_lines frames lines'
  | Corrupt :: lines' => load_lines frames lines'
  | Parsed data :: lines' =>
      frame ← RecapFrame.from_dict data;
      load_lines (frames ++ [frame]) lines'
  | Aborts e :: _ => Raise e
  end.

Definition load_all (st : file) : outcome (list RecapFrame.t) :=
  match st with
  | None => Ret []
  | Some lines => load_lines [] lines
  end.

Definition _prune_if_needed (st : file) : outcome () * file :=
  match load_all st with
  | Ret frames =>
      if (Z.of_nat (length frames) <=? MAX_FRAMES)%Z then (Ret (), st)
      else
        let frames := slice_from frames (- MAX_FRAMES) in
        (Ret (), Some ((λ frame, json_dumps (RecapFrame.to_dict frame)) <$> frames))
  | Raise e => (Raise e, st)
  | Unmodelled => (Unmodelled, st)
  end.

(** on a file that does not exist, is empty or ends in a newline *)
Definition write_frame (frame : RecapFrame.t) (st : file) : outcome () * file :=
  let line := json_dumps (RecapFrame.to_dict frame) in
  let st := Some (default [] st ++ [line]) in
  _prune_if_needed st.

End storage.

(** ** retrieval.py *)

Module retrieval.
Import Py schema storage compression.

Fixpoint word_search_go (prev_is_word : bool) (text tok : str) : bool :=
  (negb prev_is_word && startswith text tok
   && match drop (length tok) text with
      | [] => true
      | c :: _ => negb (is_word c)
      end)
  || match text with
     | [] => false
     | c :: text' => word_search_go (is_word c) text' tok
     end.

(** [re.search(r"\b" + re.escape(tok) + r"\b", text)] for a non-empty [tok]
    of word characters, as [_tokenize] returns them *)
Definition word_search (tok text : str) : bool := word_search_go false text tok.

Definition recency_weight (index total : Z) : float :=
  (1 + float_of_int index / float_of_int (Z.max (total - 1) 1))%float.

Definition _score_frame (query_tokens : list str) (frame : RecapFrame.t)
    (index total : Z) : float :=
  if bool_decide (query_tokens = []) then recency_weight index total
  else
    let text :=
      lower (join (lit " ")
        [ join (lit " ") (RecapFrame.key_topics frame);
          RecapFrame.distilled_user_intent frame;
          RecapFrame.distilled_system_output frame;
          ProjectState.summary (RecapFrame.project_state frame);
          RecapFrame.raw_user_message frame ]) in
    let match_count :=
      foldl (λ match_count tok,
               if bool_decide (tok = []) then match_count
               else if word_search tok text then (match_count + 1)%Z
                    else match_count)
            0%Z query_tokens in
    if (match_count =? 0)%Z then 0%float
    else (float_of_int match_count * recency_weight index total)%float.

(** [enumerate(l)] *)
Definition enumerate {A} (l : list A) : list (Z * A) :=
  zip (Z.of_nat <$> seq 0 (length l)) l.

(** [key(a) < key(b)] for [key = lambda sf: (-sf[0], sf[1].timestamp)] *)
Definition scored_ltb (a b : float * RecapFrame.t) : bool :=
  (- a.1 <? - b.1)%float
  || ((- a.1 =? - b.1)%float
      && str_ltb (RecapFrame.timestamp a.2) (RecapFrame.timestamp b.2)).

Definition retrieve_relevant_frames (query : str) (max_results : Z) (st : file)
  : outcome (list RecapFrame.t) :=
  frames ← load_all st;
  if bool_decide (frames = []) then Ret []
  else
    let query_tokens := if bool_decide (query = []) then [] else _tokenize query in
    let total := Z.of_nat (length frames) in
    let scored :=
      foldl (λ scored '(idx, frame),
               let score := _score_frame query_tokens frame idx total in
               if (score <=? 0)%float && negb (bool_decide (query_tokens = []))
               then scored
               else scored ++ [(score, frame)])
            [] (enumerate frames) in
    let scored := sorted scored_ltb scored in
    Ret ((filter (λ sf, (0 <? sf.1)%float = true ∨ query_tokens = [])
                 (slice_to scored max_results)).*2).

(** the local function [dedup] of [reconstruct_state] *)
Definition dedup (values : list str) : list str :=
  (foldl (λ '(seen, result) v,
            let vv := strip v in
            if bool_decide (vv = []) || bool_decide (vv ∈ seen) then (seen, result)
            else ({[ vv ]} ∪ seen, result ++ [vv]))
         ((∅ : gset str), []) values).2.

(** the variables the aggregation loop assigns *)
Record agg := mk_agg {
  project_summary : str;
  active_workstream : str;
  pending_tasks : list str;
  constraints : list str;
  style : str;
  tone : str;
  pref_constraints : list str;
  other_prefs : gmap str str
}.

Definition agg_step (a : agg) (frame : RecapFrame.t) : agg :=
  let ps := RecapFrame.project_state frame in
  let prefs := RecapFrame.preferences frame in
  mk_agg
    (if bool_decide (ProjectState.summary ps = []) then project_summary a
     else ProjectState.summary ps)
    (if bool_decide (ProjectState.active_workstream ps = []) then active_workstream a
     else ProjectState.active_workstream ps)
    (pending_tasks a ++ ProjectState.pending_tasks ps)
    (constraints a ++ ProjectState.constraints ps)
    (if bool_decide (Preferences.style prefs = []) then style a
     else Preferences.style prefs)
    (if bool_decide (Preferences.tone prefs = []) then tone a
     else Preferences.tone prefs)
    (pref_constraints a ++ Preferences.constraints prefs)
    (foldl (λ other_prefs '(k, v), <[ k := v ]> other_prefs)
           (other_prefs a) (map_to_list (Preferences.other prefs))).

Definition reconstruct_state (query : str) (max_frames : Z) (st : file)
  : outcome ContextBundle.t :=
  frames ← retrieve_relevant_frames query max_frames st;
  frames ← (if bool_decide (frames = []) then
              all_frames ← load_all st;
              Ret (slice_from all_frames (- max_frames))
            else Ret frames);
  match last frames with
  | None =>
      Ret (ContextBundle.mk [] [] Preferences.default [] [] [])
  | Some primary =>
      let a := foldl agg_step (mk_agg [] [] [] [] [] [] [] ∅) frames in
      let project_summary :=
        if bool_decide (project_summary a = []) then
          if bool_decide (RecapFrame.distilled_user_intent primary = [])
          then join (lit " | ") (RecapFrame.key_topics primary)
          else RecapFrame.distilled_user_intent primary
        else project_summary a in
      let active_workstream :=
        if bool_decide (active_workstream a = []) then
          ProjectState.active_workstream (RecapFrame.project_state primary)
        else active_workstream a in
      let pending_tasks := dedup (pending_tasks a) in
      let constraints := dedup (constraints a) in
      let pref_constraints := dedup (pref_constraints a) in
      let recommended_next_steps :=
        if bool_decide (pending_tasks = []) then
          let base :=
            if bool_decide (active_workstream = []) then project_summary
            else active_workstream in
          if bool_decide (base = []) then [] else [lit "Continue: " ++ base]
        else slice_to pending_tasks 5 in
      let user_prefs :=
        Preferences.mk (style a) (tone a) pref_constraints (other_prefs a) in
      Ret (ContextBundle.mk project_summary active_workstream user_prefs
             constraints recommended_next_steps frames)
  end.

End retrieval.

(** ** api.py *)

Module api.
Import Py schema storage compression retrieval.

(** [any(k in text for k in keys)] *)
Definition any_in (keys : list string) (text : str) : bool :=
  existsb (λ k, str_in (lit k) text) keys.

Definition _classify_tags (user_msg assistant_msg : str) : list str :=
  let text := lower (user_msg ++ lit " " ++ assistant_msg) in
  let tags := [] in
  let tags :=
    if any_in ["code"; "api"; "schema"; "algorithm"; "implementation"; "stack"; "bug"]%string text
    then tags ++ [lit "tech"] else tags in
  let tags :=
    if any_in ["plan"; "roadmap"; "milestone"; "schedule"; "timeline"; "next steps"]%string text
    then tags ++ [lit "plan"] else tags in
  let tags :=
    if any_in ["think"; "reflect"; "meta"; "why"; "philosophy"; "epistemology"]%string text
    then tags ++ [lit "meta"] else tags in
  if bool_decide (tags = []) then tags ++ [lit "general"] else tags.

Definition _distill_intent (user_msg : str) : str := compress_text user_msg 400.

Definition _distill_output (assistant_msg : str) : str := compress_text assistant_msg 400.

Definition _extract_semantic (user_msg assistant_msg : str) : SemanticMemory.t :=
  let notes := compress_text assistant_msg 400 in
  let topics := extract_keywords [user_msg; assistant_msg] 8 in
  SemanticMemory.mk topics notes.

(** The characters stripped from both ends of a line; the bullet of the
    source, U+2022, is no character of the modelled range. *)
Definition bullet_chars : str := lit "-* " ++ ["009"%char].

Definition _extract_procedural (user_msg assistant_msg : str) : ProceduralMemory.t :=
  let combined := user_msg ++ ["010"%char] ++ assistant_msg in
  let lines := (λ ln, strip_chars ln bullet_chars) <$> splitlines combined in
  let workflows :=
    filter (λ ln, existsb (λ prefix, startswith (lower ln) (lit prefix))
                    ["step "; "1."; "2."; "3."; "first"; "second"; "third"]%string = true)
           lines in
  ProceduralMemory.mk workflows [].

(** one test of the loop over the lines: [Some after] when the marker is
    in the lowered line and the text after it is not blank *)
Definition marker_test (marker : str) (line : str) : outcome (option str) :=
  if str_in marker (lower line) then
    part ← item (split1 line marker) 1;
    let after := strip part in
    Ret (if bool_decide (after = []) then None else Some after)
  else Ret None.

(** the loop over [text.splitlines()], returning [project_name] *)
Fixpoint scan_project_name (lines : list str) : outcome str :=
  match lines with
  | [] => Ret []
  | line :: lines' =>
      r ← marker_test (lit "project:") line;
      match r with
      | Some after => Ret after
      | None =>
          r ← marker_test (lit "project name:") line;
          match r with
          | Some after => Ret after
          | None => scan_project_name lines'
          end
      end
  end.

Definition _extract_project_state (user_msg assistant_msg : str)
  : outcome ProjectState.t :=
  let text := user_msg ++ ["010"%char] ++ assistant_msg in
  project_name ← scan_project_name (splitlines text);
  let summary := _distill_intent user_msg in
  let active_workstream :=
    if str_in (lit "currently") (lower user_msg)
       || str_in (lit "right now") (lower user_msg)
    then summary else [] in
  Ret (ProjectState.mk project_name summary active_workstream [] []).

Definition _extract_preferences (user_msg assistant_msg : str) : Preferences.t :=
  let text := lower (user_msg ++ lit " " ++ assistant_msg) in
  let style := [] in
  let tone := [] in
  let constraints := [] in
  let other := ∅ in
  let style :=
    if str_in (lit "concise") text || str_in (lit "short answer") text
    then lit "concise" else style in
  let style :=
    if str_in (lit "detailed") text || str_in (lit "step-by-step") text
    then lit "detailed" else style in
  let tone := if str_in (lit "casual") text then lit "casual" else tone in
  let tone := if str_in (lit "formal") text then lit "formal" else tone in
  let constraints :=
    if str_in (lit "no code") text
    then constraints ++ [lit "avoid code unless requested"] else constraints in
  let constraints :=
    if str_in (lit "no examples") text
    then constraints ++ [lit "avoid examples unless requested"] else constraints in
  Preferences.mk style tone constraints other.

(** [now] is [datetime.utcnow().isoformat(timespec="seconds")]. *)
Definition save_context (raw_user_msg raw_assistant_msg : str) (now : str) (st : file)
  : outcome RecapFrame.t * file :=
  let timestamp := now ++ lit "Z" in
  let distilled_intent := _distill_intent raw_user_msg in
  let distilled_output := _distill_output raw_assistant_msg in
  let tags := _classify_tags raw_user_msg raw_assistant_msg in
  let semantic := _extract_semantic raw_user_msg raw_assistant_msg in
  let procedural := _extract_procedural raw_user_msg raw_assistant_msg in
  match _extract_project_state raw_user_msg raw_assistant_msg with
  | Ret project_state =>
      let preferences := _extract_preferences raw_user_msg raw_assistant_msg in
      let key_topics :=
        extract_keywords
          [ raw_user_msg; raw_assistant_msg; SemanticMemory.notes semantic;
            ProjectState.summary project_state ] 12 in
      let frame :=
        RecapFrame.mk timestamp key_topics distilled_intent distilled_output tags
          semantic procedural project_state preferences
          raw_user_msg raw_assistant_msg in
      let compressed := compress_frame frame 600 in
      match write_frame compressed st with
      | (Ret _, st') => (Ret compressed, st')
      | (Raise e, st') => (Raise e, st')
      | (Unmodelled, st') => (Unmodelled, st')
      end
  | Raise e => (Raise e, st)
  | Unmodelled => (Unmodelled, st)
  end.

Definition load_context (query : str) (st : file) : outcome ContextBundle.t :=
  reconstruct_state query 12 st.


End api.

(** ** app.py

    The part of the command line that writes to the store: [_read_block]
    and [_cmd_save].  The console is threaded explicitly, like the store. *)

Module app.
Import Py schema storage api.

(** The console: the lines standard input still holds, each without its
    newline, and the strings printed so far, one for each call of [print]. *)
Record console := mk_console { stdin : list str; stdout : list str }.

(** [print(s)] *)
Definition print (s : str) (c : console) : console :=
  mk_console (stdin c) (stdout c ++ [s]).

(** the loop of [_read_block]; the state is [lines].  [input()] raises
    [EOFError] when standard input holds no further line. *)
Fixpoint read_loop (lines : list str) (input : list str) : list str * list str :=
  match input with
  | [] => (lines, [])
  | line :: input' =>
      if bool_decide (strip line = lit ".") then (lines, input')
      else read_loop (lines ++ [line]) input'
  end.

Definition _read_block (label : str) (c : console) : str * console :=
  let c :=
    print (lit "Enter " ++ label ++ lit " (finish with a single '.' on its own line):") c in
  let '(lines, input) := read_loop [] (stdin c) in
  (strip (join ["010"%char] lines), mk_console input (stdout c)).

(** [now] is the clock reading [save_context] takes. *)
Definition _cmd_save (now : str) (c : console) (st : file)
  : outcome () * console * file :=
  let '(user_msg, c) := _read_block (lit "user message") c in
  if bool_decide (user_msg = []) then
    (Ret (), print (lit "No user message entered.") c, st)
  else
    let c := print [] c in
    let '(assistant_msg, c) := _read_block (lit "assistant message") c in
    if bool_decide (assistant_msg = []) then
      (Ret (), print (lit "No assistant message entered.") c, st)
    else
      match save_context user_msg assistant_msg now st with
      | (Ret frame, st) =>
          let c := print (["010"%char] ++ lit "Saved frame:") c in
          let c := print (lit " timestamp: " ++ RecapFrame.timestamp frame) c in
          let c := print (lit " tags: " ++ join (lit ", ") (RecapFrame.tags frame)) c in
          let c :=
            print (lit " key_topics: " ++ join (lit ", ") (RecapFrame.key_topics frame)) c in
          let c :=
            print (lit " distilled_user_intent: "
                   ++ RecapFrame.distilled_user_intent frame) c in
          let c :=
            print (lit " distilled_system_output: "
                   ++ RecapFrame.distilled_system_output frame) c in
          (Ret (), c, st)
      | (Raise e, st) => (Raise e, c, st)
      | (Unmodelled, st) => (Unmodelled, c, st)
      end.

End app.

(** * Vocabulary of the statements

    Everything above is the program.  What follows names the notions the
    theorems speak of: what a log line holds, where a marker occurs, how
    often a token occurs, what a well-formed sentence list is.  Two
    definitions, [truncate_at_or_before] and [project_name_by_priority],
    follow the wording of the specification where the program departs from
    it, to be compared with the program. *)

Import Py schema compression storage retrieval api.

(** ** The log *)

(** the JSON values of the lines that parse, in file order *)
Definition parsed_values (lines : list line) : list json :=
  omap (λ l, match l with Parsed v => Some v | _ => None end) lines.

(** the lines [write_frame] writes for [frames] *)
Definition records (frames : list RecapFrame.t) : list line :=
  (λ frame, json_dumps (RecapFrame.to_dict frame)) <$> frames.

(** [write_frame] called on each frame in turn, stopping at the first
    call that raises *)
Fixpoint write_all (frames : list RecapFrame.t) (st : file) : outcome () * file :=
  match frames with
  | [] => (Ret (), st)
  | frame :: frames' =>
      match write_frame frame st with
      | (Ret _, st') => write_all frames' st'
      | failed => failed
      end
  end.

(** a frame told apart from the others by its tag, [i] times the letter x *)
Definition numbered (i : nat) : RecapFrame.t :=
  RecapFrame.mk (lit "2026-01-01T00:00:00Z") [] [] [] [replicate i "x"%char]
    SemanticMemory.default ProceduralMemory.default ProjectState.default
    Preferences.default [] [].

(** two frames a day apart, differing in every single-valued field *)
Definition older : RecapFrame.t :=
  RecapFrame.mk (lit "2026-01-01T00:00:00Z") [lit "alpha"] (lit "alpha") (lit "ok")
    [lit "general"] SemanticMemory.default ProceduralMemory.default
    (ProjectState.mk [] (lit "older summary") (lit "older work") [] [])
    (Preferences.mk (lit "concise") (lit "casual") [] ∅)
    (lit "alpha") (lit "ok").

Definition newer : RecapFrame.t :=
  RecapFrame.mk (lit "2026-01-02T00:00:00Z") [lit "beta"] (lit "beta") (lit "ok")
    [lit "general"] SemanticMemory.default ProceduralMemory.default
    (ProjectState.mk [] (lit "newer summary") (lit "newer work") [] [])
    (Preferences.mk (lit "detailed") (lit "formal") [] ∅)
    (lit "beta") (lit "ok").

(** a log with a blank line and two lines that are not JSON among its
    records *)
Definition mixed_log : list line :=
  [Corrupt; json_dumps (RecapFrame.to_dict older); Blank; Corrupt;
   json_dumps (RecapFrame.to_dict newer)].

(** the two interactions of the Orion scenario *)
Definition first_user : str := lit "We are planning the release.".
Definition first_assistant : str := lit "Noted.".
Definition second_user : str :=
  lit "project: Orion" ++ ["010"%char] ++ lit "currently migrating the database".
Definition second_assistant : str := lit "Understood.".

(** ** Records as JSON

    The JSON values [load_all] is meant for: objects with the entries
    [to_dict] writes.  An entry may be missing and other keys may be
    present; an entry that is present has the JSON type [to_dict] gives
    it. *)

Definition is_str (v : json) : Prop := ∃ s : str, v = JStr s.

Definition is_strs (v : json) : Prop := ∃ l : list str, v = JList (JStr <$> l).

Definition is_str_map (v : json) : Prop :=
  ∃ kvs : list (str * str), v = JDict (prod_map id JStr <$> kvs).

(** under [key], nothing or a value that is [P] *)
Definition entry (P : json → Prop) (key : string) (items : list (str * json)) : Prop :=
  ∀ v, assoc (lit key) items = Some v → P v.

(** a nested record: a false value ([null], [{}], ...), which the
    [from_dict] of the nested classes read as the default, or an object
    whose entries are as [fields] says *)
Definition nested (fields : list (str * json) → Prop) (v : json) : Prop :=
  truthy v = false ∨ ∃ items, v = JDict items ∧ fields items.

Definition semantic_fields (items : list (str * json)) : Prop :=
  entry is_strs "concepts" items ∧ entry is_str "notes" items.

Definition procedural_fields (items : list (str * json)) : Prop :=
  entry is_strs "workflows" items ∧ entry is_strs "checklists" items.

Definition project_state_fields (items : list (str * json)) : Prop :=
  entry is_str "project_name" items
  ∧ entry is_str "summary" items
  ∧ entry is_str "active_workstream" items
  ∧ entry is_strs "pending_tasks" items
  ∧ entry is_strs "constraints" items.

Definition preferences_fields (items : list (str * json)) : Prop :=
  entry is_str "style" items
  ∧ entry is_str "tone" items
  ∧ entry is_strs "constraints" items
  ∧ entry is_str_map "other" items.

Definition frame_fields (items : list (str * json)) : Prop :=
  entry is_str "timestamp" items
  ∧ entry is_strs "key_topics" items
  ∧ entry is_str "distilled_user_intent" items
  ∧ entry is_str "distilled_system_output" items
  ∧ entry is_strs "tags" items
  ∧ entry (nested semantic_fields) "semantic" items
  ∧ entry (nested procedural_fields) "procedural" items
  ∧ entry (nested project_state_fields) "project_state" items
  ∧ entry (nested preferences_fields) "preferences" items
  ∧ entry is_str "raw_user_message" items
  ∧ entry is_str "raw_assistant_message" items.


(** ** Markers in a line *)

(** [sub] occurs in [s] at index [i]; and there for the first time *)
Definition occurs_at (sub s : str) (i : nat) : Prop :=
  ∃ a b, s = a ++ sub ++ b ∧ length a = i.

Definition first_at (sub s : str) (i : nat) : Prop :=
  occurs_at sub s i ∧ ∀ j, j < i → ¬ occurs_at sub s j.




(** ** Keywords *)

(** the tokens that are counted, in reading order; how often one occurs;
    and the order of the result: more frequent first, then alphabetical *)
Definition kept_tokens (texts : list str) : list str :=
  texts ≫= λ text, filter (λ tok, tok ∉ _STOPWORDS) (_tokenize text).

Definition freq (texts : list str) (tok : str) : Z :=
  Z.of_nat (length (filter (tok =.) (kept_tokens texts))).

Definition keyword_before (texts : list str) (a b : str) : Prop :=
  (freq texts b < freq texts a)%Z
  ∨ (freq texts a = freq texts b ∧ str_ltb a b = true).

(** [counter] holds, once each, the tokens of [toks] with their numbers of
    occurrences *)
Definition counts (toks : list str) (counter : list (str * Z)) : Prop :=
  NoDup counter.*1
  ∧ ∀ t n, (t, n) ∈ counter ↔ t ∈ toks ∧ n = Z.of_nat (length (filter (t =.) toks)).

(** a boolean test that is a strict total order, and the order [≤] it gives *)
Class StrictTotal {A} (ltb : A → A → bool) := {
  ltb_irrefl a : ltb a a = false;
  ltb_trans a b c : ltb a b = true → ltb b c = true → ltb a c = true;
  ltb_total a b : ltb a b = false → ltb b a = false → a = b
}.

Definition leb_of {A} (ltb : A → A → bool) (a b : A) : Prop := ltb b a = false.

(** ** Sentences *)

Definition sp : ascii := " "%char.

(** no white space in front, none at the end *)
Definition no_lead (s : str) : Prop :=
  match s with c :: _ => isspace c = false | [] => True end.

Definition no_trail (s : str) : Prop := no_lead (reverse s).

(** the only white space is the space, never two in a row *)
Fixpoint single_spaced (s : str) : Prop :=
  match s with
  | [] => True
  | c :: s' => (isspace c = true → c = sp ∧ no_lead s') ∧ single_spaced s'
  end.

Definition nospace (s : str) : Prop := Forall (λ c, isspace c = false) s.

(** a non-empty text in normal form *)
Definition block (s : str) : Prop :=
  s ≠ [] ∧ no_lead s ∧ no_trail s ∧ single_spaced s.

Definition delim_free (s : str) : Prop := Forall (λ c, is_delim c = false) s.

(** a sentence closed by its delimiter; a sentence; and a list of sentences
    of which only the last may lack its delimiter *)
Definition complete (s : str) : Prop :=
  ∃ body d, s = body ++ [d] ∧ delim_free body ∧ is_delim d = true.

Definition sentence (s : str) : Prop := block s ∧ (complete s ∨ delim_free s).

Fixpoint shaped (L : list str) : Prop :=
  match L with
  | [] => True
  | s :: L' => sentence s ∧ (L' ≠ [] → complete s) ∧ shaped L'
  end.

(** the sentence loop of [compress_text] read character by character:
    the sentences closed so far and the text left over *)
Fixpoint sent_chars (cur s : str) : list str * str :=
  match s with
  | [] => ([], cur)
  | c :: s' =>
      if is_delim c then
        let '(sentences, rest) := sent_chars [] s' in
        (strip (cur ++ [c]) :: sentences, rest)
      else sent_chars (cur ++ [c]) s'
  end.

Definition sentences_from (cur s : str) : list str :=
  let '(sentences, rest) := sent_chars cur s in
  if bool_decide (rest = []) then sentences else sentences ++ [strip rest].

(** the two intermediate values of [compress_text]: the text with its white
    space normalised, and the sentences left by the de-duplication loop *)
Definition cleaned (text : str) : str := join (lit " ") (split (strip text)).

Definition unique (sentences : list str) : list str :=
  (foldl unique_step (∅, []) sentences).2.

(** The truncation as the specification words it: cut at the last space at
    or before index [n], else keep the first [n] characters. *)
Definition truncate_at_or_before (result : str) (n : Z) : str :=
  match last_index sp (take (Z.to_nat n + 1) result) with
  | Some cut => rstrip (take cut result)
  | None => take (Z.to_nat n) result
  end.

(** ** Tokens *)

(** a token: a string, not empty, of characters of the class [[a-z0-9_]] *)
Definition token (t : str) : Prop :=
  t ≠ [] ∧ Forall (λ c, is_token_char c = true) t.

(** ** Queries and scores *)

(** the text a query is matched against, as [_score_frame] builds it *)
Definition haystack (frame : RecapFrame.t) : str :=
  lower (join (lit " ")
    [ join (lit " ") (RecapFrame.key_topics frame);
      RecapFrame.distilled_user_intent frame;
      RecapFrame.distilled_system_output frame;
      ProjectState.summary (RecapFrame.project_state frame);
      RecapFrame.raw_user_message frame ]).

(** [tok] stands in [text] as a whole word: no word character right before
    it, none right after it *)
Definition whole_word (tok text : str) : Prop :=
  ∃ a b, text = a ++ tok ++ b
    ∧ (∀ c, last a = Some c → is_word c = false)
    ∧ (∀ c, head b = Some c → is_word c = false).

(** the tokens of a query, as [retrieve_relevant_frames] takes them *)
Definition query_tokens_of (query : str) : list str :=
  if bool_decide (query = []) then [] else _tokenize query.

(** the scores of [frames], in order, the frames skipped left out *)
Definition scored_of (query_tokens : list str) (frames : list RecapFrame.t)
  : list (float * RecapFrame.t) :=
  filter (λ sf, ((sf.1 <=? 0)%float && negb (bool_decide (query_tokens = []))) = false)
         ((λ '(idx, frame),
            (_score_frame query_tokens frame idx (Z.of_nat (length frames)), frame))
          <$> enumerate frames).

(** the last value of a field that is not empty over the frames, in the
    order of the list; the empty string when there is none *)
Definition last_nonempty (field : RecapFrame.t → str) (frames : list RecapFrame.t) : str :=
  default [] (last (filter (λ s, s ≠ []) (field <$> frames))).

(** the frames [reconstruct_state] aggregates: those retrieved, or, when
    none is, the slice [all_frames[-max_frames:]] *)
Definition chosen_frames (stored retrieved : list RecapFrame.t) (max_frames : Z)
  : list RecapFrame.t :=
  if bool_decide (retrieved = []) then slice_from stored (- max_frames) else retrieved.




(** * Serialisation

    [to_dict] writes every field under a literal key; [from_dict] reads the
    same keys back. *)

Lemma all_str_fmap (l : list str) : all_str (JStr <$> l) = Ret l.
Proof. induction l as [|s l IH]; csimpl; [done|]. by rewrite IH. Qed.

Lemma all_str_items_fmap (kvs : list (str * str)) :
  all_str_items (prod_map id JStr <$> kvs) = Ret kvs.
Proof. induction kvs as [|[k v] kvs IH]; csimpl; [done|]. by rewrite IH. Qed.

Lemma py_list_strs (l : list str) : py_list (JList (JStr <$> l)) = Ret l.
Proof. apply all_str_fmap. Qed.

Lemma py_dict_items (m : gmap str str) :
  py_dict (JDict (prod_map id JStr <$> map_to_list m)) = Ret m.
Proof. simpl. rewrite all_str_items_fmap. simpl. by rewrite list_to_map_to_list. Qed.

Lemma get_JDict items k d : get (JDict items) k d = Ret (default d (assoc k items)).
Proof. done. Qed.

Lemma assoc_here k v items : assoc k ((k, v) :: items) = Some v.
Proof. simpl. by rewrite bool_decide_eq_true_2. Qed.

Lemma assoc_skip k k' v items : k' ≠ k → assoc k ((k', v) :: items) = assoc k items.
Proof. intros. simpl. by rewrite bool_decide_eq_false_2. Qed.

Lemma bind_Ret {A B} (a : A) (k : A → outcome B) : (Ret a ≫= k) = k a.
Proof. done. Qed.

Lemma py_str_JStr s : py_str (JStr s) = Ret s.
Proof. done. Qed.

Lemma default_Some {A} (d v : A) : default d (Some v) = v.
Proof. done. Qed.

Lemma falsy_JDict_cons {A} kv items (a b : A) :
  (if negb (truthy (JDict (kv :: items))) then a else b) = b.
Proof. done. Qed.

Lemma lit_neq (a b : string) : bool_decide (lit a = lit b) = false → lit a ≠ lit b.
Proof. by rewrite bool_decide_eq_false. Qed.

(** Look a literal key up in a dictionary written out with literal keys. *)
Ltac lookup :=
  repeat first
    [ rewrite get_JDict
    | rewrite assoc_here
    | rewrite assoc_skip by (apply lit_neq; vm_compute; reflexivity)
    | rewrite bind_Ret
    | rewrite py_str_JStr
    | rewrite py_list_strs
    | rewrite py_dict_items
    | rewrite default_Some
    | rewrite falsy_JDict_cons ].

Lemma SemanticMemory_roundtrip s :
  SemanticMemory.from_dict (SemanticMemory.to_dict s) = Ret s.
Proof. unfold SemanticMemory.from_dict, SemanticMemory.to_dict. lookup. by destruct s. Qed.

Lemma ProceduralMemory_roundtrip s :
  ProceduralMemory.from_dict (ProceduralMemory.to_dict s) = Ret s.
Proof. unfold ProceduralMemory.from_dict, ProceduralMemory.to_dict. lookup. by destruct s. Qed.

Lemma ProjectState_roundtrip s :
  ProjectState.from_dict (ProjectState.to_dict s) = Ret s.
Proof. unfold ProjectState.from_dict, ProjectState.to_dict. lookup. by destruct s. Qed.

Lemma Preferences_roundtrip s :
  Preferences.from_dict (Preferences.to_dict s) = Ret s.
Proof. unfold Preferences.from_dict, Preferences.to_dict. lookup. by destruct s. Qed.

(** C6.  Serialisation round-trips: for every frame [f] of the declared
    types, [RecapFrame.from_dict (f.to_dict())] returns a frame equal to [f]
    field by field. *)
Theorem from_dict_to_dict (f : RecapFrame.t) :
  RecapFrame.from_dict (RecapFrame.to_dict f) = Ret f.
Proof.
  unfold RecapFrame.from_dict, RecapFrame.to_dict.
  lookup.
  rewrite SemanticMemory_roundtrip, bind_Ret, ProceduralMemory_roundtrip, bind_Ret,
    ProjectState_roundtrip, bind_Ret, Preferences_roundtrip, !bind_Ret.
  by destruct f.
Qed.

(** * The log

    [json.dumps] sorts the keys; a dictionary read back is looked into by
    key, so a record survives the file. *)

Section sorted_facts.
Context {A : Type} (ltb : A → A → bool).

Lemma insert_sorted_Permutation x l : insert_sorted ltb x l ≡ₚ x :: l.
Proof.
  induction l as [|y l IH]; simpl; [done|].
  destruct (ltb y x); [|done]. rewrite IH. apply Permutation_swap.
Qed.

Lemma sorted_Permutation l : sorted ltb l ≡ₚ l.
Proof.
  induction l as [|x l IH]; simpl; [done|].
  by rewrite insert_sorted_Permutation, IH.
Qed.

End sorted_facts.

Lemma sorted_fmap {A B} (f : A → B) ltb ltb' l :
  (∀ a b, ltb' (f a) (f b) = ltb a b) →
  sorted ltb' (f <$> l) = f <$> sorted ltb l.
Proof.
  intros Hf. induction l as [|x l IH]; csimpl; [done|]. 
  change (foldr (insert_sorted ltb') [] (f <$> l)) with (sorted ltb' (f <$> l)).
  change (foldr (insert_sorted ltb) [] l) with (sorted ltb l).
  rewrite IH. generalize (sorted ltb l). clear IH. intros s.
  induction s as [|y s IH]; csimpl; [done|].
  rewrite Hf. destruct (ltb y x); csimpl; [by rewrite IH|done].
Qed.

Lemma assoc_lookup k items :
  assoc k items = (list_to_map items : gmap str json) !! k.
Proof.
  induction items as [|[k' v] items IH]; simpl; [done|].
  case_bool_decide; subst; [by rewrite lookup_insert_eq|].
  by rewrite lookup_insert_ne.
Qed.

Lemma assoc_Permutation k items items' :
  NoDup items.*1 → items ≡ₚ items' → assoc k items = assoc k items'.
Proof.
  intros Hnd Hp. rewrite !assoc_lookup.
  by rewrite (list_to_map_proper (M:=gmap str) items items' Hnd Hp).
Qed.

Lemma assoc_fmap k (g : json → json) items :
  assoc k ((λ kv, (kv.1, g kv.2)) <$> items) = g <$> assoc k items.
Proof.
  induction items as [|[k' v] items IH]; csimpl; [done|]. by case_bool_decide.
Qed.

Lemma get_sort_keys items k d :
  NoDup items.*1 →
  get (sort_keys (JDict items)) k d = Ret (default d (sort_keys <$> assoc k items)).
Proof.
  intros Hnd. simpl. f_equal. f_equal.
  rewrite <- assoc_fmap. symmetry. apply assoc_Permutation.
  - rewrite <- list_fmap_compose. by erewrite list_fmap_ext.
  - symmetry. apply sorted_Permutation.
Qed.

Lemma sort_keys_strs l : sort_keys (JList (JStr <$> l)) = JList (JStr <$> l).
Proof. simpl. f_equal. rewrite <- list_fmap_compose. by apply list_fmap_ext. Qed.

Lemma py_dict_sort_keys (m : gmap str str) :
  py_dict (sort_keys (JDict (prod_map id JStr <$> map_to_list m))) = Ret m.
Proof.
  simpl. rewrite <- list_fmap_compose.
  rewrite (list_fmap_ext _ (prod_map id JStr) (map_to_list m)) by (by intros ? []).
  rewrite (sorted_fmap (prod_map id JStr) (λ a b, str_ltb a.1 b.1)) by done.
  rewrite all_str_items_fmap. simpl. f_equal.
  rewrite <- (list_to_map_to_list m) at 2.
  apply list_to_map_proper; [|apply sorted_Permutation].
  rewrite sorted_Permutation. apply NoDup_fst_map_to_list.
Qed.

Lemma fmap_Some {A B} (g : A → B) (a : A) : g <$> Some a = Some (g a).
Proof. done. Qed.

Lemma sort_keys_JStr s : sort_keys (JStr s) = JStr s.
Proof. done. Qed.

Lemma NoDup_keys (keys : list str) : bool_decide (NoDup keys) = true → NoDup keys.
Proof. apply bool_decide_eq_true_1. Qed.

(** The same look-ups, in the dictionary as [json.dumps] sorts it. *)
Ltac lookup_sorted :=
  repeat first
    [ rewrite get_sort_keys by (apply NoDup_keys; vm_compute; reflexivity)
    | rewrite assoc_here
    | rewrite assoc_skip by (apply lit_neq; vm_compute; reflexivity)
    | rewrite fmap_Some
    | rewrite sort_keys_JStr
    | rewrite sort_keys_strs
    | rewrite bind_Ret
    | rewrite py_str_JStr
    | rewrite py_list_strs
    | rewrite py_dict_sort_keys
    | rewrite default_Some ].

Lemma falsy_sort_keys {A} kv items (a b : A) :
  (if negb (truthy (sort_keys (JDict (kv :: items)))) then a else b) = b.
Proof.
  simpl. 
  change (foldr _ [] _) with (sorted (λ a b : str * json, str_ltb a.1 b.1) ((λ kv, (kv.1, sort_keys kv.2)) <$> items)).
  pose proof (insert_sorted_Permutation (λ a b : str * json, str_ltb a.1 b.1) (kv.1, sort_keys kv.2)
    (sorted (λ a b : str * json, str_ltb a.1 b.1) ((λ kv, (kv.1, sort_keys kv.2)) <$> items))) as Hp.
  destruct (insert_sorted _ _ _); [|done].
  by apply Permutation_nil_cons in Hp.
Qed.

Lemma SemanticMemory_dumps s :
  SemanticMemory.from_dict (sort_keys (SemanticMemory.to_dict s)) = Ret s.
Proof.
  unfold SemanticMemory.from_dict, SemanticMemory.to_dict.
  rewrite falsy_sort_keys. lookup_sorted. by destruct s.
Qed.

Lemma ProceduralMemory_dumps s :
  ProceduralMemory.from_dict (sort_keys (ProceduralMemory.to_dict s)) = Ret s.
Proof.
  unfold ProceduralMemory.from_dict, ProceduralMemory.to_dict.
  rewrite falsy_sort_keys. lookup_sorted. by destruct s.
Qed.

Lemma ProjectState_dumps s :
  ProjectState.from_dict (sort_keys (ProjectState.to_dict s)) = Ret s.
Proof.
  unfold ProjectState.from_dict, ProjectState.to_dict.
  rewrite falsy_sort_keys. lookup_sorted. by destruct s.
Qed.

Lemma Preferences_dumps s :
  Preferences.from_dict (sort_keys (Preferences.to_dict s)) = Ret s.
Proof.
  unfold Preferences.from_dict, Preferences.to_dict.
  rewrite falsy_sort_keys. lookup_sorted. by destruct s.
Qed.

Lemma from_dict_dumps (f : RecapFrame.t) :
  RecapFrame.from_dict (sort_keys (RecapFrame.to_dict f)) = Ret f.
Proof.
  unfold RecapFrame.from_dict, RecapFrame.to_dict.
  lookup_sorted.
  rewrite SemanticMemory_dumps, bind_Ret, ProceduralMemory_dumps, bind_Ret,
    ProjectState_dumps, bind_Ret, Preferences_dumps, !bind_Ret.
  by destruct f.
Qed.

(** ** Reading and pruning *)

#[local] Arguments RecapFrame.from_dict : simpl never.
#[local] Arguments RecapFrame.to_dict : simpl never.
#[local] Arguments sort_keys : simpl never.
#[local] Arguments write_frame : simpl never.

Lemma load_lines_app acc lines lines' :
  load_lines acc (lines ++ lines') = load_lines acc lines ≫= λ fs, load_lines fs lines'.
Proof.
  revert acc. induction lines as [|[| |v|e] lines IH]; intros acc; simpl; try done.
  destruct (RecapFrame.from_dict v); simpl; [apply IH|done..].
Qed.

Lemma load_lines_records acc frames :
  load_lines acc (records frames) = Ret (acc ++ frames).
Proof.
  revert acc. induction frames as [|f frames IH]; intros acc; simpl.
  - by rewrite app_nil_r.
  - rewrite from_dict_dumps. simpl. fold (records frames).
    by rewrite IH, <- app_assoc.
Qed.



Lemma load_lines_Ret_inv acc lines frames :
  load_lines acc lines = Ret frames →
  ∃ frames', frames = acc ++ frames' ∧
    Forall2 (λ v f, RecapFrame.from_dict v = Ret f) (parsed_values lines) frames'.
Proof.
  revert acc frames. induction lines as [|[| |v|e] lines IH]; intros acc frames; simpl.
  - intros [= <-]. exists []. by rewrite app_nil_r.
  - apply IH.
  - apply IH.
  - destruct (RecapFrame.from_dict v) as [f| |] eqn:Hf; simpl; [|done..].
    intros (frames' & -> & Hfs)%IH. exists (f :: frames'). rewrite <- app_assoc. split; [done|].
    by constructor.
  - done.
Qed.

Lemma load_lines_snoc_record lines frames f :
  load_lines [] lines = Ret frames →
  load_lines [] (lines ++ [json_dumps (RecapFrame.to_dict f)]) = Ret (frames ++ [f]).
Proof.
  intros H. rewrite load_lines_app, H. simpl. by rewrite from_dict_dumps.
Qed.

Lemma slice_from_last {A} (l : list A) (n : Z) :
  (0 < n)%Z → slice_from l (- n) = drop (length l - Z.to_nat n) l.
Proof.
  intros Hn. unfold slice_from, clamp.
  destruct (Z.ltb_spec (- n) 0); [|lia]. f_equal. lia.
Qed.

Lemma write_frame_spec st frames f :
  load_all st = Ret frames →
  ∃ st', write_frame f st = (Ret (), st')
         ∧ load_all st' = Ret (drop (length (frames ++ [f]) - 300) (frames ++ [f])).
Proof.
  intros Hload. unfold write_frame, _prune_if_needed.
  assert (load_all (Some (default [] st ++ [json_dumps (RecapFrame.to_dict f)]))
          = Ret (frames ++ [f])) as Happ.
  { destruct st as [lines|]; simpl in *.
    - by apply load_lines_snoc_record.
    - injection Hload as <-. by rewrite from_dict_dumps. }
  rewrite Happ. unfold MAX_FRAMES.
  destruct (Z.leb_spec (Z.of_nat (length (frames ++ [f]))) 300) as [Hle|Hgt].
  - eexists; split; [done|]. rewrite Happ. f_equal.
    replace (length (frames ++ [f]) - 300) with 0 by lia. done.
  - eexists; split; [done|]. simpl.
    rewrite slice_from_last by lia.
    change (load_lines [] (records (drop (length (frames ++ [f]) - Z.to_nat 300) (frames ++ [f]))) = 
           Ret (drop (length (frames ++ [f]) - 300) (frames ++ [f]))).
    rewrite load_lines_records. simpl. do 2 f_equal.
Qed.

Lemma drop_last_twice {A} (l : list A) (x : A) n :
  0 < n →
  let l' := drop (length l - n) l in
  drop (length (l' ++ [x]) - n) (l' ++ [x]) = drop (length (l ++ [x]) - n) (l ++ [x]).
Proof.
  intros Hn l'. subst l'. destruct (decide (length l ≤ n)) as [Hle|Hgt].
  - by replace (length l - n) with 0 by lia.
  - rewrite (drop_app_le l [x]) by (rewrite length_app; simpl; lia).
    rewrite drop_app_le by (rewrite length_app, length_drop; simpl; lia).
    f_equal. rewrite drop_drop. f_equal. rewrite !length_app, length_drop. simpl. lia.
Qed.

Lemma parsed_values_app l1 l2 :
  parsed_values (l1 ++ l2) = parsed_values l1 ++ parsed_values l2.
Proof. apply omap_app. Qed.

Lemma write_frame_persists frame st st' :
  write_frame frame st = (Ret (), st') →
  ∃ lines, st' = Some (lines ++ [json_dumps (RecapFrame.to_dict frame)]).
Proof.
  unfold write_frame, _prune_if_needed.
  set (lines := default [] st).
  destruct (load_all _) as [frames| |] eqn:Hload; [|done..].
  destruct (Z.leb_spec (Z.of_nat (length frames)) MAX_FRAMES) as [Hle|Hgt].
  - intros [= <-]. eauto.
  - intros [= <-]. simpl in Hload.
    apply load_lines_Ret_inv in Hload as (frames' & -> & Hall). simpl in *.
    rewrite parsed_values_app in Hall. simpl in Hall.
    apply Forall2_app_inv_l in Hall as (fs1 & fs2 & H1 & H2 & ->).
    apply Forall2_cons_inv_l in H2 as (f & fs3 & Hf & ->%Forall2_nil_inv_l & ->).
    rewrite from_dict_dumps in Hf. injection Hf as <-.
    rewrite slice_from_last by done. unfold MAX_FRAMES in *.
    rewrite length_app in *. simpl in *.
    rewrite drop_app_le by lia. rewrite fmap_app. simpl. eauto.
Qed.

Lemma drop_last_app {A} (l k : list A) n :
  0 < n →
  let l' := drop (length l - n) l in
  drop (length (l' ++ k) - n) (l' ++ k) = drop (length (l ++ k) - n) (l ++ k).
Proof.
  intros Hn l'. subst l'. induction k as [|x k IH] using rev_ind.
  - rewrite !app_nil_r, length_drop, drop_drop. f_equal. lia.
  - rewrite !app_assoc.
    rewrite <- (drop_last_twice (l ++ k) x n Hn).
    rewrite <- (drop_last_twice (drop (length l - n) l ++ k) x n Hn).
    cbv zeta. by rewrite IH.
Qed.

Lemma write_all_spec frames : ∀ st stored,
  load_all st = Ret stored → length stored ≤ 300 →
  ∃ st', write_all frames st = (Ret (), st')
         ∧ load_all st' = Ret (drop (length (stored ++ frames) - 300) (stored ++ frames)).
Proof.
  induction frames as [|f frames IH]; intros st stored Hload Hlen.
  - exists st. split; [done|]. rewrite app_nil_r.
    by replace (length stored - 300) with 0 by lia.
  - destruct (write_frame_spec st stored f Hload) as (st1 & Hw & Hl1).
    destruct (IH st1 _ Hl1) as (st' & Hw' & Hl').
    { rewrite length_drop, length_app. simpl. lia. }
    exists st'. simpl. rewrite Hw. split; [done|]. rewrite Hl'. f_equal.
    rewrite (drop_last_app (stored ++ [f]) frames 300) by lia.
    by rewrite <- !app_assoc.
Qed.

(** C7.  Retention: a [write_frame] on a readable store returns, and the
    store then holds the last 300 of the frames it held followed by the new
    one, so never more than 300; any number of frames written to a store
    that does not exist yet leave the last 300 of them; 305 of them leave
    exactly 300, the last 300 in the order written. *)
Theorem retention_invariant :
  (∀ st stored frame, load_all st = Ret stored →
     ∃ st' kept, write_frame frame st = (Ret (), st')
       ∧ load_all st' = Ret kept
       ∧ length kept ≤ 300
       ∧ kept = drop (length (stored ++ [frame]) - 300) (stored ++ [frame]))
  ∧ (∀ frames,
       ∃ st' kept, write_all frames None = (Ret (), st')
         ∧ load_all st' = Ret kept
         ∧ length kept ≤ 300
         ∧ kept = drop (length frames - 300) frames)
  ∧ (∀ frames, length frames = 305 →
       ∃ st', write_all frames None = (Ret (), st')
         ∧ load_all st' = Ret (drop 5 frames)
         ∧ length (drop 5 frames) = 300).
Proof.
  split_and!.
  - intros st stored frame Hload.
    destruct (write_frame_spec st stored frame Hload) as (st' & Hw & Hl).
    eexists st', _. split_and!; [done|done| |done].
    rewrite length_drop, length_app. simpl. lia.
  - intros frames.
    destruct (write_all_spec frames None [] eq_refl) as (st' & Hw & Hl); [simpl; lia|].
    eexists st', _. split_and!; [done|done| |done].
    rewrite length_drop. simpl. lia.
  - intros frames Hlen.
    destruct (write_all_spec frames None [] eq_refl) as (st' & Hw & Hl); [simpl; lia|].
    exists st'. split_and!; [done| |rewrite length_drop; lia].
    rewrite Hl. simpl. by rewrite Hlen.
Qed.

Lemma retention_invariant_witness :
  length (numbered <$> seq 0 305) = 305
  ∧ ∃ st', write_all (numbered <$> seq 0 305) None = (Ret (), st')
      ∧ load_all st' = Ret (drop 5 (numbered <$> seq 0 305)).
Proof.
  assert (length (numbered <$> seq 0 305) = 305) as Hlen by (vm_compute; reflexivity).
  split; [exact Hlen|].
  destruct (proj2 (proj2 retention_invariant) (numbered <$> seq 0 305) Hlen)
    as (st' & Hw & Hl & _).
  exists st'. split; [exact Hw|exact Hl].
Defined.

(** *** Values of the shape of a record *)
















(** What [write_frame] writes has this shape. *)














(** The frames read in [mixed_log] are the two that were written. *)
Lemma load_all_mixed_log : load_all (Some mixed_log) = Ret [older; newer].
Proof. vm_compute. reflexivity. Qed.


(** So does a line on which [json.loads] raises something else than
    [JSONDecodeError], here on brackets nested too deep. *)
Lemma load_all_aborts :
  load_all (Some [json_dumps (RecapFrame.to_dict older); Aborts RecursionError])
  = Raise RecursionError.
Proof. vm_compute. reflexivity. Qed.


(** * The project name *)

Lemma startswith_spec s p : startswith s p = true ↔ ∃ b, s = p ++ b.
Proof.
  revert s. induction p as [|a p IH]; intros [|b s]; simpl.
  - split; [by exists []|done].
  - split; [by exists (b :: s)|done].
  - split; [done|by intros [? ?]].
  - rewrite andb_true_iff, bool_decide_eq_true, IH. split.
    + intros [-> [r ->]]. eauto.
    + intros [r [= -> ->]]. eauto.
Qed.

Lemma startswith_occurs s p : startswith s p = true ↔ occurs_at p s 0.
Proof.
  rewrite startswith_spec. split.
  - intros [b ->]. by exists [], b.
  - intros (a & b & -> & ->%nil_length_inv). eauto.
Qed.

Lemma occurs_at_cons sub c s i : occurs_at sub (c :: s) (S i) ↔ occurs_at sub s i.
Proof.
  split.
  - intros ([|c' a] & b & Heq & Hlen); [done|]. simpl in *.
    injection Heq as -> ->. exists a, b. split; [done|lia].
  - intros (a & b & -> & <-). by exists (c :: a), b.
Qed.

Lemma find_nil sub : find [] sub = if startswith [] sub then Some 0 else None.
Proof. done. Qed.

Lemma find_cons c s sub :
  find (c :: s) sub = if startswith (c :: s) sub then Some 0 else S <$> find s sub.
Proof. done. Qed.

Lemma first_at_0 sub s : occurs_at sub s 0 → ∀ i, first_at sub s i ↔ i = 0.
Proof.
  intros H0 i. split; [|intros ->; split; [done|lia]].
  intros [_ Hmin]. destruct i; [done|]. destruct (Hmin 0); [lia|done].
Qed.

Lemma first_at_S sub c s i :
  ¬ occurs_at sub (c :: s) 0 → first_at sub (c :: s) (S i) ↔ first_at sub s i.
Proof.
  intros H0. unfold first_at. rewrite occurs_at_cons. split; intros [H1 H2]; split; try done.
  - intros j Hj. rewrite <- (occurs_at_cons sub c). apply H2. lia.
  - intros [|j] Hj; [done|]. rewrite occurs_at_cons. apply H2. lia.
Qed.

Lemma find_Some s sub i : find s sub = Some i ↔ first_at sub s i.
Proof.
  revert i. induction s as [|c s IH]; intros i.
  - rewrite find_nil. destruct (startswith [] sub) eqn:Hs.
    + apply startswith_occurs in Hs. rewrite (first_at_0 _ _ Hs).
      split; [by intros [= <-]|by intros ->].
    + split; [done|]. intros [(a & b & Heq & Hlen) _].
      destruct a; [|done]. apply not_true_iff_false in Hs. destruct Hs.
      apply startswith_occurs. by exists [], b.
  - rewrite find_cons. destruct (startswith (c :: s) sub) eqn:Hs.
    + apply startswith_occurs in Hs. rewrite (first_at_0 _ _ Hs).
      split; [by intros [= <-]|by intros ->].
    + assert (¬ occurs_at sub (c :: s) 0) as Hno.
      { intros H%startswith_occurs. congruence. }
      destruct i as [|i].
      * split; [by destruct (find s sub)|]. by intros [? _].
      * rewrite (first_at_S _ _ _ _ Hno), <- IH.
        destruct (find s sub); simpl; split; intros [= ?]; by subst.
Qed.

Lemma find_None s sub : find s sub = None ↔ ∀ i, ¬ occurs_at sub s i.
Proof.
  induction s as [|c s IH].
  - rewrite find_nil. destruct (startswith [] sub) eqn:Hs.
    + apply startswith_occurs in Hs. split; [done|]. intros H. by destruct (H 0).
    + split; [|done]. intros _ i (a & b & Heq & Hlen).
      destruct a; [|done]. apply not_true_iff_false in Hs. destruct Hs.
      apply startswith_occurs. by exists [], b.
  - rewrite find_cons. destruct (startswith (c :: s) sub) eqn:Hs.
    + apply startswith_occurs in Hs. split; [done|]. intros H. by destruct (H 0).
    + assert (¬ occurs_at sub (c :: s) 0) as Hno.
      { intros H%startswith_occurs. congruence. }
      destruct (find s sub) as [k|] eqn:Hk; simpl.
      * split; [done|]. intros H. apply find_Some in Hk as [Hk _].
        destruct (H (S k)). by apply occurs_at_cons.
      * split; [|done]. intros _ [|i]; [done|]. rewrite occurs_at_cons. by apply IH.
Qed.

Lemma str_in_true sub s : str_in sub s = true ↔ ∃ i, occurs_at sub s i.
Proof.
  unfold str_in. rewrite bool_decide_eq_true. split.
  - intros [i Hi]. apply find_Some in Hi as [Hi _]. eauto.
  - intros [i Hi]. destruct (find s sub) eqn:Hf; [done|].
    by eapply find_None in Hf.
Qed.

Lemma str_in_false sub s : str_in sub s = false ↔ ∀ i, ¬ occurs_at sub s i.
Proof.
  rewrite <- not_true_iff_false, str_in_true. split.
  - intros H i Hi. apply H. by exists i.
  - intros H [i Hi]. by apply (H i).
Qed.


Lemma lower_app a b : lower (a ++ b) = lower a ++ lower b.
Proof. apply map_app. Qed.


Lemma marker_test_absent marker line :
  str_in marker (lower line) = false → marker_test marker line = Ret None.
Proof. unfold marker_test. by intros ->. Qed.


Lemma scan_project_name_cons line lines :
  scan_project_name (line :: lines) =
  marker_test (lit "project:") line ≫= λ r,
    match r with
    | Some after => Ret after
    | None =>
        marker_test (lit "project name:") line ≫= λ r,
          match r with
          | Some after => Ret after
          | None => scan_project_name lines
          end
    end.
Proof. done. Qed.

Lemma scan_project_name_skip pre lines :
  (∀ l, l ∈ pre → str_in (lit "project:") (lower l) = false
                  ∧ str_in (lit "project name:") (lower l) = false) →
  scan_project_name (pre ++ lines) = scan_project_name lines.
Proof.
  induction pre as [|l pre IH]; intros Hpre; [done|].
  destruct (Hpre l) as [H1 H2]; [left|].
  rewrite <- app_comm_cons, scan_project_name_cons.
  rewrite (marker_test_absent _ _ H1), bind_Ret, (marker_test_absent _ _ H2), bind_Ret.
  apply IH. intros l' Hl'. apply Hpre. by right.
Qed.




(** * The [other] mapping of the preferences *)

Lemma extract_preferences_other user_msg assistant_msg :
  Preferences.other (_extract_preferences user_msg assistant_msg) = ∅.
Proof. done. Qed.

Lemma compress_frame_other frame n :
  Preferences.other (RecapFrame.preferences (compress_frame frame n))
  = Preferences.other (RecapFrame.preferences frame).
Proof. done. Qed.

Lemma save_context_other user_msg assistant_msg now st frame st' :
  save_context user_msg assistant_msg now st = (Ret frame, st') →
  Preferences.other (RecapFrame.preferences frame) = ∅
  ∧ ∃ lines, st' = Some (lines ++ [json_dumps (RecapFrame.to_dict frame)]).
Proof.
  unfold save_context.
  destruct (_extract_project_state _ _) as [ps| |]; [|done..].
  destruct (write_frame _ st) as [[[]| |] st''] eqn:Hw; [|done..].
  intros [= <- <-]. split; [done|]. by eapply write_frame_persists.
Qed.

(** C10.  No step fills [preferences.other]: [_extract_preferences] returns
    it empty and [compress_frame] leaves it as it is, so the frame
    [save_context] returns has it empty, and that frame is the last record
    of the store; [save_context] does return a frame whenever the store is
    readable and the project-state extraction does not raise. *)
Theorem other_always_empty :
  (∀ user_msg assistant_msg,
     Preferences.other (_extract_preferences user_msg assistant_msg) = ∅)
  ∧ (∀ frame n,
       Preferences.other (RecapFrame.preferences (compress_frame frame n))
       = Preferences.other (RecapFrame.preferences frame))
  ∧ (∀ user_msg assistant_msg now st frame st',
       save_context user_msg assistant_msg now st = (Ret frame, st') →
       Preferences.other (RecapFrame.preferences frame) = ∅
       ∧ ∃ lines, st' = Some (lines ++ [json_dumps (RecapFrame.to_dict frame)]))
  ∧ (∀ user_msg assistant_msg now st stored project_state,
       load_all st = Ret stored →
       _extract_project_state user_msg assistant_msg = Ret project_state →
       ∃ frame st', save_context user_msg assistant_msg now st = (Ret frame, st')).
Proof.
  split_and!;
    [apply extract_preferences_other|apply compress_frame_other
    |apply save_context_other|].
  intros user_msg assistant_msg now st stored ps Hload Hps.
  unfold save_context. rewrite Hps.
  edestruct (write_frame_spec st stored) as (st' & -> & _); [done|]. eauto.
Qed.

Lemma other_always_empty_witness :
  ∃ frame st',
    save_context second_user second_assistant (lit "2026-01-01T10:00:05") None
    = (Ret frame, st')
    ∧ Preferences.other (RecapFrame.preferences frame) = ∅.
Proof.
  eexists _, _. split; [vm_compute; reflexivity|].
  eapply (proj1 (proj2 (proj2 other_always_empty))
            second_user second_assistant (lit "2026-01-01T10:00:05") None).
  vm_compute. reflexivity.
Defined.


(** * Retrieval

    With an empty query the score of a frame grows with its index, and
    [retrieve_relevant_frames] sorts by falling score: the frames come out
    newest first, and [reconstruct_state] reads them in that order. *)

Lemma retrieve_empty_query_two_frames f0 f1 n st :
  (2 <= n)%Z →
  load_all st = Ret [f0; f1] → retrieve_relevant_frames [] n st = Ret [f1; f0].
Proof.
  intros Hn Hload. unfold retrieve_relevant_frames. rewrite Hload, bind_Ret.
  change (bool_decide ([f0; f1] = [])) with false. cbv iota.
  change (bool_decide (@nil ascii = [])) with true. cbv iota.
  set (scored := sorted _ _).
  assert (scored = [((2)%float, f1); ((1)%float, f0)]) as ->.
  { subst scored. vm_compute. reflexivity. }
  unfold slice_to, clamp. destruct (Z.ltb_spec n 0); [lia|].
  replace (Z.to_nat n `min` _) with 2 by (simpl; lia). reflexivity.
Qed.

Lemma empty_query_two_frames f0 f1 st :
  load_all st = Ret [f0; f1] →
  ∃ b, load_context [] st = Ret b
       ∧ ContextBundle.supporting_frames b = [f1; f0]
       ∧ (ProjectState.summary (RecapFrame.project_state f0) ≠ [] →
          ContextBundle.project_summary b
          = ProjectState.summary (RecapFrame.project_state f0)).
Proof.
  intros Hload. unfold load_context, reconstruct_state.
  rewrite (retrieve_empty_query_two_frames f0 f1) by done.
  rewrite bind_Ret. change (bool_decide ([f1; f0] = [])) with false. cbv iota.
  rewrite bind_Ret.
  eexists. split; [reflexivity|]. split; [reflexivity|].
  intros Hs. simpl.
  rewrite (bool_decide_eq_false_2 _ Hs).
  destruct (bool_decide (ProjectState.summary (RecapFrame.project_state f1) = [])); 
   by rewrite (bool_decide_eq_false_2 _ Hs).
Qed.

(** C1, evaluated.  After the two interactions of the scenario, an empty
    query gives the project summary of the first, older frame; the active
    workstream is not empty; the supporting frames are listed newest
    first. *)
Theorem two_saves_then_load :
  ∃ f1 st1 f2 st2 b,
    save_context first_user first_assistant (lit "2026-01-01T10:00:00") None = (Ret f1, st1)
    ∧ save_context second_user second_assistant (lit "2026-01-01T10:00:05") st1 = (Ret f2, st2)
    ∧ load_context [] st2 = Ret b
    ∧ ProjectState.summary (RecapFrame.project_state f1) = lit "We are planning the release."
    ∧ ProjectState.summary (RecapFrame.project_state f2)
      = lit "project: Orion currently migrating the database"
    ∧ ContextBundle.project_summary b = lit "We are planning the release."
    ∧ ContextBundle.active_workstream b = lit "project: Orion currently migrating the database"
    ∧ ContextBundle.supporting_frames b = [f2; f1].
Proof.
  do 5 eexists. 
  split; [vm_compute; reflexivity|].
  split; [vm_compute; reflexivity|].
  split; [vm_compute; reflexivity|].
  repeat split; vm_compute; reflexivity.
Qed.

(** C2, evaluated.  A store holding [older] then [newer], loaded with an
    empty query: the supporting frames are [newer] then [older], and every
    single-valued field has the value of [older]. *)
Theorem load_newest_first :
  ∃ st1 st2 b,
    write_frame older None = (Ret (), st1)
    ∧ write_frame newer st1 = (Ret (), st2)
    ∧ load_all st2 = Ret [older; newer]
    ∧ load_context [] st2 = Ret b
    ∧ ContextBundle.supporting_frames b = [newer; older]
    ∧ ContextBundle.project_summary b = lit "older summary"
    ∧ ContextBundle.active_workstream b = lit "older work"
    ∧ Preferences.style (ContextBundle.user_prefs b) = lit "concise"
    ∧ Preferences.tone (ContextBundle.user_prefs b) = lit "casual".
Proof.
  do 3 eexists.
  split; [vm_compute; reflexivity|].
  split; [vm_compute; reflexivity|].
  repeat split; vm_compute; reflexivity.
Qed.

(** * Keywords *)

(** ** Sorting by a strict total order *)

Section strict_total.
Context {A : Type} (ltb : A → A → bool) `{!StrictTotal ltb}.

Lemma ltb_asym a b : ltb a b = true → ltb b a = false.
Proof.
  intros Hab. destruct (ltb b a) eqn:Hba; [|done].
  pose proof (ltb_trans _ _ _ Hab Hba) as H. by rewrite ltb_irrefl in H.
Qed.

Lemma leb_of_trans : Transitive (leb_of ltb).
Proof.
  intros a b c Hab Hbc. unfold leb_of in *.
  destruct (ltb c a) eqn:Hca; [|done].
  destruct (ltb a b) eqn:Hab'.
  - by rewrite (ltb_trans _ _ _ Hca Hab') in Hbc.
  - rewrite (ltb_total _ _ Hab' Hab) in Hca. congruence.
Qed.

#[local] Existing Instance leb_of_trans.

Lemma leb_of_antisym : AntiSymm (=) (leb_of ltb).
Proof. intros a b Hab Hba. by apply ltb_total. Qed.

#[local] Existing Instance leb_of_antisym.

Lemma HdRel_insert_sorted a x l :
  (leb_of ltb) a x → HdRel (leb_of ltb) a l → HdRel (leb_of ltb) a (insert_sorted ltb x l).
Proof.
  intros Hax Hal. destruct l as [|y l]; simpl; [by constructor|].
  destruct (ltb y x); constructor; [by inversion Hal|done].
Qed.

Lemma Sorted_insert_sorted x l :
  Sorted (leb_of ltb) l → Sorted (leb_of ltb) (insert_sorted ltb x l).
Proof.
  induction 1 as [|y l Hl IH Hhd]; simpl; [by repeat constructor|].
  destruct (ltb y x) eqn:Hyx.
  - constructor; [done|]. apply HdRel_insert_sorted; [|done]. by apply ltb_asym.
  - by repeat constructor.
Qed.

Lemma Sorted_sorted l : Sorted (leb_of ltb) (sorted ltb l).
Proof.
  induction l as [|x l IH]; simpl; [constructor|]. by apply Sorted_insert_sorted.
Qed.

Lemma sorted_unique l l' : l ≡ₚ l' → sorted ltb l = sorted ltb l'.
Proof.
  intros Hp. apply (Sorted_unique (leb_of ltb)); [apply Sorted_sorted..|].
  by rewrite !sorted_Permutation.
Qed.

Lemma StronglySorted_strict l :
  NoDup l → StronglySorted (leb_of ltb) l → StronglySorted (λ a b, ltb a b = true) l.
Proof.
  intros Hnd. induction 1 as [|x l Hl IH Hx]; [constructor|].
  apply NoDup_cons in Hnd as [Hx' Hnd]. constructor; [by apply IH|].
  rewrite Forall_forall in *. intros y Hy.
  destruct (ltb x y) eqn:Hxy; [done|]. 
  destruct Hx'. rewrite (ltb_total x y Hxy); [done|]. by apply Hx.
Qed.

Lemma sorted_strict l :
  NoDup l → StronglySorted (λ a b, ltb a b = true) (sorted ltb l).
Proof.
  intros Hnd. apply StronglySorted_strict; [by rewrite sorted_Permutation|].
  apply Sorted_StronglySorted; [apply _|apply Sorted_sorted].
Qed.
End strict_total.

Lemma code_inj a b : code a = code b → a = b.
Proof.
  unfold code. intros H. by rewrite <- (ascii_N_embedding a), <- (ascii_N_embedding b), H.
Qed.

Lemma str_ltb_strict : StrictTotal str_ltb.
Proof.
  split.
  - induction a as [|x a IH]; simpl; [done|].
    by rewrite N.ltb_irrefl, N.eqb_refl, IH.
  - induction a as [|x a IH]; intros [|y b] [|z c]; simpl; try done.
    rewrite !orb_true_iff, !andb_true_iff, !N.ltb_lt, !N.eqb_eq.
    intros [?|[? ?]] [?|[? ?]]; [left; lia..|]. right. split; [congruence|]. by eapply IH.
  - induction a as [|x a IH]; intros [|y b]; simpl; try done.
    rewrite !orb_false_iff, !andb_false_iff, !N.ltb_ge, !N.eqb_neq.
    intros [? [?|?]] [? [?|?]]; try lia.
    f_equal; [apply code_inj; lia|by apply IH].
Qed.

#[local] Existing Instance str_ltb_strict.

Lemma item_ltb_strict : StrictTotal item_ltb.
Proof.
  unfold item_ltb. split.
  - intros [a n]. simpl. by rewrite Z.ltb_irrefl, Z.eqb_refl, (ltb_irrefl (ltb:=str_ltb)).
  - intros [a n] [b m] [c k]. simpl.
    rewrite !orb_true_iff, !andb_true_iff, !Z.ltb_lt, !Z.eqb_eq.
    intros [?|[? ?]] [?|[? ?]]; [left; lia..|]. right. split; [lia|]. 
    by eapply (ltb_trans (ltb:=str_ltb)).
  - intros [a n] [b m]. simpl.
    rewrite !orb_false_iff, !andb_false_iff, !Z.ltb_ge, !Z.eqb_neq.
    intros [? [?|?]] [? [?|?]]; try lia.
    f_equal; [by apply (ltb_total (ltb:=str_ltb))|lia].
Qed.

#[local] Existing Instance item_ltb_strict.

(** ** The counter *)

Lemma counter_incr_keys tok counter :
  (counter_incr tok counter).*1
  = if bool_decide (tok ∈ counter.*1) then counter.*1 else counter.*1 ++ [tok].
Proof.
  induction counter as [|[k n] counter IH]; csimpl; [done|].
  destruct (decide (k = tok)) as [->|Hk].
  - rewrite !bool_decide_eq_true_2; [done|left|done].
  - rewrite (bool_decide_eq_false_2 (k = tok)) by done. csimpl. rewrite IH.
    destruct (decide (tok ∈ counter.*1)) as [Hin|Hin].
    + rewrite !bool_decide_eq_true_2; [done|by right|done].
    + rewrite !bool_decide_eq_false_2; [done| |done].
      by intros [->|?]%elem_of_cons.
Qed.

Lemma counter_incr_elem tok counter t n :
  NoDup counter.*1 →
  (t, n) ∈ counter_incr tok counter ↔
    (t ≠ tok ∧ (t, n) ∈ counter)
    ∨ (t = tok ∧ (tok, (n - 1)%Z) ∈ counter)
    ∨ (t = tok ∧ n = 1%Z ∧ tok ∉ counter.*1).
Proof.
  induction counter as [|[k m] counter IH]; intros Hnd; csimpl in *.
  - rewrite list_elem_of_singleton. split.
    + intros [= -> ->]. right. right. split_and!; [done..|]. by intros ?%elem_of_nil.
    + by intros [[_ ?%elem_of_nil]|[[_ ?%elem_of_nil]|(-> & -> & _)]].
  - apply NoDup_cons in Hnd as [Hk Hnd].
    assert (∀ m', (k, m') ∉ counter) as Hk'.
    { intros m' Hin. apply Hk, list_elem_of_fmap. by exists (k, m'). }
    destruct (decide (k = tok)) as [->|Hkt].
    + rewrite bool_decide_eq_true_2 by done. rewrite !elem_of_cons.
      split.
      * intros [[= -> ->]|Hin].
        -- right. left. split; [done|]. left. f_equal. lia.
        -- left. split; [|by right]. intros ->. by eapply Hk'.
      * intros [[Hne [?|Hin]]|[[-> [?|Hin]]|(-> & -> & Hnot)]].
        -- simplify_eq.
        -- by right.
        -- left. simplify_eq. f_equal. lia.
        -- by destruct (Hk' (n - 1)%Z).
        -- destruct Hnot. by left.
    + rewrite bool_decide_eq_false_2 by done. rewrite !elem_of_cons, (IH Hnd).
      split.
      * intros [?|[[? ?]|[[-> ?]|(-> & -> & ?)]]].
        -- simplify_eq. left. split; [done|by left].
        -- left. split; [done|by right].
        -- right. left. split; [done|by right].
        -- right. right. split_and!; [done..|]. by intros [->|?].
      * intros [[? [?|?]]|[[-> [?|?]]|(-> & -> & Hnot)]].
        -- by left.
        -- right. by left.
        -- simplify_eq.
        -- right. right. by left.
        -- right. right. right. split_and!; [done..|]. intros ?. apply Hnot. by right.
Qed.

Lemma filter_eq_absent (t : str) toks : t ∉ toks → filter (t =.) toks = [].
Proof.
  induction toks as [|x toks IH]; [done|]. intros Hin.
  rewrite filter_cons_False; [|intros ->; apply Hin; left].
  apply IH. intros ?. apply Hin. by right.
Qed.

Lemma counts_nil : counts [] [].
Proof.
  split; [constructor|]. intros t n. split; [by intros ?%elem_of_nil|].
  by intros [?%elem_of_nil _].
Qed.

Lemma counts_snoc toks counter tok :
  counts toks counter → counts (toks ++ [tok]) (counter_incr tok counter).
Proof.
  intros [Hnd Hc]. split.
  - rewrite counter_incr_keys. case_bool_decide; [done|].
    apply NoDup_app. split_and!; [done| |apply NoDup_singleton].
    by intros x ? ->%list_elem_of_singleton.
  - intros t n. rewrite (counter_incr_elem _ _ _ _ Hnd), !Hc.
    rewrite filter_app, length_app, elem_of_app, list_elem_of_singleton.
    assert (tok ∉ counter.*1 ↔ tok ∉ toks) as ->.
    { apply not_iff_compat. rewrite list_elem_of_fmap. split.
      - intros [[t' n'] [-> [? _]%Hc]]. done.
      - intros Hin. eexists (tok, _). split; [done|]. by apply Hc. }
    destruct (decide (t = tok)) as [->|Hne].
    + rewrite (filter_cons_True (tok =.) tok []) by done. simpl.
      split.
      * intros [[? _]|[[_ [? ?]]|(_ & -> & Hnot)]]; [done| |].
        -- split; [by left|lia].
        -- split; [by right|]. 
           by rewrite filter_eq_absent.
      * intros [_ ->]. destruct (decide (tok ∈ toks)).
        -- right. left. split_and!; [done..|lia].
        -- right. right. split_and!; [done| |done].
           by rewrite filter_eq_absent.
    + rewrite (filter_cons_False (t =.) tok []) by done. simpl.
      split.
      * intros [[_ [? ->]]|[[? _]|[? _]]]; [|done..]. split; [by left|lia].
      * intros [[?|?] ->]; [|done]. left. split_and!; [done..|lia].
Qed.

Lemma counts_foldl toks :
  counts toks (foldl (λ counter tok, counter_incr tok counter) [] toks).
Proof.
  induction toks as [|tok toks IH] using rev_ind; [apply counts_nil|].
  rewrite foldl_app. simpl. by apply counts_snoc.
Qed.

Lemma count_text_filter counter text :
  count_text counter text
  = foldl (λ counter tok, counter_incr tok counter) counter
          (filter (λ tok, tok ∉ _STOPWORDS) (_tokenize text)).
Proof.
  unfold count_text. generalize (_tokenize text). intros toks. revert counter.
  induction toks as [|tok toks IH]; intros counter; simpl; [done|].
  case_bool_decide.
  - by rewrite filter_cons_False by naive_solver.
  - by rewrite filter_cons_True by done.
Qed.

Lemma count_texts counter texts :
  foldl count_text counter texts
  = foldl (λ counter tok, counter_incr tok counter) counter (kept_tokens texts).
Proof.
  revert counter. induction texts as [|text texts IH]; intros counter; [done|].
  unfold kept_tokens in *. simpl. by rewrite foldl_app, IH, count_text_filter.
Qed.

Lemma counts_texts texts : counts (kept_tokens texts) (foldl count_text [] texts).
Proof. rewrite count_texts. apply counts_foldl. Qed.

Lemma counts_Permutation toks toks' counter counter' :
  toks ≡ₚ toks' → counts toks counter → counts toks' counter' → counter ≡ₚ counter'.
Proof.
  intros Hp [Hnd Hc] [Hnd' Hc'].
  apply NoDup_Permutation; [by eapply NoDup_fmap_1..|].
  intros [t n]. rewrite Hc, Hc'. by rewrite Hp.
Qed.

Lemma kept_tokens_Permutation texts texts' :
  texts ≡ₚ texts' → kept_tokens texts ≡ₚ kept_tokens texts'.
Proof. intros Hp. unfold kept_tokens. by rewrite Hp. Qed.

Lemma extract_keywords_unfold texts k :
  extract_keywords texts k
  = (slice_to (sorted item_ltb (foldl count_text [] texts)) k).*1.
Proof.
  unfold extract_keywords. case_bool_decide as Hc; [|done].
  rewrite Hc. unfold slice_to. simpl. by rewrite take_nil.
Qed.

(** ** The keywords *)

Lemma slice_to_take {A} (l : list A) (k : Z) : ∃ m, slice_to l k = take m l.
Proof. by eexists. Qed.

Lemma slice_to_length {A} (l : list A) (k : Z) :
  (0 <= k)%Z → (Z.of_nat (length (slice_to l k)) <= k)%Z.
Proof.
  intros Hk. unfold slice_to, clamp. destruct (Z.ltb_spec k 0); [lia|].
  rewrite length_take. lia.
Qed.

Lemma item_ltb_keyword texts a b :
  a ∈ foldl count_text [] texts → b ∈ foldl count_text [] texts →
  item_ltb a b = true → keyword_before texts a.1 b.1.
Proof.
  destruct (counts_texts texts) as [_ Hc]. destruct a as [a n], b as [b m].
  intros [_ ->]%Hc [_ ->]%Hc. unfold item_ltb, keyword_before, freq. simpl.
  rewrite orb_true_iff, andb_true_iff, Z.ltb_lt, Z.eqb_eq. 
  intros [?|[? ?]]; [left; lia|right]. split; [lia|done].
Qed.

Lemma StronglySorted_take {A} (R : relation A) l n :
  StronglySorted R l → StronglySorted R (take n l).
Proof.
  intros H. rewrite <- (take_drop n l) in H. by apply StronglySorted_app_1_l in H.
Qed.

Lemma StronglySorted_fmap_fst texts (l : list (str * Z)) :
  (∀ x, x ∈ l → x ∈ foldl count_text [] texts) →
  StronglySorted (λ a b, item_ltb a b = true) l →
  StronglySorted (keyword_before texts) l.*1.
Proof.
  intros Hin. induction 1 as [|x l Hl IH Hx]; csimpl; constructor.
  - apply IH. intros y Hy. apply Hin. by right.
  - rewrite Forall_fmap. rewrite Forall_forall in *. intros y Hy. simpl.
    apply item_ltb_keyword; [apply Hin; left|apply Hin; by right|by apply Hx].
Qed.

Lemma elem_of_take_in {A} (x : A) n l : x ∈ take n l → x ∈ l.
Proof. intros H. rewrite <- (take_drop n l). apply elem_of_app. by left. Qed.

(** C5, as amended.  For [max_keywords ≥ 0], [extract_keywords] returns
    at most [max_keywords] tokens, none a stopword, each more frequent than
    the next or as frequent and alphabetically before it, and before every
    counted token left out; it returns nothing when no token is counted;
    and it returns the same for any permutation of the texts. *)
Theorem extract_keywords_spec texts texts' k :
  (0 <= k)%Z → texts ≡ₚ texts' →
  (Z.of_nat (length (extract_keywords texts k)) <= k)%Z
  ∧ (∀ tok, tok ∈ extract_keywords texts k →
       (tok ∉ _STOPWORDS) ∧ (tok ∈ kept_tokens texts))
  ∧ StronglySorted (keyword_before texts) (extract_keywords texts k)
  ∧ (∀ tok top, tok ∈ kept_tokens texts → tok ∉ extract_keywords texts k →
       top ∈ extract_keywords texts k → keyword_before texts top tok)
  ∧ (kept_tokens texts = [] → extract_keywords texts k = [])
  ∧ extract_keywords texts' k = extract_keywords texts k.
Proof.
  intros Hk Hp. rewrite !extract_keywords_unfold.
  pose proof (counts_texts texts) as Hcounts.
  pose proof Hcounts as [Hnd Hc].
  set (counter := foldl count_text [] texts) in *.
  assert (NoDup counter) as Hnd' by by eapply NoDup_fmap_1.
  pose proof (sorted_strict item_ltb counter Hnd') as Hs.
  pose proof (sorted_Permutation item_ltb counter) as Hperm.
  destruct (slice_to_take (sorted item_ltb counter) k) as [m Hm].
  split_and!.
  - rewrite length_fmap. by apply slice_to_length.
  - intros tok [[t n] [-> Hin]]%list_elem_of_fmap. simpl.
    rewrite Hm in Hin. apply elem_of_take_in in Hin. rewrite Hperm in Hin.
    apply Hc in Hin as [Hin _]. split; [|done].
    unfold kept_tokens in Hin. apply list_elem_of_bind in Hin as (text & Hin & _).
    by apply list_elem_of_filter in Hin as [? _].
  - rewrite Hm. apply StronglySorted_fmap_fst; [|by apply StronglySorted_take].
    intros x Hx%elem_of_take_in. by rewrite Hperm in Hx.
  - intros tok top Htok Hout [[t n] [-> Htop]]%list_elem_of_fmap. simpl.
    rewrite Hm in Hout, Htop.
    set (cnt := Z.of_nat (length (filter (tok =.) (kept_tokens texts)))).
    assert ((tok, cnt) ∈ counter) as Hin by by apply Hc.
    rewrite <- Hperm, <- (take_drop m (sorted item_ltb counter)) in Hin.
    apply elem_of_app in Hin as [Hin|Hin].
    { destruct Hout. apply list_elem_of_fmap. by eexists (_, _). }
    rewrite <- (take_drop m (sorted item_ltb counter)) in Hs.
    pose proof (StronglySorted_app_1_elem_of _ _ _ _ _ Hs Htop Hin) as Hlt.
    apply (item_ltb_keyword texts (t, n) (tok, cnt)); [| |exact Hlt].
    + apply elem_of_take_in in Htop. by rewrite Hperm in Htop.
    + by apply Hc.
  - intros Hnil. destruct counter as [|[t n] ?]; [unfold slice_to; simpl; by rewrite take_nil|].
    assert ((t, n) ∈ (t, n) :: counter) as [Hin _]%Hc by left.
    rewrite Hnil in Hin. by apply elem_of_nil in Hin.
  - f_equal. f_equal. apply sorted_unique; [apply _|]. symmetry.
    eapply counts_Permutation; [|done|apply counts_texts].
    by apply kept_tokens_Permutation.
Qed.

Lemma extract_keywords_spec_witness :
  (0 <= 2)%Z
  ∧ [lit "the Cat and dog"; lit "zebra cat"] ≡ₚ [lit "zebra cat"; lit "the Cat and dog"]
  ∧ extract_keywords [lit "zebra cat"; lit "the Cat and dog"] 2
    = extract_keywords [lit "the Cat and dog"; lit "zebra cat"] 2.
Proof.
  assert ([lit "the Cat and dog"; lit "zebra cat"]
          ≡ₚ [lit "zebra cat"; lit "the Cat and dog"]) as Hp by apply Permutation_swap.
  split; [lia|]. split; [exact Hp|].
  apply (extract_keywords_spec [lit "the Cat and dog"; lit "zebra cat"]
           [lit "zebra cat"; lit "the Cat and dog"] 2); [lia|exact Hp].
Defined.

(** C5 as stated fails for a negative [max_keywords]: the slice drops
    tokens from the end, and two tokens are more than -1. *)
Lemma extract_keywords_negative_budget :
  extract_keywords [lit "red green blue"] (-1) = [lit "blue"; lit "green"]
  ∧ ¬ (Z.of_nat (length (extract_keywords [lit "red green blue"] (-1))) <= -1)%Z.
Proof. split; [vm_compute; reflexivity|]. vm_compute. by intros H; apply H. Qed.

(** * Compression *)

(** ** Leading and trailing white space *)

Lemma is_delim_not_space c : is_delim c = true → isspace c = false.
Proof.
  unfold is_delim. rewrite !orb_true_iff, !bool_decide_eq_true.
  by intros [[->| ->]| ->].
Qed.

Lemma no_lead_app a b : a ≠ [] → no_lead a → no_lead (a ++ b).
Proof. by destruct a. Qed.

Lemma no_trail_snoc s c : no_trail (s ++ [c]) ↔ isspace c = false.
Proof. unfold no_trail. by rewrite reverse_snoc. Qed.

Lemma no_trail_app a b : b ≠ [] → no_trail b → no_trail (a ++ b).
Proof.
  unfold no_trail. rewrite reverse_app. intros Hb. apply no_lead_app.
  intros Hr. apply Hb. by rewrite <- (reverse_involutive b), Hr.
Qed.

Lemma no_trail_app_inv a b : no_trail (a ++ b) → no_trail b.
Proof.
  unfold no_trail. rewrite reverse_app. destruct (reverse b) eqn:Hb; [done|].
  by intros ?.
Qed.

Lemma lstrip_drop p s : ∃ k, lstrip_by p s = drop k s.
Proof.
  induction s as [|c s [k IH]]; [by exists 0|]. simpl.
  destruct (p c); [by exists (S k)|by exists 0].
Qed.

Lemma lstrip_no_lead s : no_lead (lstrip_by isspace s).
Proof.
  induction s as [|c s IH]; [done|]. simpl. destruct (isspace c) eqn:Hc; [done|].
  by simpl.
Qed.

Lemma lstrip_id s : no_lead s → lstrip_by isspace s = s.
Proof. destruct s as [|c s]; [done|]. simpl. by intros ->. Qed.

Lemma rstrip_take p s : ∃ k, rstrip_by p s = take k s.
Proof.
  unfold rstrip_by. destruct (lstrip_drop p (reverse s)) as [k ->].
  exists (length s - k). by rewrite drop_reverse, reverse_involutive.
Qed.

Lemma rstrip_no_trail s : no_trail (rstrip s).
Proof.
  unfold no_trail, rstrip, rstrip_by. rewrite reverse_involutive. apply lstrip_no_lead.
Qed.

Lemma rstrip_id s : no_trail s → rstrip s = s.
Proof.
  unfold no_trail, rstrip, rstrip_by. intros H.
  by rewrite lstrip_id, reverse_involutive.
Qed.

Lemma strip_id s : no_lead s → no_trail s → strip s = s.
Proof.
  intros H1 H2. unfold strip, strip_by. rewrite lstrip_id by done. by apply rstrip_id.
Qed.

Lemma strip_sp s : strip (sp :: s) = strip s.
Proof. done. Qed.

Lemma lstrip_snoc s d :
  isspace d = false → lstrip_by isspace (s ++ [d]) = lstrip_by isspace s ++ [d].
Proof.
  intros Hd. induction s as [|c s IH]; simpl; [by rewrite Hd|].
  by destruct (isspace c).
Qed.

Lemma strip_snoc s d : isspace d = false → strip (s ++ [d]) = lstrip_by isspace s ++ [d].
Proof.
  intros Hd. unfold strip, strip_by. rewrite lstrip_snoc by done.
  apply rstrip_id. by apply no_trail_snoc.
Qed.

Lemma strip_infix s : ∃ a b, s = a ++ strip s ++ b.
Proof.
  unfold strip, strip_by. destruct (lstrip_drop isspace s) as [k Hk].
  destruct (rstrip_take isspace (lstrip_by isspace s)) as [m Hm].
  exists (take k s), (drop m (lstrip_by isspace s)).
  rewrite Hm, take_drop, Hk. by rewrite take_drop.
Qed.

Lemma strip_no_trail s : no_trail (strip s).
Proof. apply rstrip_no_trail. Qed.

Lemma strip_no_lead s : no_lead (strip s).
Proof.
  unfold strip, strip_by. pose proof (lstrip_no_lead s) as H.
  destruct (rstrip_take isspace (lstrip_by isspace s)) as [[|m] ->]; [by rewrite take_0|].
  by destruct (lstrip_by isspace s).
Qed.

Lemma strip_nonempty s : s ≠ [] → no_trail s → strip s ≠ [].
Proof.
  intros Hs Ht. destruct (reverse s) as [|c r] eqn:Hr.
  { destruct Hs. by rewrite <- (reverse_involutive s), Hr. }
  assert (s = reverse r ++ [c]) as ->.
  { by rewrite <- (reverse_involutive s), Hr, reverse_cons. }
  apply no_trail_snoc in Ht. rewrite strip_snoc by done.
  by destruct (lstrip_by isspace (reverse r)).
Qed.

(** ** Single spacing *)

Lemma single_spaced_app_inv a b :
  single_spaced (a ++ b) → single_spaced a ∧ single_spaced b.
Proof.
  induction a as [|c a IH]; simpl; [done|].
  intros [Hc [Ha Hb]%IH]. split_and!; [|done..].
  intros [-> Hl]%Hc. split; [done|]. by destruct a.
Qed.

Lemma single_spaced_app a b :
  single_spaced a → no_trail a → single_spaced b → single_spaced (a ++ b).
Proof.
  intros Ha Ht Hb. induction a as [|c a IH]; [done|]. simpl in *.
  destruct Ha as [Hc Ha]. destruct a as [|c' a].
  - apply (no_trail_snoc []) in Ht. simpl. split; [|done]. by rewrite Ht.
  - split; [|apply IH; [done|by apply (no_trail_app_inv [c])]].
    intros [-> Hl]%Hc. done.
Qed.

Lemma single_spaced_elem s c : single_spaced s → c ∈ s → isspace c = true → c = sp.
Proof.
  induction s as [|x s IH]; [by intros _ ?%elem_of_nil|].
  intros [Hx Hs] [->|Hin]%elem_of_cons Hc; [by apply Hx|by apply IH].
Qed.

Lemma single_spaced_strip s : single_spaced s → single_spaced (strip s).
Proof.
  intros Hs. destruct (strip_infix s) as (a & b & Heq). rewrite Heq in Hs.
  by apply single_spaced_app_inv in Hs as [_ [? _]%single_spaced_app_inv].
Qed.

Lemma single_spaced_nospace s :
  Forall (λ c, isspace c = false) s → single_spaced s.
Proof.
  induction 1 as [|c s Hc Hs IH]; simpl; [done|]. split; [|done]. by rewrite Hc.
Qed.

Lemma block_join L :
  Forall block L → L ≠ [] → block (join (lit " ") L).
Proof.
  induction 1 as [|s L Hs HL IH]; [done|]. intros _.
  destruct L as [|s' L]; [done|].
  destruct IH as (Hne & Hl & Ht & Hss); [done|].
  destruct Hs as (Hsne & Hsl & Hst & Hsss).
  change (join (lit " ") (s :: s' :: L)) with (s ++ sp :: join (lit " ") (s' :: L)).
  split_and!.
  - by destruct s.
  - by apply no_lead_app.
  - apply no_trail_app; [done|]. by apply (no_trail_app [sp]).
  - apply single_spaced_app; [done..|]. simpl. split; [|done]. done.
Qed.

(** ** The sentence loop, character by character *)

Lemma delim_free_not_in part :
  part ≠ [] → delim_free part → str_in part (lit ".!?") = false.
Proof.
  intros Hne Hdf. apply str_in_false. intros i (a & b & Heq & _).
  destruct part as [|c part]; [done|]. apply Forall_cons in Hdf as [Hc _].
  assert (c ∈ lit ".!?") as Hin.
  { rewrite Heq. apply elem_of_app. right. left. }
  unfold is_delim in Hc. rewrite !orb_false_iff, !bool_decide_eq_false in Hc.
  destruct Hc as [[? ?] ?].
  by repeat apply elem_of_cons in Hin as [->|Hin]; [..|apply elem_of_nil in Hin].
Qed.

Lemma delim_in c : is_delim c = true → str_in [c] (lit ".!?") = true.
Proof.
  unfold is_delim. rewrite !orb_true_iff, !bool_decide_eq_true.
  by intros [[->| ->]| ->].
Qed.

Lemma strip_delim_nonempty cur c : is_delim c = true → strip (cur ++ [c]) ≠ [].
Proof.
  intros Hc%is_delim_not_space. rewrite strip_snoc by done.
  by destruct (lstrip_by isspace cur).
Qed.

Lemma sentence_step_text sentences part :
  delim_free part → sentence_step (sentences, []) part = (sentences, part).
Proof.
  intros Hp. unfold sentence_step. case_bool_decide as Hn; [by subst|].
  by rewrite delim_free_not_in.
Qed.

Lemma sentence_step_delim sentences cur c :
  is_delim c = true →
  sentence_step (sentences, cur) [c] = (sentences ++ [strip (cur ++ [c])], []).
Proof.
  intros Hc. unfold sentence_step. rewrite bool_decide_eq_false_2 by done.
  rewrite (delim_in c Hc).
  by rewrite bool_decide_eq_false_2 by by apply strip_delim_nonempty.
Qed.

Lemma sentence_loop sentences cur s :
  delim_free cur →
  foldl sentence_step (sentences, []) (re_split_delims_go cur s)
  = (sentences ++ (sent_chars cur s).1, (sent_chars cur s).2).
Proof.
  revert sentences cur. induction s as [|c s IH]; intros sentences cur Hcur;
    cbn [re_split_delims_go sent_chars].
  - cbn [foldl]. rewrite sentence_step_text by done. by rewrite app_nil_r.
  - destruct (is_delim c) eqn:Hc.
    + cbn [foldl]. rewrite sentence_step_text by done.
      rewrite sentence_step_delim by done.
      rewrite IH by constructor. destruct (sent_chars [] s) as [S r]. simpl.
      by rewrite <- app_assoc.
    + apply IH. apply Forall_app. by repeat constructor.
Qed.

Lemma split_sentences_chars s : split_sentences s = sentences_from [] s.
Proof.
  unfold split_sentences, re_split_delims, sentences_from.
  rewrite sentence_loop by constructor. by destruct (sent_chars [] s).
Qed.

Lemma sent_chars_delim_free cur x s :
  delim_free x → sent_chars cur (x ++ s) = sent_chars (cur ++ x) s.
Proof.
  intros Hx. revert cur. induction Hx as [|c x Hc Hx IH]; intros cur; simpl.
  - by rewrite app_nil_r.
  - rewrite Hc, IH. by rewrite <- app_assoc.
Qed.

Lemma sentences_from_delim_free cur x s :
  delim_free x → sentences_from cur (x ++ s) = sentences_from (cur ++ x) s.
Proof. intros Hx. unfold sentences_from. by rewrite sent_chars_delim_free. Qed.

Lemma sentences_from_delim cur d s :
  is_delim d = true →
  sentences_from cur (d :: s)
  = strip (cur ++ [d]) :: (if bool_decide (s = []) then [] else sentences_from [] s).
Proof.
  intros Hd. unfold sentences_from. simpl. rewrite Hd.
  destruct s as [|c s]; [done|]. rewrite bool_decide_eq_false_2 by done.
  destruct (sent_chars [] (c :: s)) as [S r]. by case_bool_decide.
Qed.

Lemma sentences_from_nil cur :
  sentences_from cur [] = if bool_decide (cur = []) then [] else [strip cur].
Proof. done. Qed.

(** ** Sentences of a joined list, and back *)

Lemma complete_not_delim_free s : complete s → delim_free s → False.
Proof.
  intros (body & d & -> & _ & Hd) [_ Hd']%Forall_app.
  apply Forall_cons in Hd' as [Hd' _]. congruence.
Qed.

Lemma strip_pad pad s :
  pad = [] ∨ pad = [sp] → no_lead s → no_trail s → strip (pad ++ s) = s.
Proof. intros [->| ->] ??; simpl; rewrite ?strip_sp; by apply strip_id. Qed.

Lemma sentences_from_one pad s :
  pad = [] ∨ pad = [sp] → sentence s → sentences_from pad s = [s].
Proof.
  intros Hpad [(Hne & Hl & Ht & _) [(body & d & -> & Hb & Hd)|Hdf]].
  - rewrite sentences_from_delim_free, sentences_from_delim by done. simpl.
    by rewrite <- app_assoc, strip_pad.
  - pose proof (sentences_from_delim_free pad s [] Hdf) as Heq.
    rewrite app_nil_r in Heq. rewrite Heq, sentences_from_nil.
    rewrite bool_decide_eq_false_2 by (by destruct pad, s).
    by rewrite strip_pad.
Qed.

Lemma shaped_join_nonempty L : shaped L → L ≠ [] → join (lit " ") L ≠ [].
Proof.
  destruct L as [|s L]; [done|]. intros [[(Hne & _) _] _] _.
  destruct L; simpl; by destruct s.
Qed.

Lemma sentences_from_join pad L :
  pad = [] ∨ pad = [sp] → shaped L → L ≠ [] →
  sentences_from pad (join (lit " ") L) = L.
Proof.
  revert pad. induction L as [|s L IH]; intros pad Hpad HL Hne; [done|].
  destruct HL as (Hs & Hc & HL). destruct L as [|s' L].
  { by apply sentences_from_one. }
  destruct (Hc ltac:(done)) as (body & d & -> & Hb & Hd).
  destruct Hs as [(_ & Hl & Ht & _) _].
  change (join (lit " ") ((body ++ [d]) :: s' :: L))
    with ((body ++ [d]) ++ sp :: join (lit " ") (s' :: L)).
  rewrite <- !app_assoc. simpl.
  rewrite sentences_from_delim_free, sentences_from_delim by done.
  rewrite bool_decide_eq_false_2 by done.
  rewrite <- app_assoc, strip_pad by done. f_equal.
  change (sentences_from [] ([sp] ++ join (lit " ") (s' :: L)) = s' :: L).
  rewrite (sentences_from_delim_free [] [sp] (join (lit " ") (s' :: L)))
    by by repeat constructor.
  apply IH; [by right|done..].
Qed.

Lemma block_strip s : single_spaced s → s ≠ [] → no_trail s → block (strip s).
Proof.
  intros Hss Hne Ht. split_and!.
  - by apply strip_nonempty.
  - apply strip_no_lead.
  - apply strip_no_trail.
  - by apply single_spaced_strip.
Qed.

Lemma delim_free_strip s : delim_free s → delim_free (strip s).
Proof.
  intros Hs. destruct (strip_infix s) as (a & b & Heq). rewrite Heq in Hs.
  by apply Forall_app in Hs as [_ [? _]%Forall_app].
Qed.

Lemma delim_free_lstrip s : delim_free s → delim_free (lstrip_by isspace s).
Proof.
  intros Hs. destruct (lstrip_drop isspace s) as [k ->]. by apply Forall_drop.
Qed.

Lemma sentences_from_shaped cur s :
  delim_free cur → single_spaced (cur ++ s) → no_trail (cur ++ s) →
  shaped (sentences_from cur s).
Proof.
  revert cur. induction s as [|c s IH]; intros cur Hcur Hss Ht.
  - rewrite sentences_from_nil. rewrite app_nil_r in *.
    case_bool_decide as Hne; [done|]. simpl. split_and!; [|done..].
    split; [by apply block_strip|]. right. by apply delim_free_strip.
  - assert (cur ++ c :: s = (cur ++ [c]) ++ s) as Heq by by rewrite <- app_assoc.
    rewrite Heq in Hss, Ht.
    destruct (is_delim c) eqn:Hc.
    + rewrite sentences_from_delim by done.
      assert (complete (strip (cur ++ [c]))) as Hcomplete.
      { rewrite strip_snoc by by apply is_delim_not_space.
        eexists _, _. split; [done|]. split; [by apply delim_free_lstrip|done]. }
      assert (sentence (strip (cur ++ [c]))) as Hsent.
      { split; [|by left]. apply block_strip.
        - by apply single_spaced_app_inv in Hss as [? _].
        - by destruct cur.
        - by apply no_trail_snoc, is_delim_not_space. }
      simpl. split_and!; [done..|].
      case_bool_decide; [done|]. apply IH; [constructor| |].
      * by apply single_spaced_app_inv in Hss as [_ ?].
      * by apply no_trail_app_inv in Ht.
    + change (c :: s) with ([c] ++ s).
      rewrite (sentences_from_delim_free cur [c] s) by by repeat constructor.
      apply IH; [|done..].
      apply Forall_app. by repeat constructor.
Qed.

(** ** De-duplication *)

Lemma unique_step_spec L : ∀ seen U,
  (∀ x, x ∈ seen ↔ x ∈ U) →
  ∃ K, (foldl unique_step (seen, U) L).2 = U ++ K
       ∧ sublist K L
       ∧ (NoDup U → NoDup (U ++ K))
       ∧ (∀ x, x ∈ L → x ∈ U ++ K)
       ∧ (NoDup L → (∀ x, x ∈ L → x ∉ U) → K = L).
Proof.
  induction L as [|s L IH]; intros seen U Hseen.
  - exists []. rewrite app_nil_r. split_and!; try done. by intros x ?%elem_of_nil.
  - cbn [foldl]. unfold unique_step at 2. case_bool_decide as Hs.
    + destruct (IH seen U Hseen) as (K & HK & Hsub & Hnd & Hin & Hid).
      exists K. split_and!; [done|by apply sublist_cons|done| |].
      * intros x [->|?]%elem_of_cons; [|by apply Hin].
        apply elem_of_app. left. by apply Hseen.
      * intros _ Hnot. destruct (Hnot s); [left|by apply Hseen].
    + destruct (IH ({[s]} ∪ seen) (U ++ [s])) as (K & HK & Hsub & Hnd & Hin & Hid).
      { intros x. rewrite elem_of_union, elem_of_singleton, elem_of_app,
          list_elem_of_singleton, Hseen. tauto. }
      assert (U ++ s :: K = (U ++ [s]) ++ K) as Heq by by rewrite <- app_assoc.
      exists (s :: K). rewrite HK, Heq. split_and!; [done|by apply sublist_skip| | |].
      * intros HU. apply Hnd.
        apply NoDup_app. split_and!; [done| |apply NoDup_singleton].
        intros x Hx ->%list_elem_of_singleton. by apply Hs, Hseen.
      * intros x [->|?]%elem_of_cons; [|by apply Hin].
        apply elem_of_app. left. apply elem_of_app. right. left.
      * intros [Hs' HL]%NoDup_cons Hnot. f_equal. apply Hid; [done|].
        intros x Hx [?| ->%list_elem_of_singleton]%elem_of_app; [|done].
        apply (Hnot x); [by right|done].
Qed.

Lemma unique_spec L :
  NoDup (unique L) ∧ sublist (unique L) L ∧ (∀ x, x ∈ L → x ∈ unique L).
Proof.
  destruct (unique_step_spec L ∅ []) as (K & HK & Hsub & Hnd & Hin & _).
  { intros x. by rewrite elem_of_empty, elem_of_nil. }
  unfold unique. rewrite HK. simpl. split_and!; [by apply Hnd, NoDup_nil|done|done].
Qed.

Lemma unique_id L : NoDup L → unique L = L.
Proof.
  intros HL. destruct (unique_step_spec L ∅ []) as (K & HK & _ & _ & _ & Hid).
  { intros x. by rewrite elem_of_empty, elem_of_nil. }
  unfold unique. rewrite HK. simpl. apply Hid; [done|]. by intros x _ ?%elem_of_nil.
Qed.

Lemma shaped_sublist K L : sublist K L → shaped L → shaped K.
Proof.
  induction 1 as [|x K L Hsub IH|x K L Hsub IH]; [done| |].
  - intros (Hx & Hc & HL). simpl. split_and!; [done| |by apply IH].
    intros HK. apply Hc. intros ->. by apply sublist_nil_r in Hsub.
  - intros (_ & _ & HL). by apply IH.
Qed.

Lemma shaped_blocks L : shaped L → Forall block L.
Proof.
  induction L as [|s L IH]; [done|]. intros ([Hs _] & _ & HL). constructor; [done|by apply IH].
Qed.

(** ** Normalising white space *)

Lemma flush_join cur rest :
  rest ≠ [] → join (lit " ") (flush cur ++ rest)
  = if bool_decide (cur = []) then join (lit " ") rest
    else cur ++ sp :: join (lit " ") rest.
Proof. intros Hr. destruct cur, rest; done. Qed.

Lemma split_go_join s : ∀ cur,
  single_spaced s → no_trail (cur ++ s) → (cur = [] → no_lead s) →
  join (lit " ") (split_go cur s) = cur ++ s.
Proof.
  induction s as [|c s IH]; intros cur Hss Ht Hl; simpl.
  - rewrite app_nil_r. by destruct cur.
  - destruct Hss as [Hc Hss]. destruct (isspace c) eqn:Hsp.
    + destruct (Hc eq_refl) as [-> Hls].
      assert (cur ≠ []) as Hcur by (intros ->; by specialize (Hl eq_refl)).
      assert (s ≠ []) as Hs.
      { intros ->. by apply no_trail_snoc in Ht. }
      assert (join (lit " ") (split_go [] s) = s) as Hj.
      { apply (IH []); [done| |done]. by apply (no_trail_app_inv (cur ++ [sp])), 
          (eq_rect _ no_trail Ht), (assoc_L (++) cur [sp] s). }
      rewrite flush_join by (intros Hnil; by rewrite Hnil in Hj).
      by rewrite bool_decide_eq_false_2, Hj.
    + rewrite IH; [by rewrite <- app_assoc|done| |by destruct cur].
      by rewrite <- app_assoc.
Qed.

Lemma split_go_words s : ∀ cur,
  nospace cur → Forall (λ w, w ≠ [] ∧ nospace w) (split_go cur s).
Proof.
  induction s as [|c s IH]; intros cur Hcur; simpl.
  - destruct cur; simpl; [apply Forall_nil_2|].
    by apply Forall_cons_2; [|apply Forall_nil_2].
  - destruct (isspace c) eqn:Hc.
    + apply Forall_app. split; [|by apply IH, Forall_nil_2].
      destruct cur; simpl; [apply Forall_nil_2|].
      by apply Forall_cons_2; [|apply Forall_nil_2].
    + apply IH, Forall_app. split; [done|]. by apply Forall_cons_2; [|apply Forall_nil_2].
Qed.

Lemma word_block w : w ≠ [] → nospace w → block w.
Proof.
  intros Hne Hw. split_and!; [done| | |by apply single_spaced_nospace].
  - destruct w; [done|]. by apply Forall_cons in Hw as [? _].
  - unfold no_trail. destruct (reverse w) as [|c r] eqn:Hr; [done|]. simpl.
    assert (c ∈ w) as Hin. { rewrite <- elem_of_reverse, Hr. left. }
    by eapply (proj1 (Forall_forall _ _) Hw).
Qed.

Lemma cleaned_block text : cleaned text ≠ [] → block (cleaned text).
Proof.
  intros Hne. unfold cleaned in *. apply block_join; [|by intros Heq; rewrite Heq in Hne].
  eapply Forall_impl; [apply split_go_words, Forall_nil_2|].
  intros w [??]. by apply word_block.
Qed.

Lemma block_cleaned s : block s → cleaned s = s.
Proof.
  intros (Hne & Hl & Ht & Hss). unfold cleaned. rewrite strip_id by done.
  by apply (split_go_join s []).
Qed.

(** ** Prefixes of a joined list *)

Lemma delim_free_prefix_of_sentence s p q :
  sentence s → s = p ++ q → q ≠ [] → delim_free p.
Proof.
  intros [_ [(body & d & -> & Hb & _)|Hdf]] Heq Hq.
  - destruct q as [|c q _] using rev_ind; [done|].
    rewrite app_assoc in Heq. apply app_inj_tail in Heq as [-> _].
    by apply Forall_app in Hb as [? _].
  - rewrite Heq in Hdf. by apply Forall_app in Hdf as [? _].
Qed.

Lemma shaped_take_partial L k x :
  shaped L → NoDup L → k < length L → block x → delim_free x →
  shaped (take k L ++ [x]) ∧ NoDup (take k L ++ [x]).
Proof.
  revert k. induction L as [|s L IH]; intros k HL Hnd Hk Hx Hdf;
    [simpl in Hk; lia|]. destruct HL as (Hs & Hc & HL).
  apply NoDup_cons in Hnd as [Hs' Hnd]. destruct k as [|k]; simpl.
  - split; [|apply NoDup_singleton]. split_and!; [|done..]. split; [done|by right].
  - assert (complete s) as Hcs.
    { apply Hc. destruct L; [simpl in Hk; lia|done]. }
    destruct (IH k) as [IH1 IH2]; [done|done|simpl in Hk; lia|done..|].
    split.
    + split_and!; [done|done|done].
    + apply NoDup_cons. split; [|done].
      intros [Hin| ->%list_elem_of_singleton]%elem_of_app.
      * apply Hs'. by eapply elem_of_take_in.
      * by eapply complete_not_delim_free.
Qed.

Lemma prefix_app_cases {A} (p a b : list A) :
  p `prefix_of` a ++ b → p `prefix_of` a ∨ ∃ p', p = a ++ p' ∧ p' `prefix_of` b.
Proof.
  intros [k Hk]. symmetry in Hk. apply app_eq_inv in Hk as [(m & -> & ->)|(m & -> & ->)].
  - right. exists m. split; [done|]. by exists k.
  - left. by exists m.
Qed.

Lemma join_cons (s : str) L :
  join (lit " ") (s :: L)
  = s ++ (if bool_decide (L = []) then [] else sp :: join (lit " ") L).
Proof. destruct L; simpl; [by rewrite app_nil_r|done]. Qed.

Lemma join_prefix L : shaped L → NoDup L → ∀ p,
  p `prefix_of` join (lit " ") L → no_trail p →
  ∃ k tl, p = join (lit " ") (take k L ++ tl) ∧ length tl ≤ 1
          ∧ shaped (take k L ++ tl) ∧ NoDup (take k L ++ tl).
Proof.
  intros HL Hnd.
  cut (∀ p, p `prefix_of` join (lit " ") L → no_trail p →
         ∃ k tl, p = join (lit " ") (take k L ++ tl)
           ∧ (tl = [] ∨ ∃ x, tl = [x] ∧ k < length L ∧ block x ∧ delim_free x)).
  { intros Hcut p Hp Ht. destruct (Hcut p Hp Ht) as (k & tl & -> & [->|(x & -> & ? & ? & ?)]).
    - exists k, []. rewrite app_nil_r. split_and!; [done|simpl; lia| |].
      + eapply shaped_sublist; [apply sublist_take|done].
      + eapply sublist_NoDup; [done|apply sublist_take].
    - exists k, [x]. split_and!; [done|simpl; lia|by apply shaped_take_partial..]. }
  clear Hnd. induction L as [|s L IH]; intros p Hp Ht.
  { exists 0, []. apply prefix_nil_inv in Hp as ->. by split; [|left]. }
  destruct HL as (Hs & Hc & HL).
  assert (p = s → ∃ k tl, p = join (lit " ") (take k (s :: L) ++ tl)
           ∧ (tl = [] ∨ ∃ x, tl = [x] ∧ k < length (s :: L) ∧ block x ∧ delim_free x))
    as Hwhole.
  { intros ->. exists 1, []. split; [|by left]. by destruct L. }
  rewrite join_cons in Hp. apply prefix_app_cases in Hp as [[q Hq]|(p' & -> & Hp')].
  - destruct p as [|c p]; [exists 0, []; by split; [|left]|].
    destruct q as [|c' q]; [apply Hwhole; by rewrite app_nil_r in Hq|].
    exists 0, [c :: p]. split; [done|]. right. exists (c :: p).
    pose proof Hs as [(Hne & Hl & _ & Hss) Hkind].
    split_and!; [done|simpl; lia| |].
    + split_and!; [done| |done|].
      * rewrite Hq in Hl. done.
      * rewrite Hq in Hss. by apply single_spaced_app_inv in Hss as [? _].
    + by eapply (delim_free_prefix_of_sentence s _ (c' :: q)).
  - case_bool_decide as HLnil.
    { apply prefix_nil_inv in Hp' as ->. apply Hwhole. by rewrite app_nil_r. }
    destruct p' as [|c p'']; [apply Hwhole; by rewrite app_nil_r|].
    apply prefix_cons_inv_1 in Hp' as Hc'. subst c.
    apply prefix_cons_inv_2 in Hp'.
    assert (p'' ≠ []) as Hne.
    { intros ->. by apply (no_trail_snoc s sp) in Ht. }
    assert (no_trail p'') as Ht''.
    { apply (no_trail_app_inv (s ++ [sp])). by rewrite <- app_assoc. }
    destruct (IH HL p'' Hp' Ht'') as (k & tl & Heq & Htl).
    exists (S k), tl. split.
    + change (take (S k) (s :: L) ++ tl) with (s :: (take k L ++ tl)).
      rewrite join_cons, <- Heq.
      rewrite bool_decide_eq_false_2; [done|].
      intros Hnil. rewrite Hnil in Heq. done.
    + destruct Htl as [->|(x & -> & ? & ? & ?)]; [by left|].
      right. exists x. split_and!; [done|simpl; lia|done..].
Qed.

(** ** Truncation *)

Lemma last_index_None c s : last_index c s = None → c ∉ s.
Proof.
  induction s as [|x s IH]; simpl; [by intros _ ?%elem_of_nil|].
  destruct (last_index c s); [done|]. case_bool_decide as Hx; [done|].
  intros _ [->|Hin]%elem_of_cons; [done|]. by apply IH.
Qed.

Lemma last_index_Some c s i :
  last_index c s = Some i →
  s !! i = Some c ∧ ∀ j, i < j → s !! j ≠ Some c.
Proof.
  revert i. induction s as [|x s IH]; intros i; simpl; [done|].
  destruct (last_index c s) as [k|] eqn:Hk.
  - intros [= <-]. destruct (IH k eq_refl) as [H1 H2]. split; [done|].
    intros [|j] Hj; [lia|]. simpl. apply H2. lia.
  - case_bool_decide as Hx; [|done]. intros [= <-]. subst x. split; [done|].
    intros [|j] Hj; [lia|]. simpl. intros Hin.
    apply last_index_None in Hk. apply Hk. by eapply list_elem_of_lookup_2.
Qed.

Lemma slice_to_nonneg {A} (l : list A) (k : Z) :
  (0 <= k)%Z → slice_to l k = take (Z.to_nat k) l.
Proof.
  intros Hk. unfold slice_to, clamp. destruct (Z.ltb_spec k 0); [lia|].
  destruct (decide (Z.to_nat k ≤ length l)).
  - by rewrite Nat.min_l.
  - rewrite Nat.min_r by lia. by rewrite !take_ge by lia.
Qed.

Lemma lookup_take_Some {A} (l : list A) n i x :
  take n l !! i = Some x → l !! i = Some x ∧ i < n.
Proof.
  intros H. assert (i < n).
  { apply lookup_lt_Some in H. rewrite length_take in H. lia. }
  by rewrite lookup_take_lt in H.
Qed.

Lemma compress_text_unfold text n :
  compress_text text n =
  if bool_decide (cleaned text = []) then []
  else
    let result := join (lit " ") (unique (split_sentences (cleaned text))) in
    if (Z.of_nat (length result) <=? n)%Z then result
    else
      let cut := rfind result sp n in
      if (cut =? -1)%Z then slice_to result n else rstrip (slice_to result cut).
Proof. done. Qed.

Lemma kept_shaped text :
  let kept := unique (split_sentences (cleaned text)) in
  shaped kept ∧ NoDup kept.
Proof.
  intros kept. destruct (unique_spec (split_sentences (cleaned text))) as (Hnd & Hsub & _).
  split; [|done]. eapply shaped_sublist; [done|].
  rewrite split_sentences_chars.
  destruct (decide (cleaned text = [])) as [->|Hne]; [done|].
  destruct (cleaned_block text Hne) as (_ & _ & Ht & Hss).
  by apply sentences_from_shaped; [apply Forall_nil_2|..].
Qed.

(** What the truncation branch returns, for a budget [n ≥ 0] exceeded by
    a single-spaced [result]. *)
Lemma truncate_cases (result : str) n :
  (0 <= n)%Z → (n < Z.of_nat (length result))%Z →
  let cut := rfind result sp n in
  let out := if (cut =? -1)%Z then slice_to result n else rstrip (slice_to result cut) in
  (∃ c, (Z.of_nat c < n)%Z ∧ result !! c = Some sp
        ∧ (∀ j, c < j → (Z.of_nat j < n)%Z → result !! j ≠ Some sp)
        ∧ out = rstrip (take c result))
  ∨ ((∀ j, (Z.of_nat j < n)%Z → result !! j ≠ Some sp)
     ∧ out = take (Z.to_nat n) result).
Proof.
  intros Hn Hlen cut out. subst cut out. unfold rfind.
  rewrite (slice_to_nonneg result n) by done.
  destruct (last_index sp (take (Z.to_nat n) result)) as [c|] eqn:Hc.
  - left. apply last_index_Some in Hc as [Hc Hlast].
    apply lookup_take_Some in Hc as [Hc Hcn]. exists c.
    destruct (Z.eqb_spec (Z.of_nat c) (-1)); [lia|].
    rewrite slice_to_nonneg by lia. rewrite Nat2Z.id.
    split_and!; [lia|done| |done].
    intros j Hj Hjn Hin. apply (Hlast j Hj). rewrite lookup_take_lt by lia. done.
  - right. simpl. split; [|done]. intros j Hj Hin.
    apply last_index_None in Hc. apply Hc.
    apply (list_elem_of_lookup_2 _ j). rewrite lookup_take_lt by lia. done.
Qed.

Lemma truncate_prefix (result : str) n :
  (0 <= n)%Z → (n < Z.of_nat (length result))%Z → single_spaced result →
  let cut := rfind result sp n in
  let out := if (cut =? -1)%Z then slice_to result n else rstrip (slice_to result cut) in
  out `prefix_of` result ∧ no_trail out ∧ (Z.of_nat (length out) <= n)%Z.
Proof.
  intros Hn Hlen Hss cut out.
  destruct (truncate_cases result n Hn Hlen) as [(c & Hc & _ & _ & Hout)|[Hno Hout]];
    fold cut in Hout; fold out in Hout; rewrite Hout.
  - destruct (rstrip_take isspace (take c result)) as [k Hk]. unfold rstrip. rewrite Hk.
    split_and!.
    + rewrite take_take. apply prefix_take.
    + rewrite <- Hk. apply rstrip_no_trail.
    + rewrite !length_take. lia.
  - split_and!; [apply prefix_take| |rewrite length_take; lia].
    unfold no_trail. destruct (reverse (take (Z.to_nat n) result)) as [|x r] eqn:Hr; [done|].
    simpl. assert (x ∈ take (Z.to_nat n) result) as Hx.
    { rewrite <- elem_of_reverse, Hr. left. }
    destruct (isspace x) eqn:Hsp; [|done]. exfalso.
    apply list_elem_of_lookup_1 in Hx as [j Hj].
    apply lookup_take_Some in Hj as [Hj Hjn].
    apply (Hno j); [lia|]. rewrite Hj. f_equal.
    apply (single_spaced_elem result); [done| |done]. by eapply list_elem_of_lookup_2.
Qed.

(** ** The shape of the result, and its stability *)

Lemma compress_text_shape text n :
  (0 <= n)%Z →
  let kept := unique (split_sentences (cleaned text)) in
  ∃ k tl, compress_text text n = join (lit " ") (take k kept ++ tl)
          ∧ length tl ≤ 1
          ∧ shaped (take k kept ++ tl) ∧ NoDup (take k kept ++ tl)
          ∧ (Z.of_nat (length (compress_text text n)) <= n)%Z.
Proof.
  intros Hn kept. destruct (kept_shaped text) as [Hsh Hnd]. fold kept in Hsh, Hnd.
  rewrite compress_text_unfold. fold kept. case_bool_decide as Hc.
  { exists 0, []. simpl. split_and!; [done|lia|done|apply NoDup_nil_2|lia]. }
  cbv zeta. destruct (Z.leb_spec (Z.of_nat (length (join (lit " ") kept))) n) as [Hle|Hgt].
  { exists (length kept), []. rewrite app_nil_r, take_ge by lia.
    split_and!; [done|simpl; lia|done..]. }
  assert (single_spaced (join (lit " ") kept)) as Hss.
  { destruct kept as [|s kept'] eqn:Hk; [done|].
    apply block_join; [by apply shaped_blocks|done]. }
  destruct (truncate_prefix _ n Hn Hgt Hss) as (Hpre & Ht & Hlen).
  destruct (join_prefix kept Hsh Hnd _ Hpre Ht) as (k & tl & Heq & Htl & Hsh' & Hnd').
  exists k, tl. by rewrite <- Heq.
Qed.

Lemma compress_text_fixed L n :
  shaped L → NoDup L → (Z.of_nat (length (join (lit " ") L)) <= n)%Z →
  compress_text (join (lit " ") L) n = join (lit " ") L.
Proof.
  intros Hsh Hnd Hlen. rewrite compress_text_unfold.
  destruct L as [|s L'] eqn:HL; [done|]. rewrite <- HL in *.
  assert (L ≠ []) as Hne by by rewrite HL.
  assert (cleaned (join (lit " ") L) = join (lit " ") L) as ->.
  { apply block_cleaned, block_join; [by apply shaped_blocks|done]. }
  rewrite bool_decide_eq_false_2 by by apply shaped_join_nonempty.
  rewrite split_sentences_chars, sentences_from_join by (done || by left).
  rewrite unique_id by done. cbv zeta.
  by destruct (Z.leb_spec (Z.of_nat (length (join (lit " ") L))) n); [|lia].
Qed.

(** C3, as amended.  For a budget [n ≥ 0], [compress_text] is idempotent:
    compressing its result again with the same budget returns it
    unchanged. *)
Theorem compress_text_idempotent text n :
  (0 <= n)%Z → compress_text (compress_text text n) n = compress_text text n.
Proof.
  intros Hn. destruct (compress_text_shape text n Hn) as (k & tl & Heq & _ & Hsh & Hnd & Hlen).
  rewrite Heq in *. by apply compress_text_fixed.
Qed.

Lemma compress_text_idempotent_witness :
  (0 <= 20)%Z
  ∧ compress_text (compress_text (lit "  Use caching.  Use caching. Then   rest!a.b") 20) 20
    = compress_text (lit "  Use caching.  Use caching. Then   rest!a.b") 20.
Proof.
  split; [lia|].
  apply (compress_text_idempotent (lit "  Use caching.  Use caching. Then   rest!a.b") 20).
  lia.
Defined.

(** C3 as stated fails for a negative budget: the slice drops a character
    at each pass. *)
Lemma compress_text_negative_budget :
  compress_text (lit "abc") (-1) = lit "ab"
  ∧ compress_text (compress_text (lit "abc") (-1)) (-1) = lit "a"
  ∧ compress_text (compress_text (lit "abc") (-1)) (-1) ≠ compress_text (lit "abc") (-1).
Proof. split_and!; [vm_compute; reflexivity..|]. vm_compute. discriminate. Qed.

Lemma split_sentences_join L : shaped L → split_sentences (join (lit " ") L) = L.
Proof.
  intros Hsh. destruct L as [|s L'] eqn:HL; [done|]. rewrite <- HL in *.
  rewrite split_sentences_chars. apply sentences_from_join; [by left|done|by rewrite HL].
Qed.

(** C4, as amended.  For a budget [n ≥ 0] the result is at most [n] long;
    the sentences kept are those of the text in their order, each once; the
    sentences of the result are the first of them, the last possibly cut,
    none twice; a joined text within the budget is returned whole;
    otherwise the result is cut at the last space strictly before index
    [n] and trimmed, or, when none of the first [n] characters is a space,
    it is the first [n] characters. *)
Theorem compress_text_spec text n :
  (0 <= n)%Z →
  let sentences := split_sentences (cleaned text) in
  let kept := unique sentences in
  let result := join (lit " ") kept in
  let out := compress_text text n in
  (Z.of_nat (length out) <= n)%Z
  ∧ NoDup kept ∧ kept `sublist_of` sentences ∧ (∀ s, s ∈ sentences → s ∈ kept)
  ∧ (∃ k tl, split_sentences out = take k kept ++ tl ∧ length tl ≤ 1
             ∧ NoDup (take k kept ++ tl))
  ∧ out `prefix_of` result
  ∧ ((Z.of_nat (length result) <= n)%Z → out = result)
  ∧ ((n < Z.of_nat (length result))%Z →
       (∃ cut, (Z.of_nat cut < n)%Z ∧ result !! cut = Some sp
               ∧ (∀ j, cut < j → (Z.of_nat j < n)%Z → result !! j ≠ Some sp)
               ∧ out = rstrip (take cut result))
       ∨ ((∀ j, (Z.of_nat j < n)%Z → result !! j ≠ Some sp)
          ∧ out = take (Z.to_nat n) result)).
Proof.
  intros Hn sentences kept result out.
  destruct (unique_spec sentences) as (Hnd & Hsub & Hin).
  destruct (compress_text_shape text n Hn) as (k & tl & Heq & Htl & Hsh & Hnd' & Hlen).
  fold sentences kept out in Heq, Hsh, Hnd', Hlen.
  assert (out = if bool_decide (cleaned text = []) then []
                else if (Z.of_nat (length result) <=? n)%Z then result
                else let cut := rfind result sp n in
                     if (cut =? -1)%Z then slice_to result n
                     else rstrip (slice_to result cut)) as Hout by done.
  assert (cleaned text = [] → result = []) as Hempty.
  { intros Hc. subst result kept sentences. by rewrite Hc. }
  assert (single_spaced result) as Hss.
  { destruct (kept_shaped text) as [Hsh0 _]. fold sentences kept in Hsh0.
    subst result. destruct kept as [|s kept'] eqn:Hk; [done|].
    apply block_join; [by apply shaped_blocks|done]. }
  split_and!; [done..| | | |].
  - exists k, tl. split_and!; [|done..]. rewrite Heq. by apply split_sentences_join.
  - rewrite Hout. case_bool_decide as Hc; [apply prefix_nil|].
    destruct (Z.leb_spec (Z.of_nat (length result)) n) as [Hle|Hgt]; [done|].
    by destruct (truncate_prefix result n Hn Hgt Hss) as [? _].
  - intros Hle. rewrite Hout. case_bool_decide as Hc; [by rewrite Hempty|].
    by destruct (Z.leb_spec (Z.of_nat (length result)) n); [|lia].
  - intros Hgt. rewrite Hout. case_bool_decide as Hc.
    { rewrite (Hempty Hc) in Hgt. simpl in Hgt. lia. }
    destruct (Z.leb_spec (Z.of_nat (length result)) n); [lia|].
    by apply truncate_cases.
Qed.

Lemma compress_text_spec_witness :
  (0 <= 5)%Z
  ∧ (Z.of_nat (length (compress_text (lit "aa bb cc") 5)) <= 5)%Z.
Proof.
  split; [lia|].
  apply (compress_text_spec (lit "aa bb cc") 5). lia.
Defined.

(** C4 as stated fails: with a space at index [n] and another before it,
    the cut is at the earlier one. *)
Lemma compress_text_cuts_before_budget :
  join (lit " ") (unique (split_sentences (cleaned (lit "aa bb cc")))) = lit "aa bb cc"
  ∧ lit "aa bb cc" !! 5 = Some sp
  ∧ truncate_at_or_before (lit "aa bb cc") 5 = lit "aa bb"
  ∧ compress_text (lit "aa bb cc") 5 = lit "aa"
  ∧ compress_text (lit "aa bb cc") 5 ≠ truncate_at_or_before (lit "aa bb cc") 5.
Proof. split_and!; [vm_compute; reflexivity..|]. vm_compute. discriminate. Qed.

(** * The tokenizer *)

Lemma lower_char_idemp c : lower_char (lower_char c) = lower_char c.
Proof. destruct c as [[] [] [] [] [] [] [] []]; vm_compute; reflexivity. Qed.

Lemma lower_idemp s : lower (lower s) = lower s.
Proof.
  unfold lower. rewrite map_map. apply map_ext. intros c. apply lower_char_idemp.
Qed.

Lemma lower_char_token c : is_token_char c = true → lower_char c = c.
Proof. destruct c as [[] [] [] [] [] [] [] []]; vm_compute; congruence. Qed.

Lemma lower_token t : Forall (λ c, is_token_char c = true) t → lower t = t.
Proof.
  induction 1 as [|c t Hc _ IH]; [done|]. unfold lower in *. simpl.
  by rewrite IH, lower_char_token.
Qed.

Lemma isspace_lower_char c : isspace (lower_char c) = isspace c.
Proof. destruct c as [[] [] [] [] [] [] [] []]; vm_compute; reflexivity. Qed.

Lemma tokenize_go_tokens s : ∀ cur b,
  Forall (λ c, is_token_char c = true) cur →
  Forall token (filter (λ t, t ≠ []) (re_split_nontoken_go cur b s)).
Proof.
  induction s as [|c s IH]; intros cur b Hcur; simpl.
  - rewrite filter_cons. case_decide; [|constructor].
    constructor; [by split|constructor].
  - destruct (is_token_char c) eqn:Hc.
    + apply IH. apply Forall_app. split; [done|]. by constructor.
    + destruct b; [by apply IH|].
      rewrite filter_cons. case_decide.
      * constructor; [by split|]. by apply IH.
      * by apply IH.
Qed.

Lemma tokenize_go_sep s :
  filter (λ t, t ≠ []) (re_split_nontoken_go [] true s)
  = filter (λ t : str, t ≠ []) (re_split_nontoken_go [] false s).
Proof.
  destruct s as [|c s]; simpl; [done|].
  destruct (is_token_char c); [done|].
  rewrite filter_cons. by case_decide.
Qed.

Lemma tokenize_go_app t : ∀ cur s,
  Forall (λ c, is_token_char c = true) t →
  re_split_nontoken_go cur false (t ++ s) = re_split_nontoken_go (cur ++ t) false s.
Proof.
  induction t as [|c t IH]; intros cur s Ht; simpl.
  - by rewrite app_nil_r.
  - apply Forall_cons in Ht as [Hc Ht]. rewrite Hc, IH by done.
    by rewrite <- app_assoc.
Qed.

Lemma tokenize_go_join toks :
  Forall token toks →
  filter (λ t, t ≠ []) (re_split_nontoken_go [] false (join (lit " ") toks)) = toks.
Proof.
  induction 1 as [|t toks [Hne Ht] Htoks IH]; [done|].
  rewrite join_cons, tokenize_go_app by done. simpl.
  case_bool_decide as Hnil.
  - subst toks. simpl. rewrite filter_cons. by case_decide.
  - simpl. rewrite filter_cons. case_decide; [|done].
    change (" "%char :: join (lit " ") toks) with (sp :: join (lit " ") toks) in *.
    f_equal. by rewrite tokenize_go_sep.
Qed.

Lemma lower_join_tokens toks :
  Forall token toks → lower (join (lit " ") toks) = join (lit " ") toks.
Proof.
  induction 1 as [|t toks [Hne Ht] Htoks IH]; [done|].
  rewrite join_cons, lower_app, lower_token by done. f_equal.
  case_bool_decide; [done|].
  change (lower (sp :: join (lit " ") toks)) with (sp :: lower (join (lit " ") toks)).
  by rewrite IH.
Qed.

(** X1.  Every token [_tokenize] returns is a non-empty string of
    characters of [[a-z0-9_]]; and the letter case of the text does not
    matter. *)
Theorem tokenize_tokens text :
  Forall token (_tokenize text) ∧ _tokenize (lower text) = _tokenize text.
Proof.
  split.
  - unfold _tokenize, re_split_nontoken. by apply tokenize_go_tokens.
  - unfold _tokenize. by rewrite lower_idemp.
Qed.

(** X2.  Tokens joined by single spaces are tokenized back into
    themselves. *)
Theorem tokenize_join toks :
  Forall token toks → _tokenize (join (lit " ") toks) = toks.
Proof.
  intros H. unfold _tokenize, re_split_nontoken.
  rewrite lower_join_tokens by done. by apply tokenize_go_join.
Qed.

Lemma tokenize_join_witness :
  Forall token [lit "data_base"; lit "v2"; lit "the"]
  ∧ _tokenize (join (lit " ") [lit "data_base"; lit "v2"; lit "the"])
    = [lit "data_base"; lit "v2"; lit "the"].
Proof.
  assert (Forall token [lit "data_base"; lit "v2"; lit "the"]) as H.
  { repeat constructor; vm_compute; discriminate. }
  split; [exact H|]. exact (tokenize_join _ H).
Defined.

(** * Lists without repetition

    [dedup_list] and the loop over the tags are the de-duplication loop of
    [compress_text], run on the stripped values. *)

Lemma strip_strip s : strip (strip s) = strip s.
Proof. apply strip_id; [apply strip_no_lead|apply strip_no_trail]. Qed.

Lemma lstrip_lower s : lstrip_by isspace (lower s) = lower (lstrip_by isspace s).
Proof.
  induction s as [|c s IH]; [done|].
  change (lower (c :: s)) with (lower_char c :: lower s). simpl.
  rewrite isspace_lower_char. by destruct (isspace c).
Qed.

Lemma lower_reverse s : lower (reverse s) = reverse (lower s).
Proof. unfold lower. change (map lower_char) with (fmap (M:=list) lower_char). by rewrite fmap_reverse. Qed.

Lemma strip_lower s : strip (lower s) = lower (strip s).
Proof.
  unfold strip, strip_by, rstrip_by.
  by rewrite lstrip_lower, <- lower_reverse, lstrip_lower, lower_reverse.
Qed.

Lemma normal_tag_idemp tag : lower (strip (lower (strip tag))) = lower (strip tag).
Proof. by rewrite strip_lower, strip_strip, lower_idemp. Qed.

Lemma dedup_step_unique values : ∀ st,
  foldl dedup_step st values
  = foldl unique_step st (filter (λ v, v ≠ []) (strip <$> values)).
Proof.
  induction values as [|v values IH]; intros [seen result]; [done|].
  csimpl. rewrite filter_cons. rewrite IH.
  case_decide as Hne.
  - simpl. rewrite bool_decide_eq_false_2 by done. simpl.
    by destruct (bool_decide (strip v ∈ seen)).
  - simpl. by rewrite Hne.
Qed.

Lemma dedup_list_unique values :
  dedup_list values = unique (filter (λ v, v ≠ []) (strip <$> values)).
Proof. unfold dedup_list, unique. by rewrite dedup_step_unique. Qed.

Lemma tag_step_unique tags : ∀ st,
  foldl tag_step st tags
  = foldl unique_step st (filter (λ v, v ≠ []) ((λ tag, lower (strip tag)) <$> tags)).
Proof.
  induction tags as [|v tags IH]; intros [seen result]; [done|].
  csimpl. rewrite filter_cons. rewrite IH.
  case_decide as Hne.
  - simpl. rewrite bool_decide_eq_false_2 by done. simpl.
    by destruct (bool_decide (lower (strip v) ∈ seen)).
  - simpl. by rewrite Hne.
Qed.

Lemma unique_elem L x : x ∈ unique L ↔ x ∈ L.
Proof.
  destruct (unique_spec L) as (_ & Hsub & Hin). split; [|apply Hin].
  intros Hx. by eapply elem_of_sublist.
Qed.

Lemma filter_fmap_fixed (f : str → str) (L : list str) :
  (∀ x, x ∈ L → f x = x ∧ x ≠ []) →
  filter (λ v, v ≠ []) (f <$> L) = L.
Proof.
  induction L as [|x L IH]; intros H; [done|]. csimpl.
  destruct (H x) as [-> Hne]; [left|].
  rewrite filter_cons, decide_True by done. f_equal. apply IH.
  intros y Hy. apply H. by right.
Qed.

Lemma dedup_list_elem values v :
  v ∈ dedup_list values ↔ v ≠ [] ∧ ∃ x, x ∈ values ∧ v = strip x.
Proof.
  rewrite dedup_list_unique, unique_elem, list_elem_of_filter, list_elem_of_fmap.
  split; intros [Hne (x & H1 & H2)]; (split; [done|by exists x]).
Qed.

Lemma dedup_list_NoDup values : NoDup (dedup_list values).
Proof. rewrite dedup_list_unique. apply unique_spec. Qed.

Lemma dedup_list_idemp values : dedup_list (dedup_list values) = dedup_list values.
Proof.
  rewrite (dedup_list_unique (dedup_list values)), filter_fmap_fixed.
  - apply unique_id, dedup_list_NoDup.
  - intros x [Hne (y & _ & ->)]%dedup_list_elem. split; [apply strip_strip|done].
Qed.

Lemma unique_state L x :
  x ∈ (foldl unique_step (∅, []) L).1 ↔ x ∈ (foldl unique_step (∅, []) L).2.
Proof.
  induction L as [|y L IH] using rev_ind.
  - simpl. split; [by intros ?%elem_of_empty|by intros ?%elem_of_nil].
  - rewrite foldl_app. simpl.
    destruct (foldl unique_step (∅, []) L) as [seen U]. simpl in *.
    case_bool_decide as Hy; [done|]. simpl.
    rewrite elem_of_union, elem_of_singleton, elem_of_app, list_elem_of_singleton, IH.
    by split; intros [?|?]; [right|left|right|left].
Qed.

Lemma unique_snoc L x :
  unique (L ++ [x]) = unique L ++ (if bool_decide (x ∈ unique L) then [] else [x]).
Proof.
  unfold unique. rewrite foldl_app. simpl.
  pose proof (unique_state L x) as Hx.
  destruct (foldl unique_step (∅, []) L) as [seen U]. simpl in *.
  case_bool_decide as Hs.
  - by rewrite bool_decide_eq_true_2, app_nil_r by by apply Hx.
  - by rewrite bool_decide_eq_false_2 by (by intros ?%Hx).
Qed.

Lemma dedup_list_snoc values v :
  dedup_list (values ++ [v])
  = dedup_list values
    ++ (if bool_decide (strip v = [] ∨ strip v ∈ dedup_list values) then [] else [strip v]).
Proof.
  rewrite !dedup_list_unique, fmap_app, filter_app. csimpl. rewrite filter_cons.
  case_decide as Hne.
  - rewrite unique_snoc. f_equal.
    case_bool_decide as Hin.
    + by rewrite bool_decide_eq_true_2 by by right.
    + by rewrite bool_decide_eq_false_2 by (by intros [?|?]).
  - rewrite filter_nil, app_nil_r, bool_decide_eq_true_2, app_nil_r; [done|].
    left. by destruct (decide (strip v = [])).
Qed.

(** X3.  [dedup_list] returns, without repetition and in the order of
    their first occurrence, the stripped values that are not empty: a value
    is appended when, stripped, it is not empty and not there yet.  Applied
    twice it changes nothing more. *)
Theorem dedup_list_spec values :
  NoDup (dedup_list values)
  ∧ (∀ v, v ∈ dedup_list values ↔ v ≠ [] ∧ ∃ x, x ∈ values ∧ v = strip x)
  ∧ dedup_list values `sublist_of` (strip <$> values)
  ∧ dedup_list [] = []
  ∧ (∀ v, dedup_list (values ++ [v])
          = dedup_list values
            ++ (if bool_decide (strip v = [] ∨ strip v ∈ dedup_list values)
                then [] else [strip v]))
  ∧ dedup_list (dedup_list values) = dedup_list values.
Proof.
  split_and!.
  - apply dedup_list_NoDup.
  - apply dedup_list_elem.
  - rewrite dedup_list_unique. etrans; [apply unique_spec|]. apply sublist_filter.
  - done.
  - apply dedup_list_snoc.
  - apply dedup_list_idemp.
Qed.

(** ** The tags of a compressed frame *)

Lemma tags_unique tags :
  (foldl tag_step (∅, []) tags).2
  = unique (filter (λ v, v ≠ []) ((λ tag, lower (strip tag)) <$> tags)).
Proof. unfold unique. by rewrite tag_step_unique. Qed.

Lemma tags_elem tags t :
  t ∈ sorted str_ltb (foldl tag_step (∅, []) tags).2
  ↔ t ≠ [] ∧ ∃ tag, tag ∈ tags ∧ t = lower (strip tag).
Proof.
  rewrite sorted_Permutation, tags_unique, unique_elem, list_elem_of_filter,
    list_elem_of_fmap.
  split; intros [Hne (x & H1 & H2)]; (split; [done|by exists x]).
Qed.

Lemma tags_NoDup tags : NoDup (sorted str_ltb (foldl tag_step (∅, []) tags).2).
Proof. rewrite sorted_Permutation, tags_unique. apply unique_spec. Qed.

Lemma tags_fixed tags :
  let sorted_tags := sorted str_ltb (foldl tag_step (∅, []) tags).2 in
  sorted str_ltb (foldl tag_step (∅, []) sorted_tags).2 = sorted_tags.
Proof.
  intros sorted_tags. rewrite tags_unique, filter_fmap_fixed.
  - rewrite unique_id by apply tags_NoDup.
    apply sorted_unique; [apply _|]. apply sorted_Permutation.
  - intros x [Hne (y & _ & ->)]%tags_elem. split; [apply normal_tag_idemp|done].
Qed.

(** X4.  The tags of a compressed frame are in strictly ascending order
    (so no tag is there twice), and they are the tags of the frame stripped
    and lowered, the empty ones left out. *)
Theorem compress_frame_tags frame n :
  let tags := RecapFrame.tags (compress_frame frame n) in
  StronglySorted (λ a b, str_ltb a b = true) tags
  ∧ (∀ t, t ∈ tags ↔ t ≠ [] ∧ ∃ tag, tag ∈ RecapFrame.tags frame ∧ t = lower (strip tag)).
Proof.
  simpl. split.
  - apply sorted_strict; [apply _|]. rewrite tags_unique. apply unique_spec.
  - apply tags_elem.
Qed.

(** ** Compressing twice *)

Lemma compress_text_refix text n m :
  (0 <= n)%Z → (n <= m)%Z →
  compress_text (compress_text text n) m = compress_text text n.
Proof.
  intros Hn Hm. destruct (compress_text_shape text n Hn) as (k & tl & Heq & _ & Hsh & Hnd & Hlen).
  rewrite Heq in *. apply compress_text_fixed; [done|done|lia].
Qed.

(** X5.  Compressing a compressed frame again, with the same budget or
    a larger one, changes nothing. *)
Theorem compress_frame_idempotent frame n m :
  (0 <= n)%Z → (n <= m)%Z →
  compress_frame (compress_frame frame n) m = compress_frame frame n.
Proof.
  intros Hn Hm. destruct frame as [ts kt ui so tags sem proc ps prefs ru ra].
  unfold compress_frame.
  cbn [RecapFrame.timestamp RecapFrame.key_topics RecapFrame.distilled_user_intent
       RecapFrame.distilled_system_output RecapFrame.tags RecapFrame.semantic
       RecapFrame.procedural RecapFrame.project_state RecapFrame.preferences
       RecapFrame.raw_user_message RecapFrame.raw_assistant_message
       SemanticMemory.concepts SemanticMemory.notes
       ProceduralMemory.workflows ProceduralMemory.checklists
       ProjectState.project_name ProjectState.summary ProjectState.active_workstream
       ProjectState.pending_tasks ProjectState.constraints
       Preferences.style Preferences.tone Preferences.constraints Preferences.other].
  rewrite !compress_text_refix, !dedup_list_idemp, tags_fixed by (done || lia).
  done.
Qed.

Lemma compress_frame_idempotent_witness :
  (0 <= 400)%Z ∧ (400 <= 600)%Z
  ∧ compress_frame (compress_frame older 400) 600 = compress_frame older 400.
Proof. split_and!; [lia|lia|]. apply compress_frame_idempotent; lia. Defined.

(** * White space and [compress_text] *)

Lemma lstrip_blank s : Forall (λ c, isspace c = true) s → lstrip_by isspace s = [].
Proof. induction 1 as [|c s Hc _ IH]; [done|]. simpl. by rewrite Hc. Qed.

Lemma strip_blank s : Forall (λ c, isspace c = true) s → strip s = [].
Proof. intros H. unfold strip, strip_by, rstrip_by. rewrite (lstrip_blank s) by done. reflexivity. Qed.

Lemma lstrip_decomp s :
  ∃ ws, s = ws ++ lstrip_by isspace s ∧ Forall (λ c, isspace c = true) ws.
Proof.
  induction s as [|c s (ws & Heq & Hws)]; [by exists []|]. simpl.
  destruct (isspace c) eqn:Hc.
  - exists (c :: ws). split; [by rewrite <- app_comm_cons, <- Heq|by constructor].
  - by exists [].
Qed.

Lemma rstrip_decomp s :
  ∃ ws, s = rstrip s ++ ws ∧ Forall (λ c, isspace c = true) ws.
Proof.
  destruct (lstrip_decomp (reverse s)) as (ws & Heq & Hws).
  exists (reverse ws). split; [|by apply Forall_reverse].
  unfold rstrip, rstrip_by. rewrite <- reverse_app, <- Heq. by rewrite reverse_involutive.
Qed.

Lemma split_go_blank ws cur :
  Forall (λ c, isspace c = true) ws → split_go cur ws = flush cur.
Proof.
  intros H. revert cur. induction H as [|c ws Hc _ IH]; intros cur; [done|].
  simpl. rewrite Hc, IH. simpl. by rewrite app_nil_r.
Qed.

Lemma split_go_app_blank s ws : ∀ cur,
  Forall (λ c, isspace c = true) ws → split_go cur (s ++ ws) = split_go cur s.
Proof.
  induction s as [|c s IH]; intros cur Hws; simpl.
  - by apply split_go_blank.
  - destruct (isspace c); by rewrite IH.
Qed.

Lemma split_lstrip s : split (lstrip_by isspace s) = split s.
Proof.
  unfold split. induction s as [|c s IH]; [done|]. simpl.
  destruct (isspace c) eqn:Hc; [exact IH|]. simpl. by rewrite Hc.
Qed.

Lemma split_strip s : split (strip s) = split s.
Proof.
  unfold strip, strip_by. fold (rstrip (lstrip_by isspace s)).
  destruct (rstrip_decomp (lstrip_by isspace s)) as (ws & Heq & Hws).
  rewrite <- (split_lstrip s). unfold split.
  rewrite Heq at 2. by rewrite split_go_app_blank.
Qed.

(** X6.  Two texts with the same words, whatever the white space between
    and around them, are compressed to the same result. *)
Theorem compress_text_whitespace t1 t2 n :
  split t1 = split t2 → compress_text t1 n = compress_text t2 n.
Proof.
  intros H. rewrite !compress_text_unfold. unfold cleaned.
  by rewrite (split_strip t1), (split_strip t2), H.
Qed.

Lemma compress_text_whitespace_witness :
  split (lit "Use  caching." ++ ["010"%char] ++ lit " Then rest ") = split (lit "Use caching. Then rest")
  ∧ compress_text (lit "Use  caching." ++ ["010"%char] ++ lit " Then rest ") 10
    = compress_text (lit "Use caching. Then rest") 10.
Proof.
  assert (split (lit "Use  caching." ++ ["010"%char] ++ lit " Then rest ")
          = split (lit "Use caching. Then rest")) as H by (vm_compute; reflexivity).
  split; [exact H|].
  exact (compress_text_whitespace
           (lit "Use  caching." ++ ["010"%char] ++ lit " Then rest ")
           (lit "Use caching. Then rest") 10 H).
Defined.

Lemma split_go_nil s : ∀ cur,
  split_go cur s = [] → cur = [] ∧ Forall (λ c, isspace c = true) s.
Proof.
  induction s as [|c s IH]; intros cur; simpl.
  - by destruct cur.
  - destruct (isspace c) eqn:Hc.
    + intros [Hcur Hs]%app_eq_nil. apply IH in Hs as [_ Hs].
      split; [by destruct cur|by constructor].
    + intros [Hcur _]%IH. by destruct cur.
Qed.

Lemma cleaned_nil text : cleaned text = [] → Forall (λ c, isspace c = true) text.
Proof.
  unfold cleaned. rewrite split_strip. unfold split.
  pose proof (split_go_words text [] (Forall_nil_2 _)) as Hw.
  destruct (split_go [] text) as [|w W] eqn:Hsplit.
  - intros _. by apply split_go_nil in Hsplit as [_ ?].
  - apply Forall_cons in Hw as [[Hne _] _]. rewrite join_cons.
    by intros [? _]%app_eq_nil.
Qed.

Lemma sentences_from_nonempty s : ∀ cur, cur ++ s ≠ [] → sentences_from cur s ≠ [].
Proof.
  induction s as [|c s IH]; intros cur Hne.
  - rewrite sentences_from_nil. rewrite app_nil_r in Hne. by rewrite bool_decide_eq_false_2.
  - destruct (is_delim c) eqn:Hc.
    + by rewrite sentences_from_delim.
    + change (c :: s) with ([c] ++ s).
      rewrite sentences_from_delim_free by (by repeat constructor).
      apply IH. rewrite <- app_assoc. done.
Qed.

Lemma rstrip_nil s : rstrip s = [] → Forall (λ c, isspace c = true) s.
Proof. intros H. destruct (rstrip_decomp s) as (ws & Heq & Hws). by rewrite Heq, H. Qed.

Lemma compress_text_nonempty text n :
  (1 <= n)%Z → cleaned text ≠ [] → compress_text text n ≠ [].
Proof.
  intros Hn Hc. rewrite compress_text_unfold, bool_decide_eq_false_2 by done. cbv zeta.
  destruct (kept_shaped text) as [Hsh Hnd].
  set (kept := unique (split_sentences (cleaned text))) in *.
  assert (kept ≠ []) as Hkept.
  { pose proof (sentences_from_nonempty (cleaned text) [] Hc) as Hs.
    rewrite <- split_sentences_chars in Hs.
    destruct (split_sentences (cleaned text)) as [|x L] eqn:HL; [done|].
    intros Hnil. assert (x ∈ kept) as Hx by (apply unique_spec; left).
    rewrite Hnil in Hx. by apply elem_of_nil in Hx. }
  assert (block (join (lit " ") kept)) as (Hne & Hlead & _ & _)
    by (by apply block_join; [apply shaped_blocks|]).
  set (result := join (lit " ") kept) in *.
  destruct (Z.leb_spec (Z.of_nat (length result)) n) as [Hle|Hgt]; [done|].
  destruct (truncate_cases result n ltac:(lia) Hgt) as [(c & Hc1 & Hc2 & _ & ->)|[_ ->]].
  - intros Hnil%rstrip_nil.
    destruct result as [|x result]; [done|]. simpl in Hlead.
    destruct c as [|c]; [by injection Hc2 as ->|].
    simpl in Hnil. apply Forall_cons in Hnil as [Hx _]. congruence.
  - destruct result as [|x result]; [done|].
    destruct (Z.to_nat n) as [|k] eqn:Hk; [lia|]. done.
Qed.

(** X7.  For a budget [n ≥ 0] the result of [compress_text] is empty or
    in normal form: it neither starts nor ends with white space, and its
    only white space is single spaces.  A blank text gives the empty
    string for every budget, and for a budget [n ≥ 1] only a blank text
    does. *)
Theorem compress_text_normal text n :
  (0 <= n)%Z →
  (compress_text text n = [] ∨ block (compress_text text n))
  ∧ (Forall (λ c, isspace c = true) text → ∀ m, compress_text text m = [])
  ∧ ((1 <= n)%Z → compress_text text n = [] → Forall (λ c, isspace c = true) text).
Proof.
  intros Hn. split_and!.
  - destruct (compress_text_shape text n Hn) as (k & tl & Heq & _ & Hsh & _ & _).
    rewrite Heq. destruct (take k _ ++ tl) as [|s L] eqn:HL; [by left|].
    right. rewrite <- HL in *. apply block_join; [by apply shaped_blocks|by rewrite HL].
  - intros Hblank m. rewrite compress_text_unfold. unfold cleaned.
    by rewrite strip_blank.
  - intros Hn1 Hnil. apply cleaned_nil.
    destruct (decide (cleaned text = [])) as [|Hc]; [done|].
    by destruct (compress_text_nonempty text n Hn1 Hc).
Qed.

Lemma compress_text_normal_witness :
  (0 <= 12)%Z
  ∧ block (compress_text (lit "  Use   caching.  Use caching. Then rest") 12).
Proof.
  split; [lia|].
  destruct (proj1 (compress_text_normal (lit "  Use   caching.  Use caching. Then rest") 12
                     ltac:(lia))) as [H|H]; [|exact H].
  vm_compute in H. discriminate H.
Defined.

(** * Appending and pruning *)

Lemma load_lines_default st stored :
  load_all st = Ret stored → load_lines [] (default [] st) = Ret stored.
Proof. by destruct st. Qed.

(** X8.  Below the cap the log is append-only.  On a store that does not
    exist, is empty or ends in a newline: when it reads as fewer than 300
    frames, [write_frame] adds one line at the end and leaves every other
    line, blank and corrupt ones included, as it is. *)
Theorem write_frame_appends st stored frame :
  load_all st = Ret stored → length stored < 300 →
  write_frame frame st
  = (Ret (), Some (default [] st ++ [json_dumps (RecapFrame.to_dict frame)])).
Proof.
  intros Hload Hlen. unfold write_frame, _prune_if_needed, load_all.
  rewrite (load_lines_snoc_record _ stored) by by apply load_lines_default.
  rewrite length_app. simpl.
  destruct (Z.leb_spec (Z.of_nat (length stored + 1)) MAX_FRAMES) as [_|H]; [done|].
  unfold MAX_FRAMES in H. lia.
Qed.

Lemma write_frame_appends_witness :
  load_all (Some [Corrupt; json_dumps (RecapFrame.to_dict older); Blank]) = Ret [older]
  ∧ length [older] < 300
  ∧ write_frame newer (Some [Corrupt; json_dumps (RecapFrame.to_dict older); Blank])
    = (Ret (), Some ([Corrupt; json_dumps (RecapFrame.to_dict older); Blank]
                     ++ [json_dumps (RecapFrame.to_dict newer)])).
Proof.
  assert (load_all (Some [Corrupt; json_dumps (RecapFrame.to_dict older); Blank]) = Ret [older])
    as H by (vm_compute; reflexivity).
  split_and!; [exact H|simpl; lia|].
  apply (write_frame_appends _ [older] newer H). simpl; lia.
Defined.

(** X9.  On a store that ends in a newline: when reading it raises,
    [write_frame] raises the same exception, after the new line has been
    appended. *)
Theorem write_frame_unreadable st e frame :
  load_all st = Raise e →
  write_frame frame st
  = (Raise e, Some (default [] st ++ [json_dumps (RecapFrame.to_dict frame)])).
Proof.
  intros Hload. destruct st as [lines|]; [|done].
  unfold write_frame, _prune_if_needed, load_all in *. simpl.
  rewrite load_lines_app, Hload. done.
Qed.

Lemma write_frame_unreadable_witness :
  load_all (Some [Parsed (JInt 42)]) = Raise AttributeError
  ∧ write_frame older (Some [Parsed (JInt 42)])
    = (Raise AttributeError,
       Some ([Parsed (JInt 42)] ++ [json_dumps (RecapFrame.to_dict older)])).
Proof.
  split; [reflexivity|].
  apply (write_frame_unreadable (Some [Parsed (JInt 42)]) AttributeError older). reflexivity.
Defined.

Lemma load_all_records frames : load_all (Some (records frames)) = Ret frames.
Proof. apply (load_lines_records []). Qed.

(** X10.  [_prune_if_needed] leaves a store of at most 300 frames as it
    is; a larger one is rewritten as the records of its last 300 frames, so
    blank and corrupt lines go.  Pruning again changes nothing. *)
Theorem prune_spec st stored :
  load_all st = Ret stored →
  ∃ st', _prune_if_needed st = (Ret (), st')
    ∧ (length stored ≤ 300 → st' = st)
    ∧ (300 < length stored →
         st' = Some (records (drop (length stored - 300) stored)))
    ∧ _prune_if_needed st' = (Ret (), st').
Proof.
  intros Hload. unfold _prune_if_needed at 1. rewrite Hload.
  destruct (Z.leb_spec (Z.of_nat (length stored)) MAX_FRAMES) as [H|H];
    unfold MAX_FRAMES in H.
  - exists st. split_and!; [done|done|lia|].
    unfold _prune_if_needed. rewrite Hload.
    destruct (Z.leb_spec (Z.of_nat (length stored)) MAX_FRAMES) as [|H'];
      [done|unfold MAX_FRAMES in H'; lia].
  - eexists. split_and!; [done|lia| |].
    + intros _. unfold MAX_FRAMES. by rewrite (slice_from_last _ 300) by lia.
    + fold (records (slice_from stored (- MAX_FRAMES))).
      unfold _prune_if_needed. rewrite load_all_records.
      unfold MAX_FRAMES. rewrite (slice_from_last _ 300) by lia.
      rewrite length_drop.
      destruct (Z.leb_spec (Z.of_nat (length stored - (length stored - Z.to_nat 300))) 300)
        as [|H']; [done|lia].
Qed.

Lemma prune_spec_witness :
  load_all (Some [Corrupt; json_dumps (RecapFrame.to_dict older)]) = Ret [older]
  ∧ ∃ st', _prune_if_needed (Some [Corrupt; json_dumps (RecapFrame.to_dict older)])
           = (Ret (), st')
           ∧ _prune_if_needed st' = (Ret (), st').
Proof.
  assert (load_all (Some [Corrupt; json_dumps (RecapFrame.to_dict older)]) = Ret [older])
    as H by (vm_compute; reflexivity).
  split; [exact H|].
  destruct (prune_spec _ _ H) as (st' & H1 & _ & _ & H2).
  exists st'. split; [exact H1|exact H2].
Defined.

(** * Records of other shapes *)

Lemma from_dict_missing items :
  (∀ k, k ∈ lit <$> [ "timestamp"; "key_topics"; "distilled_user_intent";
                      "distilled_system_output"; "tags"; "semantic"; "procedural";
                      "project_state"; "preferences"; "raw_user_message";
                      "raw_assistant_message" ]%string →
        assoc k items = None) →
  RecapFrame.from_dict (JDict items)
  = Ret (RecapFrame.mk [] [] [] [] [] SemanticMemory.default ProceduralMemory.default
           ProjectState.default Preferences.default [] []).
Proof.
  intros H. unfold RecapFrame.from_dict.
  rewrite !get_JDict, !H by (apply list_elem_of_fmap; eexists; split; [done|set_solver]).
  done.
Qed.

(** X11.  [RecapFrame.from_dict] on an object with none of the keys of a
    frame returns the frame of the defaults; on a JSON value that is no
    object it raises [AttributeError]; and the [from_dict] of the four
    nested records returns the defaults on every false value ([None], [{}],
    ...). *)
Theorem from_dict_defaults :
  (∀ items,
     (∀ k, k ∈ lit <$> [ "timestamp"; "key_topics"; "distilled_user_intent";
                         "distilled_system_output"; "tags"; "semantic"; "procedural";
                         "project_state"; "preferences"; "raw_user_message";
                         "raw_assistant_message" ]%string →
           assoc k items = None) →
     RecapFrame.from_dict (JDict items)
     = Ret (RecapFrame.mk [] [] [] [] [] SemanticMemory.default ProceduralMemory.default
              ProjectState.default Preferences.default [] []))
  ∧ (∀ v, (∀ items, v ≠ JDict items) → RecapFrame.from_dict v = Raise AttributeError)
  ∧ (∀ v, truthy v = false →
       SemanticMemory.from_dict v = Ret SemanticMemory.default
       ∧ ProceduralMemory.from_dict v = Ret ProceduralMemory.default
       ∧ ProjectState.from_dict v = Ret ProjectState.default
       ∧ Preferences.from_dict v = Ret Preferences.default).
Proof.
  split_and!.
  - apply from_dict_missing.
  - intros v H. destruct v; try done. by destruct (H items).
  - intros v Hv.
    unfold SemanticMemory.from_dict, ProceduralMemory.from_dict, ProjectState.from_dict,
      Preferences.from_dict.
    by rewrite Hv.
Qed.

Lemma from_dict_defaults_witness :
  RecapFrame.from_dict (JDict [(lit "version", JInt 2); (lit "time_stamp", JStr (lit "x"))])
  = Ret (RecapFrame.mk [] [] [] [] [] SemanticMemory.default ProceduralMemory.default
           ProjectState.default Preferences.default [] [])
  ∧ RecapFrame.from_dict (JList [JStr (lit "timestamp")]) = Raise AttributeError.
Proof.
  split.
  - apply (proj1 from_dict_defaults). intros k Hk.
    rewrite !assoc_skip; [done|..].
    all: intros <-; vm_compute in Hk;
      by repeat (apply elem_of_cons in Hk as [Hk|Hk]; [discriminate Hk|]);
         apply elem_of_nil in Hk.
  - by apply (proj1 (proj2 from_dict_defaults)).
Defined.

Lemma assoc_app_Some k items extra :
  is_Some (assoc k items) → assoc k (items ++ extra) = assoc k items.
Proof.
  induction items as [|[k' v] items IH]; simpl; [by intros [??]|].
  by case_bool_decide.
Qed.

(** X12.  Keys that are not fields are ignored: an object holding the
    items of [f.to_dict()] and any further ones is read back as [f]. *)
Theorem from_dict_extra_keys f items extra :
  RecapFrame.to_dict f = JDict items →
  NoDup (items ++ extra).*1 →
  RecapFrame.from_dict (JDict (items ++ extra)) = Ret f.
Proof.
  intros Hitems _.
  assert (∀ k d, is_Some (assoc k items) →
            get (JDict (items ++ extra)) k d = get (RecapFrame.to_dict f) k d) as Hget.
  { intros k d Hk. by rewrite Hitems, !get_JDict, assoc_app_Some. }
  unfold RecapFrame.from_dict.
  rewrite !Hget
    by (clear -Hitems; unfold RecapFrame.to_dict in Hitems; injection Hitems as <-;
        vm_compute; eauto).
  unfold RecapFrame.to_dict. lookup.
  rewrite SemanticMemory_roundtrip, bind_Ret, ProceduralMemory_roundtrip, bind_Ret,
    ProjectState_roundtrip, bind_Ret, Preferences_roundtrip, !bind_Ret.
  by destruct f.
Qed.

Lemma from_dict_extra_keys_witness :
  ∃ items, RecapFrame.to_dict older = JDict items
    ∧ NoDup (items ++ [(lit "version", JInt 2)]).*1
    ∧ RecapFrame.from_dict (JDict (items ++ [(lit "version", JInt 2)])) = Ret older.
Proof.
  eexists. split; [reflexivity|].
  assert (NoDup ((match RecapFrame.to_dict older with JDict items => items | _ => [] end)
                 ++ [(lit "version", JInt 2)]).*1) as Hnd.
  { apply NoDup_keys. vm_compute. reflexivity. }
  split; [exact Hnd|].
  exact (from_dict_extra_keys older _ [(lit "version", JInt 2)] eq_refl Hnd).
Defined.

(** * Retrieval, for any query

    The loop over the stored frames is a filter, the sort a permutation,
    the slice a prefix: what is retrieved is a part of the store. *)

Lemma scored_fold query_tokens total l : ∀ acc,
  foldl (λ scored '(idx, frame),
           let score := _score_frame query_tokens frame idx total in
           if (score <=? 0)%float && negb (bool_decide (query_tokens = []))
           then scored
           else scored ++ [(score, frame)])
        acc l
  = acc ++ filter (λ sf : float * RecapFrame.t,
                     ((sf.1 <=? 0)%float && negb (bool_decide (query_tokens = []))) = false)
             ((λ '(idx, frame), (_score_frame query_tokens frame idx total, frame)) <$> l).
Proof.
  induction l as [|[idx frame] l IH]; intros acc; csimpl; [by rewrite app_nil_r|].
  rewrite IH, filter_cons. simpl.
  destruct ((_score_frame query_tokens frame idx total <=? 0)%float
            && negb (bool_decide (query_tokens = []))) eqn:Hc.
  - by rewrite decide_False by done.
  - rewrite decide_True by done. by rewrite <- app_assoc.
Qed.

Lemma retrieve_unfold query n st frames :
  load_all st = Ret frames →
  retrieve_relevant_frames query n st
  = Ret ((filter (λ sf : float * RecapFrame.t,
                    (0 <? sf.1)%float = true ∨ query_tokens_of query = [])
                 (slice_to (sorted scored_ltb (scored_of (query_tokens_of query) frames)) n)).*2).
Proof.
  intros Hload. unfold retrieve_relevant_frames. rewrite Hload, bind_Ret.
  case_bool_decide as Hnil.
  - subst frames. unfold scored_of, slice_to. simpl. by rewrite take_nil.
  - fold (query_tokens_of query). by rewrite scored_fold.
Qed.

Lemma enumerate_snd {A} (l : list A) : (enumerate l).*2 = l.
Proof. unfold enumerate. apply snd_zip. by rewrite length_fmap, length_seq. Qed.

Lemma scored_of_frames query_tokens frames :
  (scored_of query_tokens frames).*2 `sublist_of` frames.
Proof.
  unfold scored_of. generalize (Z.of_nat (length frames)) as total. intros total.
  assert (∀ l : list (Z * RecapFrame.t),
            (filter (λ sf : float * RecapFrame.t,
                       ((sf.1 <=? 0)%float && negb (bool_decide (query_tokens = []))) = false)
                    ((λ '(idx, frame), (_score_frame query_tokens frame idx total, frame))
                     <$> l)).*2 `sublist_of` l.*2) as H.
  { induction l as [|[idx frame] l IH]; csimpl; [done|].
    rewrite filter_cons. case_decide; csimpl; [by apply sublist_skip|by apply sublist_cons]. }
  specialize (H (enumerate frames)). by rewrite enumerate_snd in H.
Qed.


Lemma retrieve_submseteq query n st frames :
  load_all st = Ret frames →
  ∃ result, retrieve_relevant_frames query n st = Ret result
    ∧ result ⊆+ frames
    ∧ ((0 <= n)%Z → (Z.of_nat (length result) <= n)%Z).
Proof.
  intros Hload. rewrite (retrieve_unfold _ _ _ _ Hload).
  eexists. split_and!; [done| |].
  - etrans; [|apply sublist_submseteq, (scored_of_frames (query_tokens_of query))].
    apply fmap_submseteq.
    etrans; [apply sublist_submseteq, sublist_filter|].
    etrans; [apply sublist_submseteq, sublist_take|].
    by rewrite sorted_Permutation.
  - intros Hn. rewrite length_fmap.
    etrans; [|by apply (slice_to_length
                          (sorted scored_ltb (scored_of (query_tokens_of query) frames)))].
    apply inj_le, length_filter.
Qed.



(** ** Whole words *)

Lemma word_search_go_eq prev text tok :
  word_search_go prev text tok
  = (negb prev && startswith text tok
     && match drop (length tok) text with
        | [] => true
        | c :: _ => negb (is_word c)
        end)
    || match text with
       | [] => false
       | c :: text' => word_search_go (is_word c) text' tok
       end.
Proof. by destruct text. Qed.

Lemma word_search_go_spec tok text : ∀ prev,
  word_search_go prev text tok = true ↔
  ∃ a b, text = a ++ tok ++ b
    ∧ match last a with Some c => is_word c = false | None => prev = false end
    ∧ (∀ c, head b = Some c → is_word c = false).
Proof.
  induction text as [|x text IH]; intros prev; rewrite word_search_go_eq.
  - rewrite orb_false_r. split.
    + intros [[Hp [b Hb]%startswith_spec]%andb_prop Hd]%andb_prop.
      symmetry in Hb. apply app_eq_nil in Hb as [-> ->].
      exists [], []. split_and!; [done|by destruct prev|done].
    + intros (a & b & Heq & Ha & Hb). symmetry in Heq.
      apply app_eq_nil in Heq as [-> [-> ->]%app_eq_nil]. simpl in *. by rewrite Ha.
  - split.
    + intros [[[Hp [b Hb]%startswith_spec]%andb_prop Hd]%andb_prop|Hrec]%orb_prop.
      * exists [], b. split_and!; [done|by destruct prev|].
        rewrite Hb, drop_app_length in Hd. intros c Hc. destruct b as [|c' b]; [done|].
        injection Hc as <-. by apply negb_true_iff.
      * apply IH in Hrec as (a & b & -> & Ha & Hb).
        exists (x :: a), b. split_and!; [done| |done].
        destruct a as [|y a]; [exact Ha|]. rewrite last_cons_cons.
        destruct (last (y :: a)) eqn:E; [done|]. by apply last_None in E.
    + intros (a & b & Heq & Ha & Hb). apply orb_true_iff.
      destruct a as [|y a].
      * left. change ([] ++ tok ++ b) with (tok ++ b) in Heq.
        change (last []) with (@None ascii) in Ha. cbv beta iota in Ha.
        rewrite Ha, Heq, (proj2 (startswith_spec (tok ++ b) tok)) by eauto.
        rewrite drop_app_length.
        destruct b as [|c b]; [done|]. simpl. apply negb_true_iff. by apply Hb.
      * right. injection Heq as <- ->. apply IH. exists a, b. split_and!; [done| |done].
        destruct a as [|z a]; [exact Ha|]. rewrite last_cons_cons in Ha.
        destruct (last (z :: a)) eqn:E; [done|]. by apply last_None in E.
Qed.

Lemma word_search_spec tok text : word_search tok text = true ↔ whole_word tok text.
Proof.
  unfold word_search, whole_word. rewrite word_search_go_spec.
  split; intros (a & b & Heq & Ha & Hb); exists a, b; split_and!; try done.
  - intros c Hc. by rewrite Hc in Ha.
  - destruct (last a) as [c|]; [by apply Ha|done].
Qed.

Lemma match_count_fold text toks : ∀ acc,
  foldl (λ match_count tok,
           if bool_decide (tok = []) then match_count
           else if word_search tok text then (match_count + 1)%Z
                else match_count) acc toks
  = (acc + Z.of_nat (length (filter (λ tok, tok ≠ [] ∧ word_search tok text = true) toks)))%Z.
Proof.
  induction toks as [|tok toks IH]; intros acc; simpl; [lia|].
  rewrite IH, filter_cons. case_bool_decide as Hnil.
  - rewrite decide_False by (by intros [? _]). done.
  - destruct (word_search tok text) eqn:Hw.
    + rewrite decide_True by done. simpl. lia.
    + rewrite decide_False by (by intros [_ ?]). done.
Qed.

Lemma score_frame_unfold query_tokens frame idx total :
  query_tokens ≠ [] →
  _score_frame query_tokens frame idx total
  = let match_count :=
      Z.of_nat (length (filter (λ tok, tok ≠ [] ∧ word_search tok (haystack frame) = true)
                               query_tokens)) in
    if (match_count =? 0)%Z then 0%float
    else (float_of_int match_count * recency_weight idx total)%float.
Proof.
  intros Hq. unfold _score_frame. rewrite bool_decide_eq_false_2 by done.
  fold (haystack frame). by rewrite match_count_fold.
Qed.

Lemma score_frame_hit query_tokens frame idx total :
  query_tokens ≠ [] →
  (_score_frame query_tokens frame idx total <=? 0)%float = false →
  ∃ tok, tok ∈ query_tokens ∧ whole_word tok (haystack frame).
Proof.
  intros Hq. rewrite score_frame_unfold by done. cbv zeta.
  destruct (filter _ query_tokens) as [|tok l] eqn:Hf; [done|].
  intros _. assert (tok ∈ filter (λ tok, tok ≠ [] ∧ word_search tok (haystack frame) = true)
                      query_tokens) as Hin by (rewrite Hf; left).
  apply list_elem_of_filter in Hin as [[_ Hw] Hin].
  exists tok. split; [done|]. by apply word_search_spec.
Qed.


(** ** Queries with and without tokens *)

Lemma query_tokens_of_tokens query :
  _tokenize query ≠ [] → query_tokens_of query = _tokenize query.
Proof.
  intros H. unfold query_tokens_of. case_bool_decide as Hq; [|done]. by subst query.
Qed.

Lemma query_tokens_of_none query : _tokenize query = [] → query_tokens_of query = [].
Proof. intros H. unfold query_tokens_of. by case_bool_decide. Qed.

Lemma scored_of_elem query_tokens frames score frame :
  (score, frame) ∈ scored_of query_tokens frames →
  frame ∈ frames
  ∧ ((score <=? 0)%float && negb (bool_decide (query_tokens = []))) = false
  ∧ ∃ idx, score = _score_frame query_tokens frame idx (Z.of_nat (length frames)).
Proof.
  intros Hin. split.
  - eapply elem_of_sublist; [|apply (scored_of_frames query_tokens)].
    apply list_elem_of_fmap. by exists (score, frame).
  - unfold scored_of in Hin.
    apply list_elem_of_filter in Hin as [Hkeep Hin].
    apply list_elem_of_fmap in Hin as ([idx frame'] & [= -> ->] & _). eauto.
Qed.

(** X14.  With a query that has tokens, every frame retrieved holds one
    of them as a whole word in the text the query is matched against. *)
Theorem retrieve_hits query n st result frame :
  _tokenize query ≠ [] →
  retrieve_relevant_frames query n st = Ret result →
  frame ∈ result →
  ∃ tok, tok ∈ _tokenize query ∧ whole_word tok (haystack frame).
Proof.
  intros Hq Hret Hin.
  destruct (load_all st) as [frames| |] eqn:Hload;
    [|by unfold retrieve_relevant_frames in Hret; rewrite Hload in Hret..].
  rewrite (retrieve_unfold _ _ _ _ Hload), (query_tokens_of_tokens _ Hq) in Hret.
  injection Hret as <-.
  apply list_elem_of_fmap in Hin as ([score frame'] & -> & Hin).
  apply list_elem_of_filter in Hin as [_ Hin].
  apply elem_of_take_in in Hin. rewrite sorted_Permutation in Hin.
  apply scored_of_elem in Hin as (_ & Hkeep & idx & ->).
  rewrite bool_decide_eq_false_2, andb_true_r in Hkeep by done.
  by eapply score_frame_hit.
Qed.

Lemma retrieve_hits_witness :
  _tokenize (lit "Beta?") ≠ []
  ∧ retrieve_relevant_frames (lit "Beta?") 12 (Some (records [older; newer])) = Ret [newer]
  ∧ newer ∈ [newer]
  ∧ ∃ tok, tok ∈ _tokenize (lit "Beta?") ∧ whole_word tok (haystack newer).
Proof.
  assert (_tokenize (lit "Beta?") ≠ []) as H1 by (vm_compute; discriminate).
  assert (retrieve_relevant_frames (lit "Beta?") 12 (Some (records [older; newer]))
          = Ret [newer]) as H2 by (vm_compute; reflexivity).
  assert (newer ∈ [newer]) as H3 by left.
  split_and!; [exact H1|exact H2|exact H3|].
  exact (retrieve_hits _ _ _ _ _ H1 H2 H3).
Defined.

Lemma retrieve_query_tokens query query' n st :
  query_tokens_of query = query_tokens_of query' →
  retrieve_relevant_frames query n st = retrieve_relevant_frames query' n st.
Proof.
  intros H. destruct (load_all st) as [frames| |] eqn:Hload.
  - by rewrite !(retrieve_unfold _ _ _ _ Hload), H.
  - unfold retrieve_relevant_frames. by rewrite Hload.
  - unfold retrieve_relevant_frames. by rewrite Hload.
Qed.

(** X15.  A query without tokens (punctuation only, say) is answered as
    the empty query is. *)
Theorem load_context_no_tokens query st :
  _tokenize query = [] → load_context query st = load_context [] st.
Proof.
  intros H. unfold load_context, reconstruct_state.
  rewrite (retrieve_query_tokens query [] 12 st); [done|].
  by rewrite query_tokens_of_none.
Qed.

Lemma load_context_no_tokens_witness :
  _tokenize (lit "?! ...") = []
  ∧ load_context (lit "?! ...") (Some (records [older; newer]))
    = load_context [] (Some (records [older; newer])).
Proof. split; [reflexivity|]. by apply load_context_no_tokens. Defined.


(** ** The aggregation loop *)

Lemma last_nonempty_step (field : RecapFrame.t → str) frame frames d :
  default d (last (filter (λ s, s ≠ []) (field <$> frame :: frames)))
  = default (if bool_decide (field frame = []) then d else field frame)
            (last (filter (λ s, s ≠ []) (field <$> frames))).
Proof.
  csimpl. rewrite filter_cons. case_bool_decide as Hf.
  - by rewrite decide_False by naive_solver.
  - rewrite decide_True by done. rewrite last_cons.
    by destruct (last (filter _ _)).
Qed.

Lemma other_prefs_fold (m : gmap str str) : ∀ acc,
  foldl (λ other_prefs '(k, v), <[ k := v ]> other_prefs) acc (map_to_list m) = m ∪ acc.
Proof.
  induction m as [|k v m Hk Hfk IH] using map_first_key_ind; intros acc.
  - by rewrite map_to_list_empty, (left_id_L ∅ (∪)).
  - rewrite map_to_list_insert_first_key by done. simpl.
    rewrite IH. by rewrite <- insert_union_r, insert_union_l.
Qed.

Lemma agg_fold frames : ∀ a,
  foldl agg_step a frames
  = mk_agg
      (default (project_summary a)
         (last (filter (λ s, s ≠ [])
                  ((λ f, ProjectState.summary (RecapFrame.project_state f)) <$> frames))))
      (default (active_workstream a)
         (last (filter (λ s, s ≠ [])
                  ((λ f, ProjectState.active_workstream (RecapFrame.project_state f))
                   <$> frames))))
      (pending_tasks a
       ++ (frames ≫= λ f, ProjectState.pending_tasks (RecapFrame.project_state f)))
      (constraints a
       ++ (frames ≫= λ f, ProjectState.constraints (RecapFrame.project_state f)))
      (default (style a)
         (last (filter (λ s, s ≠ [])
                  ((λ f, Preferences.style (RecapFrame.preferences f)) <$> frames))))
      (default (tone a)
         (last (filter (λ s, s ≠ [])
                  ((λ f, Preferences.tone (RecapFrame.preferences f)) <$> frames))))
      (pref_constraints a
       ++ (frames ≫= λ f, Preferences.constraints (RecapFrame.preferences f)))
      (foldl (λ m f, Preferences.other (RecapFrame.preferences f) ∪ m)
             (other_prefs a) frames).
Proof.
  induction frames as [|f frames IH]; intros a.
  - destruct a. simpl. by rewrite !app_nil_r.
  - change (foldl agg_step a (f :: frames)) with (foldl agg_step (agg_step a f) frames).
    rewrite IH, !last_nonempty_step. unfold agg_step at 1 2 3 4 5 6 7 8.
    cbn [project_summary active_workstream pending_tasks constraints style tone
         pref_constraints other_prefs].
    rewrite other_prefs_fold. csimpl. by rewrite <- !app_assoc.
Qed.

Lemma last_nonempty_nil field frames frame :
  last_nonempty field frames = [] → frame ∈ frames → field frame = [].
Proof.
  unfold last_nonempty. intros Hl Hin.
  destruct (decide (field frame = [])) as [|Hne]; [done|].
  assert (field frame ∈ filter (λ s, s ≠ []) (field <$> frames)) as Hf.
  { apply list_elem_of_filter. split; [done|]. apply list_elem_of_fmap. eauto. }
  destruct (last (filter _ _)) as [x|] eqn:Hlast.
  - simpl in Hl. subst x. apply last_Some_elem_of in Hlast.
    by apply list_elem_of_filter in Hlast as [? _].
  - apply last_None in Hlast. rewrite Hlast in Hf. by apply elem_of_nil in Hf.
Qed.

Lemma reconstruct_fields query n st frames sel :
  load_all st = Ret frames →
  retrieve_relevant_frames query n st = Ret sel →
  let chosen := chosen_frames frames sel n in
  let pending :=
    dedup (chosen ≫= λ f, ProjectState.pending_tasks (RecapFrame.project_state f)) in
  let summary :=
    last_nonempty (λ f, ProjectState.summary (RecapFrame.project_state f)) chosen in
  let workstream :=
    last_nonempty (λ f, ProjectState.active_workstream (RecapFrame.project_state f)) chosen in
  let project_summary :=
    if bool_decide (summary = []) then
      match last chosen with
      | Some primary =>
          if bool_decide (RecapFrame.distilled_user_intent primary = [])
          then join (lit " | ") (RecapFrame.key_topics primary)
          else RecapFrame.distilled_user_intent primary
      | None => []
      end
    else summary in
  reconstruct_state query n st
  = Ret (ContextBundle.mk
           project_summary
           workstream
           (Preferences.mk
              (last_nonempty (λ f, Preferences.style (RecapFrame.preferences f)) chosen)
              (last_nonempty (λ f, Preferences.tone (RecapFrame.preferences f)) chosen)
              (dedup (chosen ≫= λ f, Preferences.constraints (RecapFrame.preferences f)))
              (foldl (λ m f, Preferences.other (RecapFrame.preferences f) ∪ m) ∅ chosen))
           (dedup (chosen ≫= λ f, ProjectState.constraints (RecapFrame.project_state f)))
           (if bool_decide (pending = []) then
              let base :=
                if bool_decide (workstream = []) then project_summary else workstream in
              if bool_decide (base = []) then [] else [lit "Continue: " ++ base]
            else slice_to pending 5)
           chosen).
Proof.
  intros Hload Hsel chosen. unfold reconstruct_state. rewrite Hsel, bind_Ret.
  assert ((if bool_decide (sel = []) then
             all_frames ← load_all st; Ret (slice_from all_frames (- n))
           else Ret sel) = Ret chosen) as ->.
  { subst chosen. unfold chosen_frames. case_bool_decide; [|done]. by rewrite Hload. }
  rewrite bind_Ret. clearbody chosen.
  destruct (last chosen) as [primary|] eqn:Hlast.
  - rewrite agg_fold.
    cbn [project_summary active_workstream pending_tasks constraints style tone
         pref_constraints other_prefs app].
    fold (last_nonempty (λ f, ProjectState.summary (RecapFrame.project_state f)) chosen).
    fold (last_nonempty (λ f, ProjectState.active_workstream (RecapFrame.project_state f))
            chosen).
    fold (last_nonempty (λ f, Preferences.style (RecapFrame.preferences f)) chosen).
    fold (last_nonempty (λ f, Preferences.tone (RecapFrame.preferences f)) chosen).
    cbv zeta.
    assert ((if bool_decide
                  (last_nonempty
                     (λ f, ProjectState.active_workstream (RecapFrame.project_state f))
                     chosen = [])
             then ProjectState.active_workstream (RecapFrame.project_state primary)
             else last_nonempty
                    (λ f, ProjectState.active_workstream (RecapFrame.project_state f)) chosen)
            = last_nonempty
                (λ f, ProjectState.active_workstream (RecapFrame.project_state f)) chosen)
      as ->; [|done].
    case_bool_decide as Hw; [|done]. rewrite Hw.
    apply (last_nonempty_nil _ _ primary) in Hw; [done|].
    by apply last_Some_elem_of.
  - apply last_None in Hlast. by subst chosen.
Qed.

(** ** The empty query

    The recency weights of a store of up to 300 frames are computed and
    compared one by one: each is below all the later ones, so the sort
    reverses the store. *)














(** ** The bundle *)



Lemma reconstruct_Ret_inv query n st b :
  reconstruct_state query n st = Ret b →
  ∃ frames sel, load_all st = Ret frames
                ∧ retrieve_relevant_frames query n st = Ret sel
                ∧ sel ⊆+ frames.
Proof.
  intros Hb. destruct (load_all st) as [frames|e|] eqn:Hload.
  - destruct (retrieve_submseteq query n st frames Hload) as (sel & Hsel & Hsub & _). eauto.
  - unfold reconstruct_state, retrieve_relevant_frames in Hb. by rewrite Hload in Hb.
  - unfold reconstruct_state, retrieve_relevant_frames in Hb. by rewrite Hload in Hb.
Qed.

(** X17.  On a store without frames [reconstruct_state] returns the
    empty bundle, for every query. *)
Theorem reconstruct_empty_store query n st :
  load_all st = Ret [] →
  reconstruct_state query n st
  = Ret (ContextBundle.mk [] [] Preferences.default [] [] []).
Proof.
  intros Hload.
  assert (retrieve_relevant_frames query n st = Ret []) as Hsel.
  { unfold retrieve_relevant_frames. by rewrite Hload. }
  rewrite (reconstruct_fields _ _ _ _ _ Hload Hsel).
  assert (chosen_frames [] [] n = []) as ->; [|done].
  unfold chosen_frames, slice_from. simpl. apply drop_nil.
Qed.

Lemma reconstruct_empty_store_witness :
  load_all (Some [Corrupt; Blank]) = Ret []
  ∧ reconstruct_state (lit "database") 12 (Some [Corrupt; Blank])
    = Ret (ContextBundle.mk [] [] Preferences.default [] [] []).
Proof. split; [reflexivity|]. by apply reconstruct_empty_store. Defined.








(** X21.  The single-valued fields of a bundle are read off its
    supporting frames in the order they are listed: the active workstream,
    the style and the tone are the last non-empty ones, the [other] mapping
    is the union in which later frames overwrite earlier ones, and the
    project summary is the last non-empty one or else the distilled intent
    of the last frame (its key topics joined by [" | "] when that is
    empty). *)
Theorem bundle_last_wins query n st b :
  reconstruct_state query n st = Ret b →
  let frames := ContextBundle.supporting_frames b in
  let summary :=
    last_nonempty (λ f, ProjectState.summary (RecapFrame.project_state f)) frames in
  ContextBundle.active_workstream b
  = last_nonempty (λ f, ProjectState.active_workstream (RecapFrame.project_state f)) frames
  ∧ Preferences.style (ContextBundle.user_prefs b)
    = last_nonempty (λ f, Preferences.style (RecapFrame.preferences f)) frames
  ∧ Preferences.tone (ContextBundle.user_prefs b)
    = last_nonempty (λ f, Preferences.tone (RecapFrame.preferences f)) frames
  ∧ Preferences.other (ContextBundle.user_prefs b)
    = foldl (λ m f, Preferences.other (RecapFrame.preferences f) ∪ m) ∅ frames
  ∧ (summary ≠ [] → ContextBundle.project_summary b = summary)
  ∧ (summary = [] → ∀ primary, last frames = Some primary →
       ContextBundle.project_summary b
       = if bool_decide (RecapFrame.distilled_user_intent primary = [])
         then join (lit " | ") (RecapFrame.key_topics primary)
         else RecapFrame.distilled_user_intent primary).
Proof.
  intros Hb. destruct (reconstruct_Ret_inv _ _ _ _ Hb) as (stored & sel & Hload & Hsel & _).
  rewrite (reconstruct_fields _ _ _ _ _ Hload Hsel) in Hb. injection Hb as <-.
  cbn [ContextBundle.supporting_frames ContextBundle.active_workstream
       ContextBundle.user_prefs ContextBundle.project_summary
       Preferences.style Preferences.tone Preferences.other].
  split_and!; try done.
  - intros Hs. by rewrite bool_decide_eq_false_2.
  - intros Hs primary Hlast. by rewrite bool_decide_eq_true_2, Hlast.
Qed.

Lemma bundle_last_wins_witness :
  ∃ b, reconstruct_state [] 12 (Some (records [older; newer])) = Ret b
       ∧ ContextBundle.supporting_frames b = [newer; older]
       ∧ Preferences.style (ContextBundle.user_prefs b)
         = last_nonempty (λ f, Preferences.style (RecapFrame.preferences f)) [newer; older]
       ∧ Preferences.style (ContextBundle.user_prefs b) = lit "concise".
Proof.
  assert (∃ b, reconstruct_state [] 12 (Some (records [older; newer])) = Ret b
               ∧ ContextBundle.supporting_frames b = [newer; older]) as (b & Hb & Hs).
  { eexists. split; vm_compute; reflexivity. }
  exists b. split_and!; [exact Hb|exact Hs| |].
  - rewrite <- Hs. apply (bundle_last_wins _ _ _ _ Hb).
  - rewrite (proj1 (proj2 (bundle_last_wins _ _ _ _ Hb))), Hs. reflexivity.
Defined.

(** * The frame that is saved

    ** Its tags *)

Lemma classify_tags_cases user_msg assistant_msg :
  _classify_tags user_msg assistant_msg
  ∈ [ [lit "general"]; [lit "tech"]; [lit "plan"]; [lit "meta"];
      [lit "tech"; lit "plan"]; [lit "tech"; lit "meta"]; [lit "plan"; lit "meta"];
      [lit "tech"; lit "plan"; lit "meta"] ].
Proof.
  unfold _classify_tags.
  destruct (any_in _ _); destruct (any_in _ _); destruct (any_in _ _);
    simpl; set_solver.
Qed.

(** X22.  [_classify_tags] never returns an empty list: it returns
    [["general"]] or a selection of [tech], [plan], [meta] in this order;
    the letter case of the messages does not matter. *)
Theorem classify_tags_spec user_msg assistant_msg :
  let tags := _classify_tags user_msg assistant_msg in
  tags ≠ []
  ∧ (tags = [lit "general"] ∨ tags `sublist_of` [lit "tech"; lit "plan"; lit "meta"])
  ∧ _classify_tags (lower user_msg) (lower assistant_msg) = tags.
Proof.
  split_and!.
  - pose proof (classify_tags_cases user_msg assistant_msg) as H.
    intros Hnil. rewrite Hnil in H.
    repeat (apply elem_of_cons in H as [H|H]; [discriminate H|]).
    by apply elem_of_nil in H.
  - pose proof (classify_tags_cases user_msg assistant_msg) as H.
    repeat (apply elem_of_cons in H as [->|H];
            [first [by left | right; repeat first [apply sublist_nil | apply sublist_skip | apply sublist_cons]]|]).
    by apply elem_of_nil in H.
  - unfold _classify_tags. by rewrite !lower_app, !lower_idemp.
Qed.

(** ** Its texts and lists *)

Lemma extract_project_state_inv user_msg assistant_msg ps :
  _extract_project_state user_msg assistant_msg = Ret ps →
  ps = ProjectState.mk (ProjectState.project_name ps) (compress_text user_msg 400)
         (if str_in (lit "currently") (lower user_msg)
             || str_in (lit "right now") (lower user_msg)
          then compress_text user_msg 400 else [])
         [] [].
Proof.
  unfold _extract_project_state.
  destruct (scan_project_name _) as [name| |]; [|done..]. by intros [= <-].
Qed.

Lemma save_context_inv user_msg assistant_msg now st frame st' :
  save_context user_msg assistant_msg now st = (Ret frame, st') →
  ∃ ps, _extract_project_state user_msg assistant_msg = Ret ps
    ∧ frame = compress_frame
        (RecapFrame.mk (now ++ lit "Z")
           (extract_keywords
              [ user_msg; assistant_msg;
                SemanticMemory.notes (_extract_semantic user_msg assistant_msg);
                ProjectState.summary ps ] 12)
           (_distill_intent user_msg) (_distill_output assistant_msg)
           (_classify_tags user_msg assistant_msg)
           (_extract_semantic user_msg assistant_msg)
           (_extract_procedural user_msg assistant_msg)
           ps (_extract_preferences user_msg assistant_msg)
           user_msg assistant_msg) 600
    ∧ write_frame frame st = (Ret (), st').
Proof.
  unfold save_context.
  destruct (_extract_project_state _ _) as [ps| |]; [|done..].
  destruct (write_frame _ st) as [[[]| |] st''] eqn:Hw; [|done..].
  intros [= <- <-]. eauto.
Qed.

Lemma compress_text_length text n :
  (0 <= n)%Z → (Z.of_nat (length (compress_text text n)) <= n)%Z.
Proof.
  intros Hn. by destruct (compress_text_shape text n Hn) as (k & tl & _ & _ & _ & _ & Hlen).
Qed.

Lemma extract_keywords_length texts k :
  (0 <= k)%Z → (Z.of_nat (length (extract_keywords texts k)) <= k)%Z.
Proof.
  intros Hk. rewrite extract_keywords_unfold, length_fmap. by apply slice_to_length.
Qed.

Lemma is_token_char_space c : is_token_char c = true → isspace c = false.
Proof. destruct c as [[] [] [] [] [] [] [] []]; vm_compute; congruence. Qed.

Lemma strip_token t : token t → strip t = t.
Proof.
  intros [Hne Ht]. apply strip_id.
  - destruct t as [|c t]; [done|]. apply Forall_cons in Ht as [Hc _].
    by apply is_token_char_space.
  - unfold no_trail. apply Forall_reverse in Ht.
    destruct (reverse t) as [|c t']; [done|]. apply Forall_cons in Ht as [Hc _].
    by apply is_token_char_space.
Qed.

Lemma extract_keywords_tokens texts k :
  Forall token (extract_keywords texts k) ∧ NoDup (extract_keywords texts k).
Proof.
  rewrite extract_keywords_unfold.
  destruct (slice_to_take (sorted item_ltb (foldl count_text [] texts)) k) as [m ->].
  destruct (counts_texts texts) as [Hnd Hc].
  assert ((take m (sorted item_ltb (foldl count_text [] texts))).*1
          `sublist_of` (sorted item_ltb (foldl count_text [] texts)).*1) as Hsub.
  { apply fmap_sublist, sublist_take. }
  assert ((sorted item_ltb (foldl count_text [] texts)).*1
          ≡ₚ (foldl count_text [] texts).*1) as Hperm.
  { apply fmap_Permutation, sorted_Permutation. }
  split.
  - apply Forall_forall. intros t Ht.
    eapply elem_of_sublist in Ht; [|exact Hsub]. rewrite Hperm in Ht.
    apply list_elem_of_fmap in Ht as ([t' n] & -> & Hin). simpl.
    apply Hc in Hin as [Hin _]. unfold kept_tokens in Hin.
    apply list_elem_of_bind in Hin as (text & Hin & _).
    apply list_elem_of_filter in Hin as [_ Hin].
    pose proof (tokenize_go_tokens (lower text) [] false (Forall_nil_2 _)) as Htok.
    rewrite Forall_forall in Htok. by apply Htok.
  - eapply sublist_NoDup; [|exact Hsub]. by rewrite Hperm.
Qed.

Lemma dedup_list_tokens L : Forall token L → NoDup L → dedup_list L = L.
Proof.
  intros Htok Hnd. rewrite dedup_list_unique, filter_fmap_fixed; [by apply unique_id|].
  intros x Hx. rewrite Forall_forall in Htok.
  split; [by apply strip_token, Htok|by apply Htok].
Qed.

Lemma dedup_list_length values : length (dedup_list values) ≤ length values.
Proof.
  rewrite dedup_list_unique.
  etrans; [apply sublist_length, unique_spec|].
  etrans; [apply length_filter|]. by rewrite length_fmap.
Qed.

Ltac frame_fields :=
  cbn [RecapFrame.timestamp RecapFrame.key_topics RecapFrame.distilled_user_intent
       RecapFrame.distilled_system_output RecapFrame.tags RecapFrame.semantic
       RecapFrame.procedural RecapFrame.project_state RecapFrame.preferences
       RecapFrame.raw_user_message RecapFrame.raw_assistant_message
       SemanticMemory.concepts SemanticMemory.notes
       ProceduralMemory.workflows ProceduralMemory.checklists
       ProjectState.project_name ProjectState.summary ProjectState.active_workstream
       ProjectState.pending_tasks ProjectState.constraints
       Preferences.style Preferences.tone Preferences.constraints Preferences.other].

(** X23.  The texts of the frame [save_context] returns: the distilled
    fields, the notes and the summary are the messages compressed to 400
    characters (the second compression, to 600, leaves them alone), the raw
    fields are the messages compressed to 600; hence their lengths. *)
Theorem save_context_texts user_msg assistant_msg now st frame st' :
  save_context user_msg assistant_msg now st = (Ret frame, st') →
  RecapFrame.timestamp frame = now ++ lit "Z"
  ∧ RecapFrame.distilled_user_intent frame = compress_text user_msg 400
  ∧ RecapFrame.distilled_system_output frame = compress_text assistant_msg 400
  ∧ SemanticMemory.notes (RecapFrame.semantic frame) = compress_text assistant_msg 400
  ∧ ProjectState.summary (RecapFrame.project_state frame) = compress_text user_msg 400
  ∧ RecapFrame.raw_user_message frame = compress_text user_msg 600
  ∧ RecapFrame.raw_assistant_message frame = compress_text assistant_msg 600
  ∧ length (RecapFrame.distilled_user_intent frame) ≤ 400
  ∧ length (RecapFrame.distilled_system_output frame) ≤ 400
  ∧ length (RecapFrame.raw_user_message frame) ≤ 600
  ∧ length (RecapFrame.raw_assistant_message frame) ≤ 600.
Proof.
  intros (ps & Hps & -> & _)%save_context_inv.
  rewrite (extract_project_state_inv _ _ _ Hps).
  unfold compress_frame, _distill_intent, _distill_output, _extract_semantic. frame_fields.
  rewrite !compress_text_refix by lia.
  pose proof (compress_text_length user_msg 400).
  pose proof (compress_text_length assistant_msg 400).
  pose proof (compress_text_length user_msg 600).
  pose proof (compress_text_length assistant_msg 600).
  split_and!; try done; lia.
Qed.

Lemma save_context_texts_witness :
  ∃ frame st',
    save_context second_user second_assistant (lit "2026-01-01T10:00:05") None
    = (Ret frame, st')
    ∧ RecapFrame.raw_user_message frame = compress_text second_user 600.
Proof.
  eexists _, _. split; [vm_compute; reflexivity|].
  eapply (save_context_texts second_user second_assistant (lit "2026-01-01T10:00:05") None).
  vm_compute. reflexivity.
Defined.

Lemma saved_tags user_msg assistant_msg :
  let tags :=
    sorted str_ltb (foldl tag_step (∅, []) (_classify_tags user_msg assistant_msg)).2 in
  tags = [lit "general"]
  ∨ (tags ≠ [] ∧ tags `sublist_of` [lit "meta"; lit "plan"; lit "tech"]).
Proof.
  pose proof (classify_tags_cases user_msg assistant_msg) as H.
  repeat (apply elem_of_cons in H as [->|H];
          [first [by left
                 | right; split; [vm_compute; discriminate|];
                   vm_compute;
                   repeat first [apply sublist_nil | apply sublist_skip | apply sublist_cons]]|]).
  by apply elem_of_nil in H.
Qed.

Lemma saved_pref_constraints user_msg assistant_msg :
  dedup_list (Preferences.constraints (_extract_preferences user_msg assistant_msg))
  `sublist_of` [lit "avoid code unless requested"; lit "avoid examples unless requested"].
Proof.
  unfold _extract_preferences. cbn [Preferences.constraints].
  destruct (str_in (lit "no code") _); destruct (str_in (lit "no examples") _);
    vm_compute;
    repeat first [apply sublist_nil | apply sublist_skip | apply sublist_cons].
Qed.

(** X24.  The lists of the frame [save_context] returns: the key topics
    are the 12 first keywords of its six texts, tokens without repetition;
    the concepts are the 8 first keywords of the two messages, which the
    de-duplication leaves as they are; the tags are [["general"]] or a
    selection of [meta], [plan], [tech] in this order; no checklist,
    pending task or project constraint is ever recorded; and the
    constraints of the preferences are among the two fixed sentences. *)
Theorem save_context_lists user_msg assistant_msg now st frame st' :
  save_context user_msg assistant_msg now st = (Ret frame, st') →
  RecapFrame.key_topics frame
  = extract_keywords
      [ compress_text user_msg 400; compress_text assistant_msg 400;
        compress_text assistant_msg 400; compress_text user_msg 400;
        compress_text user_msg 600; compress_text assistant_msg 600 ] 12
  ∧ length (RecapFrame.key_topics frame) ≤ 12
  ∧ SemanticMemory.concepts (RecapFrame.semantic frame)
    = extract_keywords [user_msg; assistant_msg] 8
  ∧ length (SemanticMemory.concepts (RecapFrame.semantic frame)) ≤ 8
  ∧ Forall token (RecapFrame.key_topics frame) ∧ NoDup (RecapFrame.key_topics frame)
  ∧ (RecapFrame.tags frame = [lit "general"]
     ∨ (RecapFrame.tags frame ≠ []
        ∧ RecapFrame.tags frame `sublist_of` [lit "meta"; lit "plan"; lit "tech"]))
  ∧ ProceduralMemory.checklists (RecapFrame.procedural frame) = []
  ∧ ProjectState.pending_tasks (RecapFrame.project_state frame) = []
  ∧ ProjectState.constraints (RecapFrame.project_state frame) = []
  ∧ Preferences.constraints (RecapFrame.preferences frame)
    `sublist_of` [lit "avoid code unless requested"; lit "avoid examples unless requested"].
Proof.
  intros (ps & Hps & -> & _)%save_context_inv.
  rewrite (extract_project_state_inv _ _ _ Hps).
  unfold compress_frame, _distill_intent, _distill_output, _extract_semantic. frame_fields.
  rewrite !compress_text_refix by lia.
  split_and!; try done.
  - pose proof (extract_keywords_length
      [ compress_text user_msg 400; compress_text assistant_msg 400;
        compress_text assistant_msg 400; compress_text user_msg 400;
        compress_text user_msg 600; compress_text assistant_msg 600 ] 12). lia.
  - apply dedup_list_tokens; apply extract_keywords_tokens.
  - etrans; [apply dedup_list_length|].
    pose proof (extract_keywords_length [user_msg; assistant_msg] 8). lia.
  - apply extract_keywords_tokens.
  - apply extract_keywords_tokens.
  - apply saved_tags.
  - apply saved_pref_constraints.
Qed.

Lemma save_context_lists_witness :
  ∃ frame st',
    save_context second_user second_assistant (lit "2026-01-01T10:00:05") None
    = (Ret frame, st')
    ∧ length (RecapFrame.key_topics frame) ≤ 12.
Proof.
  eexists _, _. split; [vm_compute; reflexivity|].
  eapply (save_context_lists second_user second_assistant (lit "2026-01-01T10:00:05") None).
  vm_compute. reflexivity.
Defined.

(** ** Saving, then reading *)



(** ** Markers in another letter case, and no marker *)

Lemma marker_test_raises marker line :
  str_in marker (lower line) = true → str_in marker line = false →
  marker_test marker line = Raise IndexError.
Proof.
  intros Hl Hn. unfold marker_test. rewrite Hl. unfold split1.
  unfold str_in in Hn. apply bool_decide_eq_false in Hn.
  destruct (find line marker) as [i|] eqn:Hf; [by destruct Hn|]. done.
Qed.

(** X26.  When the first line that mentions a marker spells it with a
    capital somewhere, and nowhere in lower case, reading the project name
    raises [IndexError], and so does [save_context], which leaves the store
    as it was. *)
Theorem project_marker_case user_msg assistant_msg pre line post :
  splitlines (user_msg ++ ["010"%char] ++ assistant_msg) = pre ++ line :: post →
  (∀ l, l ∈ pre → str_in (lit "project:") (lower l) = false
                  ∧ str_in (lit "project name:") (lower l) = false) →
  (str_in (lit "project:") (lower line) = true ∧ str_in (lit "project:") line = false)
  ∨ (str_in (lit "project:") (lower line) = false
     ∧ str_in (lit "project name:") (lower line) = true
     ∧ str_in (lit "project name:") line = false) →
  _extract_project_state user_msg assistant_msg = Raise IndexError
  ∧ ∀ now st, save_context user_msg assistant_msg now st = (Raise IndexError, st).
Proof.
  intros Hlines Hpre Hline.
  assert (_extract_project_state user_msg assistant_msg = Raise IndexError) as Hps.
  { unfold _extract_project_state.
    rewrite Hlines, (scan_project_name_skip _ _ Hpre), scan_project_name_cons.
    destruct Hline as [[H1 H2]|(H1 & H2 & H3)].
    - by rewrite (marker_test_raises _ _ H1 H2).
    - rewrite (marker_test_absent _ _ H1), bind_Ret.
      by rewrite (marker_test_raises _ _ H2 H3). }
  split; [done|]. intros now st. unfold save_context. by rewrite Hps.
Qed.

Lemma project_marker_case_witness :
  splitlines (lit "Hello" ++ ["010"%char] ++ lit "Project: Orion" ++ ["010"%char] ++ lit "ok")
  = [lit "Hello"] ++ lit "Project: Orion" :: [lit "ok"]
  ∧ save_context (lit "Hello" ++ ["010"%char] ++ lit "Project: Orion") (lit "ok")
      (lit "2026-01-01T10:00:00") None
    = (Raise IndexError, None).
Proof.
  split; [reflexivity|].
  refine (proj2 (project_marker_case (lit "Hello" ++ ["010"%char] ++ lit "Project: Orion")
                   (lit "ok") [lit "Hello"] (lit "Project: Orion") [lit "ok"] _ _ _) _ _).
  - reflexivity.
  - intros l Hl. apply elem_of_cons in Hl as [->|Hl]; [|by apply elem_of_nil in Hl].
    split; reflexivity.
  - left. split; reflexivity.
Defined.

(** X27.  When no line mentions a marker the project name is empty; the
    summary is the user message compressed to 400 characters, and the
    active workstream is that summary when the user message says
    ["currently"] or ["right now"], in any letter case, and empty
    otherwise. *)
Theorem project_name_absent user_msg assistant_msg :
  (∀ l, l ∈ splitlines (user_msg ++ ["010"%char] ++ assistant_msg) →
     str_in (lit "project:") (lower l) = false
     ∧ str_in (lit "project name:") (lower l) = false) →
  _extract_project_state user_msg assistant_msg
  = Ret (ProjectState.mk [] (compress_text user_msg 400)
           (if str_in (lit "currently") (lower user_msg)
               || str_in (lit "right now") (lower user_msg)
            then compress_text user_msg 400 else [])
           [] []).
Proof.
  intros H. unfold _extract_project_state.
  rewrite <- (app_nil_r (splitlines _)), (scan_project_name_skip _ _ H). done.
Qed.

Lemma project_name_absent_witness :
  _extract_project_state first_user first_assistant
  = Ret (ProjectState.mk [] (compress_text first_user 400) [] [] []).
Proof.
  refine (project_name_absent first_user first_assistant _).
  intros l Hl.
  change (splitlines (first_user ++ ["010"%char] ++ first_assistant))
    with [first_user; first_assistant] in Hl.
  repeat (apply elem_of_cons in Hl as [->|Hl]; [split; reflexivity|]).
  by apply elem_of_nil in Hl.
Defined.

(** * The command line *)

Import app.

Lemma read_loop_terminated pre : ∀ lines dot rest,
  Forall (λ l, strip l ≠ lit ".") pre → strip dot = lit "." →
  read_loop lines (pre ++ dot :: rest) = (lines ++ pre, rest).
Proof.
  induction pre as [|l pre IH]; intros lines dot rest Hpre Hdot; simpl.
  - by rewrite bool_decide_eq_true_2, app_nil_r.
  - apply Forall_cons in Hpre as [Hl Hpre].
    rewrite bool_decide_eq_false_2, IH by done. by rewrite <- app_assoc.
Qed.

Lemma read_loop_eof input : ∀ lines,
  Forall (λ l, strip l ≠ lit ".") input →
  read_loop lines input = (lines ++ input, []).
Proof.
  induction input as [|l input IH]; intros lines Hin; simpl.
  - by rewrite app_nil_r.
  - apply Forall_cons in Hin as [Hl Hin].
    rewrite bool_decide_eq_false_2, IH by done. by rewrite <- app_assoc.
Qed.

(** X28.  [_read_block] reads up to the first line that is a single dot
    once stripped, or to the end of the input, and returns the lines before
    it joined by newlines and stripped; the lines after the dot are left on
    the input; one prompt is printed. *)
Theorem read_block_spec label c pre :
  Forall (λ l, strip l ≠ lit ".") pre →
  (∀ dot rest, stdin c = pre ++ dot :: rest → strip dot = lit "." →
     (_read_block label c).1 = strip (join ["010"%char] pre)
     ∧ stdin (_read_block label c).2 = rest)
  ∧ (stdin c = pre →
     (_read_block label c).1 = strip (join ["010"%char] pre)
     ∧ stdin (_read_block label c).2 = [])
  ∧ no_lead (_read_block label c).1 ∧ no_trail (_read_block label c).1
  ∧ stdout (_read_block label c).2
    = stdout c ++ [lit "Enter " ++ label
                   ++ lit " (finish with a single '.' on its own line):"].
Proof.
  intros Hpre. unfold _read_block. cbn [print stdin stdout]. split_and!.
  - intros dot rest -> Hdot. by rewrite read_loop_terminated.
  - intros ->. by rewrite read_loop_eof.
  - destruct (read_loop [] (stdin c)). apply strip_no_lead.
  - destruct (read_loop [] (stdin c)). apply strip_no_trail.
  - by destruct (read_loop [] (stdin c)).
Qed.

Lemma read_block_spec_witness :
  Forall (λ l, strip l ≠ lit ".") [lit " first line"; lit "second. "]
  ∧ (_read_block (lit "user message")
       (mk_console [lit " first line"; lit "second. "; lit " . "; lit "left"] [])).1
    = lit "first line" ++ ["010"%char] ++ lit "second."
  ∧ stdin (_read_block (lit "user message")
             (mk_console [lit " first line"; lit "second. "; lit " . "; lit "left"] [])).2
    = [lit "left"].
Proof.
  assert (Forall (λ l, strip l ≠ lit ".") [lit " first line"; lit "second. "]) as H.
  { repeat constructor; vm_compute; discriminate. }
  split; [exact H|].
  exact (proj1 (read_block_spec (lit "user message")
                  (mk_console [lit " first line"; lit "second. "; lit " . "; lit "left"] [])
                  _ H) (lit " . ") [lit "left"] eq_refl eq_refl).
Defined.

(** X29.  When the user block or the assistant block is blank,
    [_cmd_save] returns without touching the store, after printing which of
    the two is missing. *)
Theorem cmd_save_blank now c st :
  (_read_block (lit "user message") c).1 = []
  ∨ (_read_block (lit "assistant message")
       (print [] (_read_block (lit "user message") c).2)).1 = [] →
  ∃ c', _cmd_save now c st = (Ret (), c', st)
        ∧ (last (stdout c') = Some (lit "No user message entered.")
           ∨ last (stdout c') = Some (lit "No assistant message entered.")).
Proof.
  intros H. unfold _cmd_save.
  destruct (_read_block (lit "user message") c) as [user_msg c1]. cbn [fst snd] in H.
  case_bool_decide as Hu.
  - eexists. split; [done|]. left. apply last_snoc.
  - destruct H as [H|H]; [done|].
    destruct (_read_block (lit "assistant message") (print [] c1)) as [assistant_msg c2].
    cbn [fst snd] in H. rewrite bool_decide_eq_true_2 by done.
    eexists. split; [done|]. right. apply last_snoc.
Qed.

Lemma cmd_save_blank_witness :
  (_read_block (lit "user message") (mk_console [lit "  "; lit "."; lit "answer"] [])).1 = []
  ∧ ∃ c', _cmd_save (lit "2026-01-01T10:00:00")
            (mk_console [lit "  "; lit "."; lit "answer"] []) None
          = (Ret (), c', None).
Proof.
  split; [reflexivity|].
  destruct (cmd_save_blank (lit "2026-01-01T10:00:00")
              (mk_console [lit "  "; lit "."; lit "answer"] []) None (or_introl eq_refl))
    as (c' & H & _).
  exists c'. exact H.
Defined.
